(** * LMSR pricing engine of pm-js ([src/lmsr.js]): a shallow embedding

    The four exported functions [calcLMSRCost], [calcLMSRProfit],
    [calcLMSROutcomeTokenCount] and [calcLMSRMarginalPrice] are transcribed
    over a model of the decimal.js values they compute with.

    - A [Decimal.t] is a finite real or one of decimal.js's three special
      values (NaN, +Infinity, -Infinity).
    - Every arithmetic method returns the exact result passed through the
      rounding [rnd] of the configured precision.  The configuration lives in
      [./utils], so [rnd] is a parameter of the whole development; the
      constructor [new Decimal(v)] does not round.
    - The exponent range is taken unbounded (no overflow to Infinity, no
      underflow to zero) and zero is unsigned: with [funding >= 0] and at
      least two outcomes the divisor [b] is never a negative zero.
    - [outcomeTokenIndex] is a JavaScript number, so that the strict test
      [i === outcomeTokenIndex] compares numbers.

    Of the [Gnosis] class ([index.js]), which carries these functions as
    static members, the development models the default gas that the
    constructor computes for each contract abstraction and the registration
    of contracts by [importContracts]; an object is the list of its own
    properties in enumeration order. *)

From Stdlib Require Import Reals ZArith List Lia Lra Bool.
From Stdlib Require String.
Import ListNotations.
Import String.StringSyntax.
Delimit Scope string_scope with string.

(** ** Results of a call: a value or a thrown error *)

Inductive Error : Type :=
| InvalidInput   (* thrown by the argument normalisation *)
| TypeError      (* property access on [undefined] *)
| DecimalError.  (* decimal.js refusing an argument *)

Inductive result (A : Type) : Type :=
| Ok (a : A)
| Err (e : Error).
Arguments Ok {A} a.
Arguments Err {A} e.

Definition bind {A B : Type} (r : result A) (k : A -> result B) : result B :=
  match r with
  | Ok a => k a
  | Err e => Err e
  end.

Notation "x <- r ;; k" := (bind r (fun x => k))
  (at level 61, r at next level, right associativity).
Notation "' p <- r ;; k" := (bind r (fun x => let 'p := x in k))
  (at level 61, p pattern, r at next level, right associativity).

(** ** [Array.prototype.reduce] with its index argument *)

Fixpoint reduce_from {A B : Type} (f : B -> A -> nat -> B) (i : nat)
    (l : list A) (acc : B) : B :=
  match l with
  | [] => acc
  | x :: t => reduce_from f (S i) t (f acc x i)
  end.

Definition reduce {A B : Type} (f : B -> A -> nat -> B) (l : list A) (init : B) : B :=
  reduce_from f 0 l init.

(** ** The decimal numeric core *)

Module Decimal.

Inductive t : Type :=
| Fin (x : R)
| PInf
| NInf
| NaN.

Definition ofZ (z : Z) : t := Fin (IZR z).

Definition isFinite (d : t) : bool :=
  match d with Fin _ => true | _ => false end.

Section Context.

Open Scope R_scope.

(** Rounding to the configured number of significant digits. *)
Variable rnd : R -> R.

Definition plus (x y : t) : t :=
  match x, y with
  | NaN, _ | _, NaN => NaN
  | Fin a, Fin b => Fin (rnd (a + b))
  | PInf, NInf | NInf, PInf => NaN
  | PInf, _ | _, PInf => PInf
  | NInf, _ | _, NInf => NInf
  end.

Definition minus (x y : t) : t :=
  match x, y with
  | NaN, _ | _, NaN => NaN
  | Fin a, Fin b => Fin (rnd (a - b))
  | PInf, PInf | NInf, NInf => NaN
  | PInf, _ | _, NInf => PInf
  | NInf, _ | _, PInf => NInf
  end.

Definition signedInf (negative : bool) : t := if negative then NInf else PInf.

Definition isNegative (a : R) : bool := if Rlt_dec a 0 then true else false.
Definition isZero (a : R) : bool := if Req_dec_T a 0 then true else false.

Definition times (x y : t) : t :=
  match x, y with
  | NaN, _ | _, NaN => NaN
  | Fin a, Fin b => Fin (rnd (a * b))
  | Fin a, PInf | PInf, Fin a => if isZero a then NaN else signedInf (isNegative a)
  | Fin a, NInf | NInf, Fin a => if isZero a then NaN else signedInf (negb (isNegative a))
  | PInf, PInf | NInf, NInf => PInf
  | PInf, NInf | NInf, PInf => NInf
  end.

Definition dividedBy (x y : t) : t :=
  match x, y with
  | NaN, _ | _, NaN => NaN
  | Fin a, Fin b =>
      if isZero b then (if isZero a then NaN else signedInf (isNegative a))
      else Fin (rnd (a / b))
  | Fin _, _ => Fin 0
  | PInf, Fin b => signedInf (isNegative b)
  | NInf, Fin b => signedInf (negb (isNegative b))
  | _, _ => NaN
  end.

Definition exp (x : t) : t :=
  match x with
  | Fin a => Fin (rnd (Rtrigo_def.exp a))
  | PInf => PInf
  | NInf => Fin 0
  | NaN => NaN
  end.

Definition ln (x : t) : t :=
  match x with
  | Fin a =>
      if isNegative a then NaN
      else if isZero a then NInf
      else Fin (rnd (Rpower.ln a))
  | PInf => PInf
  | NInf | NaN => NaN
  end.

End Context.

Definition ceil (x : t) : t :=
  match x with
  | Fin a => Fin (IZR (Zceil a))
  | d => d
  end.

Definition floor (x : t) : t :=
  match x with
  | Fin a => Fin (IZR (Zfloor a))
  | d => d
  end.

(** [x.lt(y)], false as soon as one side is NaN. *)
Definition lt (x y : t) : bool :=
  match x, y with
  | NaN, _ | _, NaN => false
  | Fin a, Fin b => if Rlt_dec a b then true else false
  | _, NInf | PInf, _ => false
  | NInf, _ | _, PInf => true
  end.

(** [Decimal.max(...args)]: NaN when an argument is NaN, an error with no
    argument at all. *)
Fixpoint max_from (x : t) (args : list t) : t :=
  match args with
  | [] => x
  | NaN :: _ => NaN
  | y :: rest => max_from (if lt x y then y else x) rest
  end.

Definition max (args : list t) : result t :=
  match args with
  | [] => Err DecimalError
  | NaN :: _ => Ok NaN
  | x :: rest => Ok (max_from x rest)
  end.

(** The JavaScript number [1+1e-9], read by decimal.js through its decimal
    string [1.000000001]. *)
Definition onePlusEps : t := Fin (IZR 1000000001 / IZR 1000000000).

End Decimal.

Abbreviation Fin := Decimal.Fin.
Abbreviation PInf := Decimal.PInf.
Abbreviation NInf := Decimal.NInf.
Abbreviation NaN := Decimal.NaN.
Abbreviation ofZ := Decimal.ofZ.
Abbreviation ceil := Decimal.ceil.
Abbreviation floor := Decimal.floor.
Abbreviation onePlusEps := Decimal.onePlusEps.

(** ** Argument normalisation *)

(** Modelled from the spec: [normalizeWeb3Args] is imported from [./utils],
    which is not part of the sources at hand; [lmsr.js] only passes it the
    ABI types of the arguments and the default [feeFactor: 0].  The spec's
    error taxonomy makes it reject, before any arithmetic, an outcome count
    below two, an index out of range, a negative funding, token count or
    cost, and a fee factor outside [0, 1e6). *)
Definition validState (sold : list Z) (funding idx : Z) : bool :=
  (2 <=? Z.of_nat (length sold))%Z && (0 <=? funding)%Z
  && (0 <=? idx)%Z && (idx <? Z.of_nat (length sold))%Z.

Definition validAmount (amount : Z) : bool := (0 <=? amount)%Z.

Definition validFee (fee : Z) : bool := (0 <=? fee)%Z && (fee <? 1000000)%Z.

(** Modelled from the spec: the five-argument form used by [calcLMSRCost],
    [calcLMSRProfit] and [calcLMSROutcomeTokenCount]; a missing fee factor
    takes the declared default. *)
Definition normalizeWeb3Args (sold : list Z) (funding idx amount : Z)
    (feeFactor : option Z) : result (list Z * Z * Z * Z * Z) :=
  let fee := match feeFactor with Some f => f | None => 0%Z end in
  if validState sold funding idx && validAmount amount && validFee fee
  then Ok (sold, funding, idx, amount, fee)
  else Err InvalidInput.

(** Modelled from the spec: the three-argument form used by
    [calcLMSRMarginalPrice]. *)
Definition normalizeWeb3Args3 (sold : list Z) (funding idx : Z)
    : result (list Z * Z * Z) :=
  if validState sold funding idx then Ok (sold, funding, idx)
  else Err InvalidInput.

(** The invalid inputs of the spec's error taxonomy, as propositions. *)
Definition invalidState (sold : list Z) (funding idx : Z) : Prop :=
  (length sold < 2)%nat \/ (idx < 0)%Z \/ (Z.of_nat (length sold) <= idx)%Z
  \/ (funding < 0)%Z.

Definition invalidInput (sold : list Z) (funding idx amount fee : Z) : Prop :=
  invalidState sold funding idx \/ (amount < 0)%Z
  \/ (fee < 0)%Z \/ (1000000 <= fee)%Z.

(** ** The pricing operations *)

Section Pricing.

Variable rnd : R -> R.

Local Abbreviation plus := (Decimal.plus rnd).
Local Abbreviation minus := (Decimal.minus rnd).
Local Abbreviation times := (Decimal.times rnd).
Local Abbreviation dividedBy := (Decimal.dividedBy rnd).
Local Abbreviation exp := (Decimal.exp rnd).
Local Abbreviation ln := (Decimal.ln rnd).

(** [new Decimal(funding.toString()).dividedBy(new Decimal(netOutcomeTokensSold.length).ln())] *)
Definition liquidityParameter (sold : list Z) (funding : Z) : Decimal.t :=
  dividedBy (ofZ funding) (ln (ofZ (Z.of_nat (length sold)))).

Definition calcLMSRCost (netOutcomeTokensSold : list Z)
    (funding outcomeTokenIndex outcomeTokenCount : Z) (feeFactor : option Z)
    : result Decimal.t :=
  '(netOutcomeTokensSold, funding, outcomeTokenIndex, outcomeTokenCount, feeFactor) <-
    normalizeWeb3Args netOutcomeTokensSold funding outcomeTokenIndex
      outcomeTokenCount feeFactor ;;
  let outcomeTokenCount := ofZ outcomeTokenCount in
  let baseCost :=
    if (funding =? 0)%Z then outcomeTokenCount
    else
      let b := liquidityParameter netOutcomeTokensSold funding in
      times b
        (minus
           (ln (reduce (fun acc numShares i =>
                  plus acc
                    (exp (dividedBy
                            (plus (ofZ numShares)
                               (if (Z.of_nat i =? outcomeTokenIndex)%Z
                                then outcomeTokenCount else ofZ 0))
                            b)))
                  netOutcomeTokensSold (ofZ 0)))
           (ln (reduce (fun acc numShares _ =>
                  plus acc (exp (dividedBy (ofZ numShares) b)))
                  netOutcomeTokensSold (ofZ 0))))
  in
  Ok (ceil (times
              (times baseCost
                 (plus (ofZ 1) (dividedBy (ofZ feeFactor) (ofZ 1000000))))
              onePlusEps)).

Definition calcLMSRProfit (netOutcomeTokensSold : list Z)
    (funding outcomeTokenIndex outcomeTokenCount : Z) (feeFactor : option Z)
    : result Decimal.t :=
  '(netOutcomeTokensSold, funding, outcomeTokenIndex, outcomeTokenCount, feeFactor) <-
    normalizeWeb3Args netOutcomeTokensSold funding outcomeTokenIndex
      outcomeTokenCount feeFactor ;;
  if (funding =? 0)%Z then Ok (ofZ 0)
  else
    let outcomeTokenCount := ofZ outcomeTokenCount in
    let b := liquidityParameter netOutcomeTokensSold funding in
    Ok (floor
          (dividedBy
             (times
                (times b
                   (minus
                      (ln (reduce (fun acc numShares _ =>
                             plus acc (exp (dividedBy (ofZ numShares) b)))
                             netOutcomeTokensSold (ofZ 0)))
                      (ln (reduce (fun acc numShares i =>
                             plus acc
                               (exp (dividedBy
                                       (minus (ofZ numShares)
                                          (if (Z.of_nat i =? outcomeTokenIndex)%Z
                                           then outcomeTokenCount else ofZ 0))
                                       b)))
                             netOutcomeTokensSold (ofZ 0)))))
                (minus (ofZ 1) (dividedBy (ofZ feeFactor) (ofZ 1000000))))
             onePlusEps)).

(** The argument of the final logarithm of [calcLMSROutcomeTokenCount]. *)
Definition outcomeTokenCountLogArg (netOutcomeTokensSold : list Z)
    (outcomeTokenIndex : Z) (cost b : Decimal.t) (feeFactor : Z) : Decimal.t :=
  minus
    (reduce (fun acc numShares _ =>
       plus acc
         (exp (dividedBy
                 (plus (ofZ numShares)
                    (dividedBy cost
                       (plus (ofZ 1) (dividedBy (ofZ feeFactor) (ofZ 1000000)))))
                 b)))
       netOutcomeTokensSold (ofZ 0))
    (reduce (fun acc numShares i =>
       if (Z.of_nat i =? outcomeTokenIndex)%Z then acc
       else plus acc (exp (dividedBy (ofZ numShares) b)))
       netOutcomeTokensSold (ofZ 0)).

Definition calcLMSROutcomeTokenCount (netOutcomeTokensSold : list Z)
    (funding outcomeTokenIndex cost : Z) (feeFactor : option Z)
    : result Decimal.t :=
  '(netOutcomeTokensSold, funding, outcomeTokenIndex, cost, feeFactor) <-
    normalizeWeb3Args netOutcomeTokensSold funding outcomeTokenIndex
      cost feeFactor ;;
  let cost := ofZ cost in
  let b := liquidityParameter netOutcomeTokensSold funding in
  let scaled :=
    times b
      (ln (outcomeTokenCountLogArg netOutcomeTokensSold outcomeTokenIndex
             cost b feeFactor)) in
  match nth_error netOutcomeTokensSold (Z.to_nat outcomeTokenIndex) with
  | Some sold_i => Ok (floor (minus scaled (ofZ sold_i)))
  | None => Err DecimalError
  end.

Definition calcLMSRMarginalPrice (netOutcomeTokensSold : list Z)
    (funding outcomeTokenIndex : Z) : result Decimal.t :=
  '(netOutcomeTokensSold, funding, outcomeTokenIndex) <-
    normalizeWeb3Args3 netOutcomeTokensSold funding outcomeTokenIndex ;;
  if (funding =? 0)%Z && forallb (fun quantity => (quantity =? 0)%Z) netOutcomeTokensSold
  then Ok (dividedBy (ofZ 1) (ofZ (Z.of_nat (length netOutcomeTokensSold))))
  else
    let b := liquidityParameter netOutcomeTokensSold funding in
    largest <- Decimal.max (map ofZ netOutcomeTokensSold) ;;
    let expOffset := dividedBy largest b in
    match nth_error netOutcomeTokensSold (Z.to_nat outcomeTokenIndex) with
    | Some sold_i =>
        Ok (dividedBy
              (exp (minus (dividedBy (ofZ sold_i) b) expOffset))
              (reduce (fun acc tokensSold _ =>
                 plus acc (exp (minus (dividedBy (ofZ tokensSold) b) expOffset)))
                 netOutcomeTokensSold (ofZ 0)))
    | None => Err TypeError
    end.

(** ** The spec's wording of the same quantities *)

(** [sold'] of the spec: the vector with [k] added to one entry. *)
Fixpoint addAt (l : list Z) (idx : nat) (k : Z) : list Z :=
  match l, idx with
  | [], _ => []
  | s :: t, O => (s + k)%Z :: t
  | s :: t, S i => s :: addAt t i k
  end.

(** [logSumExp(values)], unshifted form: [ln (Σ exp v_i)]. *)
Definition logSumExp (values : list Decimal.t) : Decimal.t :=
  ln (fold_left plus (map exp values) (ofZ 0)).

Definition scaledBy (b : Decimal.t) (l : list Z) : list Decimal.t :=
  map (fun s => dividedBy (ofZ s) b) l.

(** [ceil (b × (logSumExp(sold'/b) − logSumExp(sold/b)) × (1 + f/1e6) × (1 + 1e-9))]
    with [b = funding / ln n]. *)
Definition costFormula (sold : list Z) (funding : Z) (idx : nat) (k f : Z)
    : Decimal.t :=
  let b := dividedBy (ofZ funding) (ln (ofZ (Z.of_nat (length sold)))) in
  ceil (times
          (times
             (times b
                (minus (logSumExp (scaledBy b (addAt sold idx k)))
                       (logSumExp (scaledBy b sold))))
             (plus (ofZ 1) (dividedBy (ofZ f) (ofZ 1000000))))
          onePlusEps).

(** The price ratio with an arbitrary offset [m] inside every exponential,
    and the unshifted ratio [exp (sold_i/b) / Σ_j exp (sold_j/b)]. *)
Definition shiftedRatio (sold : list Z) (funding : Z) (idx : nat)
    (m : Decimal.t) : Decimal.t :=
  let b := dividedBy (ofZ funding) (ln (ofZ (Z.of_nat (length sold)))) in
  dividedBy
    (exp (minus (dividedBy (ofZ (nth idx sold 0%Z)) b) m))
    (fold_left plus
       (map (fun s => exp (minus (dividedBy (ofZ s) b) m)) sold) (ofZ 0)).

Definition unshiftedRatio (sold : list Z) (funding : Z) (idx : nat)
    : Decimal.t :=
  let b := dividedBy (ofZ funding) (ln (ofZ (Z.of_nat (length sold)))) in
  dividedBy
    (exp (dividedBy (ofZ (nth idx sold 0%Z)) b))
    (fold_left plus (map exp (scaledBy b sold)) (ofZ 0)).

End Pricing.

(** ** Real-valued mirrors of the finite paths

    On a funded market every intermediate value is finite; the functions
    below compute the real inside each [Fin], rounding included. *)

Section Mirror.

Open Scope R_scope.

Variable rnd : R -> R.

Definition eps1 : R := IZR 1000000001 / IZR 1000000000.

Definition bR (n : nat) (funding : Z) : R :=
  rnd (IZR funding / rnd (ln (IZR (Z.of_nat n)))).

(** The accumulator of a [reduce] that adds [term numShares i] at each step. *)
Fixpoint sumR (term : Z -> nat -> R) (i : nat) (l : list Z) (acc : R) : R :=
  match l with
  | [] => acc
  | s :: r => sumR term (S i) r (rnd (acc + term s i))
  end.

(** The same, skipping the entry at [idx]. *)
Fixpoint sumSkipR (term : Z -> nat -> R) (idx : Z) (i : nat) (l : list Z)
    (acc : R) : R :=
  match l with
  | [] => acc
  | s :: r =>
      sumSkipR term idx (S i) r
        (if (Z.of_nat i =? idx)%Z then acc else rnd (acc + term s i))
  end.

Definition selected (idx : Z) (i : nat) (k : Z) : Z :=
  if (Z.of_nat i =? idx)%Z then k else 0%Z.

Definition termPlain (b : R) (s : Z) (_ : nat) : R :=
  rnd (exp (rnd (IZR s / b))).

Definition termBuy (b : R) (idx k : Z) (s : Z) (i : nat) : R :=
  rnd (exp (rnd (rnd (IZR s + IZR (selected idx i k)) / b))).

Definition termSell (b : R) (idx k : Z) (s : Z) (i : nat) : R :=
  rnd (exp (rnd (rnd (IZR s - IZR (selected idx i k)) / b))).

Definition feeUp (f : Z) : R := rnd (1 + rnd (IZR f / IZR 1000000)).
Definition feeDown (f : Z) : R := rnd (1 - rnd (IZR f / IZR 1000000)).

Definition baseCostR (sold : list Z) (funding idx k : Z) : R :=
  let b := bR (length sold) funding in
  rnd (b * rnd (rnd (ln (sumR (termBuy b idx k) 0 sold 0))
                - rnd (ln (sumR (termPlain b) 0 sold 0)))).

Definition costR (sold : list Z) (funding idx k f : Z) : R :=
  rnd (rnd ((if (funding =? 0)%Z then IZR k else baseCostR sold funding idx k)
            * feeUp f) * eps1).

Definition baseProfitR (sold : list Z) (funding idx k : Z) : R :=
  let b := bR (length sold) funding in
  rnd (b * rnd (rnd (ln (sumR (termPlain b) 0 sold 0))
                - rnd (ln (sumR (termSell b idx k) 0 sold 0)))).

Definition profitR (sold : list Z) (funding idx k f : Z) : R :=
  rnd (rnd (baseProfitR sold funding idx k * feeDown f) / eps1).

Definition termPaid (b : R) (c f : Z) (s : Z) (_ : nat) : R :=
  rnd (exp (rnd (rnd (IZR s + rnd (IZR c / feeUp f)) / b))).

Definition logArgR (sold : list Z) (funding idx c f : Z) : R :=
  let b := bR (length sold) funding in
  rnd (sumR (termPaid b c f) 0 sold 0 - sumSkipR (termPlain b) idx 0 sold 0).

Definition termShifted (b off : R) (s : Z) (_ : nat) : R :=
  rnd (exp (rnd (rnd (IZR s / b) - off))).

(** The largest entry, as [Decimal.max] finds it. *)
Definition largest (l : list Z) : Z :=
  match l with
  | [] => 0%Z
  | s :: r => fold_left Z.max r s
  end.

Definition priceR (sold : list Z) (funding : Z) (s : Z) : R :=
  let b := bR (length sold) funding in
  let off := rnd (IZR (largest sold) / b) in
  rnd (termShifted b off s 0 / sumR (termShifted b off) 0 sold 0).

End Mirror.

Definition Rsum (l : list R) : R := fold_right Rplus 0%R l.

(** The sum of [term numShares i] over a vector, without rounding. *)
Fixpoint total (term : Z -> nat -> R) (i : nat) (l : list Z) : R :=
  match l with
  | [] => 0%R
  | s :: r => (term s i + total term (S i) r)%R
  end.

(** The round trip through [calcLMSRCost] and [calcLMSROutcomeTokenCount]
    stays within [T] tokens of the count asked for, on every funded market
    and without fee. *)
Definition roundTripWithin (rnd : R -> R) (T : Z) : Prop :=
  forall (sold : list Z) (funding idx k : Z),
    validState sold funding idx = true -> (0 < funding)%Z -> (0 <= k)%Z ->
    exists c n : Z,
      calcLMSRCost rnd sold funding idx k (Some 0%Z) = Ok (ofZ c)
      /\ calcLMSROutcomeTokenCount rnd sold funding idx c (Some 0%Z) = Ok (ofZ n)
      /\ (Z.abs (n - k) <= T)%Z.

(** A decimal that is zero, negative or minus infinity. *)
Definition nonPositive (d : Decimal.t) : Prop :=
  match d with
  | Decimal.Fin x => (x <= 0)%R
  | Decimal.NInf => True
  | _ => False
  end.

(** What a sum of exponentials is once every exponent is divided by a zero
    liquidity parameter: 0, plus infinity or NaN. *)
Definition degenerate (d : Decimal.t) : Prop :=
  d = Fin 0%R \/ d = PInf \/ d = NaN.

(** ** A finite-precision context

    Rounding to [P] significant decimal digits, ties away from zero
    (decimal.js's default mode ROUND_HALF_UP). *)

(** The decimal exponent [e] of a non-zero real: [10^e <= |x| < 10^(e+1)]. *)
Definition magnitude (x : R) : Z := Zfloor (ln (Rabs x) / ln 10).

(** The weight of the last of [P] significant digits of [x]. *)
Definition ulp (P : Z) (x : R) : R := powerRZ 10 (magnitude x - P + 1).

Definition roundHalfUp (P : Z) (x : R) : R :=
  if Req_dec_T x 0 then 0%R
  else ((if Rlt_dec x 0 then -1 else 1)
        * (IZR (Zfloor (Rabs x / ulp P x + / 2)) * ulp P x))%R.

(** Half a unit in the last place, relative to the value. *)
Definition unitRoundoff (P : Z) : R := (powerRZ 10 (1 - P) / 2)%R.

(** ** The contract of a decimal context

    What the rest of the development asks of the rounding [rnd]: it is
    monotone, exact on the integers that fit [precision] digits, and its
    relative error is at most [u]. *)

Record DecimalContext (rnd : R -> R) (precision : Z) (u : R) : Prop := {
  ctx_precision : (1 <= precision)%Z;
  ctx_u : (0 <= u < 1)%R;
  ctx_mono : forall x y : R, (x <= y)%R -> (rnd x <= rnd y)%R;
  ctx_int : forall z : Z, (Z.abs z < 10 ^ precision)%Z -> rnd (IZR z) = IZR z;
  ctx_rel : forall x : R, (Rabs (rnd x - x) <= u * Rabs x)%R
}.

(** The exact context: no rounding at all, the limit of the configured
    precision growing without bound. *)
Definition exact (x : R) : R := x.

(** ** The default gas of the contract abstractions

    The constructor of the [Gnosis] class ([index.js]) gives every contract
    abstraction a default gas computed from the statistics of
    [gas-stats.json].  The amounts of gas are whole numbers well inside the
    range that a JavaScript number holds exactly; the only other number the
    computation meets is the [-Infinity] standing for a missing entry. *)

Module Gnosis.

Inductive number : Type :=
| NegInfinity
| Num (z : Z).

(** [Math.max(...values)], which is [-Infinity] without arguments. *)
Definition mathMax (values : list number) : number :=
  fold_left (fun a b =>
               match a, b with
               | NegInfinity, x | x, NegInfinity => x
               | Num x, Num y => Num (Z.max x y)
               end)
    values NegInfinity.

(** [x | 0]: the conversion to a signed 32-bit integer. *)
Definition toInt32 (x : Z) : Z := ((x + 2 ^ 31) mod 2 ^ 32 - 2 ^ 31)%Z.

(** The statistics of one function: [max] is null or holds [gasUsed]. *)
Record GasUse : Type := { gasUsed : Z }.
Record FnStats : Type := { max : option GasUse }.

(** What the constructor reads of a contract abstraction: its [gasStats],
    undefined for a contract without statistics, one entry per function. *)
Record Contract : Type := {
  gasStats : option (list (String.string * FnStats))
}.

Definition gasLimit : Z := 4000000.
Definition gasDefaultMaxMultiplier : Z := 2.

Definition implementationInterfaceMap (name : String.string)
    : list String.string :=
  if String.eqb name "StandardMarket" then ["Market"%string] else [].

(** [cs[name]] on an object given by its own properties, such as the object
    of all contract abstractions; the names looked up are contract names,
    none of which is a property of [Object.prototype]. *)
Fixpoint lookup {A : Type} (name : String.string)
    (cs : list (String.string * A)) : option A :=
  match cs with
  | [] => None
  | (n, c) :: rest => if String.eqb n name then Some c else lookup name rest
  end.

(** [Object.values(c.gasStats || {}).map((fnStats) =>
      fnStats.max != null ? fnStats.max.gasUsed : -Infinity)] *)
Definition maxima (c : Contract) : list number :=
  map (fun fnStats =>
         match max fnStats with
         | Some m => Num (gasUsed m)
         | None => NegInfinity
         end)
    (match gasStats c with
     | Some stats => map snd stats
     | None => []
     end).

(** [_.flatMap(implementationInterfaceMap[name] || [], (implName) => ...)]:
    reading [gasStats] of a contract that is not there is a TypeError. *)
Fixpoint interfaceMaxima (cs : list (String.string * Contract))
    (implNames : list String.string) : result (list number) :=
  match implNames with
  | [] => Ok []
  | implName :: rest =>
      match lookup implName cs with
      | None => Err TypeError
      | Some ci =>
          more <- interfaceMaxima cs rest ;;
          Ok (maxima ci ++ more)
      end
  end.

Definition maxGasCost (cs : list (String.string * Contract))
    (name : String.string) (c : Contract) : result number :=
  inherited <- interfaceMaxima cs (implementationInterfaceMap name) ;;
  Ok (mathMax (maxima c ++ inherited)).

(** The argument of [c.defaults({ gas: ... })], or nothing when the
    constructor leaves the defaults of [c] alone. *)
Definition gasDefault (cs : list (String.string * Contract))
    (name : String.string) (c : Contract) : result (option Z) :=
  m <- maxGasCost cs name c ;;
  Ok (match m with
      | Num maxGasCost =>
          if (0 <? maxGasCost)%Z
          then Some (Z.min gasLimit
                       (toInt32 (gasDefaultMaxMultiplier * maxGasCost)))
          else None
      | NegInfinity => None
      end).

(** *** Importing contracts

    [importContracts(artifacts, instanceNames)] registers a contract
    abstraction for each artifact, in the order in which [_.forOwn]
    enumerates them, and throws at the first name that is taken; it then
    merges [instanceNames] into the instance's own and awaits one call of
    [trySettingContractInstance] per pair.  The model runs the function up
    to that [await] and returns the arguments of the awaited calls. *)

Inductive exception : Type :=
| TypeErrorThrown
| ErrorThrown (message : String.string).

(** [o[key] = value] *)
Fixpoint setProperty {A : Type} (o : list (String.string * A))
    (key : String.string) (value : A) : list (String.string * A) :=
  match o with
  | [] => [(key, value)]
  | (k, v) :: rest =>
      if String.eqb k key then (k, value) :: rest
      else (k, v) :: setProperty rest key value
  end.

(** [Object.assign(target, source)] *)
Definition objectAssign {A : Type} (target source : list (String.string * A))
    : list (String.string * A) :=
  fold_left (fun o kv => setProperty o (fst kv) (snd kv)) source target.

Section ImportContracts.

Context {Artifact Abstraction Provider Account : Type}.

(** [TruffleContract(artifact)], given its provider by [setProvider] and
    its sender by [defaults({ from: ... })]. *)
Variable truffleContract :
  Artifact -> Provider -> option Account -> Abstraction.

(** What [importContracts] reads and writes of the instance: [web3] holds
    [this.web3.currentProvider] once [this.web3] is set. *)
Record instance : Type := {
  contracts : list (String.string * Abstraction);
  instanceNames : list (String.string * String.string);
  web3 : option Provider;
  defaultAccount : option Account
}.

Definition withContracts (this : instance)
    (cs : list (String.string * Abstraction)) : instance :=
  {| contracts := cs;
     instanceNames := instanceNames this;
     web3 := web3 this;
     defaultAccount := defaultAccount this |}.

(** The loop [_.forOwn(artifacts, (artifact, name) => { ... })], with the
    exception that ended it, if any. *)
Fixpoint register (artifacts : list (String.string * Artifact))
    (this : instance) : instance * option exception :=
  match artifacts with
  | [] => (this, None)
  | (name, artifact) :: rest =>
      match lookup name (contracts this) with
      | Some _ =>
          (this,
           Some (ErrorThrown
                   (String.append "custom contract "
                      (String.append name
                         " already exists in contract set!"))))
      | None =>
          match web3 this with
          | None => (this, Some TypeErrorThrown)
          | Some provider =>
              let contract :=
                truffleContract artifact provider (defaultAccount this) in
              register rest
                (withContracts this
                   (setProperty (contracts this) name contract))
          end
      end
  end.

Definition importContracts (this : instance)
    (artifacts : list (String.string * Artifact))
    (names : list (String.string * String.string))
    : instance * (exception + list (String.string * option Abstraction)) :=
  let (this, thrown) := register artifacts this in
  match thrown with
  | Some e => (this, inl e)
  | None =>
      let this :=
        {| contracts := contracts this;
           instanceNames := objectAssign (instanceNames this) names;
           web3 := web3 this;
           defaultAccount := defaultAccount this |} in
      (this,
       inr (map (fun pair => (snd pair, lookup (fst pair) (contracts this)))
              names))
  end.

End ImportContracts.

End Gnosis.

(** * Properties *)

(** ** Elementary facts about the decimal core *)

Section CoreFacts.

Open Scope R_scope.

Variable rnd : R -> R.

Local Abbreviation Dplus := (Decimal.plus rnd).
Local Abbreviation Dminus := (Decimal.minus rnd).
Local Abbreviation Dtimes := (Decimal.times rnd).
Local Abbreviation Ddiv := (Decimal.dividedBy rnd).
Local Abbreviation Dexp := (Decimal.exp rnd).
Local Abbreviation Dln := (Decimal.ln rnd).

Lemma isZero_false (x : R) : x <> 0 -> Decimal.isZero x = false.
Proof.
  intros Hx. unfold Decimal.isZero. destruct (Req_dec_T x 0); [contradiction | reflexivity].
Qed.

Lemma isZero_true (x : R) : x = 0 -> Decimal.isZero x = true.
Proof.
  intros Hx. unfold Decimal.isZero. destruct (Req_dec_T x 0); [reflexivity | contradiction].
Qed.

Lemma isNegative_false (x : R) : 0 <= x -> Decimal.isNegative x = false.
Proof.
  intros Hx. unfold Decimal.isNegative. destruct (Rlt_dec x 0); [lra | reflexivity].
Qed.

Lemma isNegative_true (x : R) : x < 0 -> Decimal.isNegative x = true.
Proof.
  intros Hx. unfold Decimal.isNegative. destruct (Rlt_dec x 0); [reflexivity | lra].
Qed.

Lemma dividedBy_Fin (a b : R) :
  b <> 0 -> Ddiv (Fin a) (Fin b) = Fin (rnd (a / b)).
Proof.
  intros Hb. unfold Decimal.dividedBy. now rewrite (isZero_false b Hb).
Qed.

Lemma dividedBy_ofZ (z : Z) (b : R) :
  b <> 0 -> Ddiv (ofZ z) (Fin b) = Fin (rnd (IZR z / b)).
Proof. apply dividedBy_Fin. Qed.

Lemma dividedBy_zero (x : R) :
  x <> 0 ->
  Ddiv (Fin x) (Fin 0) = Decimal.signedInf (Decimal.isNegative x).
Proof.
  intros Hx. unfold Decimal.dividedBy.
  now rewrite (isZero_true 0 eq_refl), (isZero_false x Hx).
Qed.

Lemma zero_over_zero : Ddiv (Fin 0) (Fin 0) = NaN.
Proof.
  unfold Decimal.dividedBy. now rewrite (isZero_true 0 eq_refl).
Qed.

Lemma positive_over_zero (x : R) : 0 < x -> Ddiv (Fin x) (Fin 0) = PInf.
Proof.
  intros Hx. rewrite dividedBy_zero by lra.
  now rewrite isNegative_false by lra.
Qed.

Lemma negative_over_zero (x : R) : x < 0 -> Ddiv (Fin x) (Fin 0) = NInf.
Proof.
  intros Hx. rewrite dividedBy_zero by lra.
  now rewrite isNegative_true by lra.
Qed.

Lemma ln_Fin (a : R) : 0 < a -> Dln (Fin a) = Fin (rnd (ln a)).
Proof.
  intros Ha. unfold Decimal.ln.
  rewrite isNegative_false by lra. rewrite isZero_false by lra. reflexivity.
Qed.

Lemma reduce_from_ext {A B : Type} (f g : B -> A -> nat -> B) :
  (forall acc x i, f acc x i = g acc x i) ->
  forall l i acc, reduce_from f i l acc = reduce_from g i l acc.
Proof.
  intros Hfg l. induction l as [| x l IH]; intros i acc; simpl.
  - reflexivity.
  - rewrite Hfg. apply IH.
Qed.

Lemma reduce_from_sumR (term : Z -> nat -> R) :
  forall l i acc,
    reduce_from (fun a s j => Dplus a (Fin (term s j))) i l (Fin acc)
    = Fin (sumR rnd term i l acc).
Proof.
  induction l as [| s l IH]; intros i acc; simpl.
  - reflexivity.
  - apply IH.
Qed.

Lemma reduce_from_sumSkipR (term : Z -> nat -> R) (idx : Z) :
  forall l i acc,
    reduce_from
      (fun a s j => if (Z.of_nat j =? idx)%Z then a else Dplus a (Fin (term s j)))
      i l (Fin acc)
    = Fin (sumSkipR rnd term idx i l acc).
Proof.
  induction l as [| s l IH]; intros i acc; simpl.
  - reflexivity.
  - destruct (Z.of_nat i =? idx)%Z; apply IH.
Qed.

(** A [reduce] that ignores its index is a left fold over the mapped list. *)
Lemma reduce_from_fold (g : Z -> Decimal.t) :
  forall l i acc,
    reduce_from (fun a s (_ : nat) => Dplus a (g s)) i l acc
    = fold_left Dplus (map g l) acc.
Proof.
  induction l as [| s l IH]; intros i acc; simpl.
  - reflexivity.
  - apply IH.
Qed.

End CoreFacts.

(** ** Facts of real analysis *)

Section RealFacts.

Open Scope R_scope.

Lemma Rabs_le_between (a c : R) : Rabs a <= c -> - c <= a <= c.
Proof. unfold Rabs. destruct (Rcase_abs a); lra. Qed.

Lemma ln_le_mono (x y : R) : 0 < x -> x <= y -> ln x <= ln y.
Proof.
  intros Hx [Hlt | ->]; [| lra]. left. now apply ln_increasing.
Qed.

Lemma exp_le_mono (x y : R) : x <= y -> exp x <= exp y.
Proof.
  intros [Hlt | ->]; [| lra]. left. now apply exp_increasing.
Qed.

Lemma Zceil_nonneg (x : R) : 0 <= x -> (0 <= Zceil x)%Z.
Proof.
  intros Hx. pose proof (Zceil_bound x) as [_ H].
  apply le_IZR. lra.
Qed.

Lemma Zfloor_nonneg (x : R) : 0 <= x -> (0 <= Zfloor x)%Z.
Proof. intros Hx. now apply (Zfloor_lub 0). Qed.

Lemma ln_le_minus_1 (x : R) : 0 < x -> ln x <= x - 1.
Proof.
  intros Hx. pose proof (exp_ineq1_le (ln x)) as H.
  rewrite exp_ln in H by assumption. lra.
Qed.

Lemma ln_2_bounds : / 2 < ln 2 < 1.
Proof.
  split; [apply ln_lt_2 |].
  rewrite <- (ln_exp 1). apply ln_increasing; [lra |].
  pose proof (exp_ineq1 1 ltac:(lra)). lra.
Qed.

Lemma ln_3_bound : ln 3 <= 3 / 2 * ln 2 + / 16.
Proof.
  assert (H9 : ln 9 = ln 3 + ln 3).
  { rewrite <- ln_mult by lra. f_equal; lra. }
  assert (H8 : ln 8 = ln 2 + (ln 2 + ln 2)).
  { rewrite <- !ln_mult by lra. f_equal; lra. }
  assert (H98 : ln 9 = ln 8 + ln (9 / 8)).
  { rewrite <- ln_mult by lra. f_equal; lra. }
  pose proof (ln_le_minus_1 (9 / 8) ltac:(lra)). lra.
Qed.

Lemma ln_ge_1_minus_inv (x : R) : 0 < x -> 1 - / x <= ln x.
Proof.
  intros Hx. pose proof (ln_le_minus_1 (/ x) (Rinv_0_lt_compat _ Hx)) as H.
  rewrite ln_Rinv in H by assumption. lra.
Qed.

(** A small change [d] of the argument changes [exp] by a factor close to 1. *)
Lemma exp_near (x d e : R) :
  Rabs d <= e -> e <= / 2 ->
  (1 - e) * exp x <= exp (x + d) <= (1 + 2 * e) * exp x.
Proof.
  intros Hd He. apply Rabs_le_between in Hd.
  rewrite exp_plus. pose proof (exp_pos x) as Hx.
  pose proof (exp_pos d) as HE.
  pose proof (exp_ineq1_le d) as Hlow.
  pose proof (exp_ineq1_le (- d)) as Hinv.
  assert (HEE : exp d * exp (- d) = 1).
  { rewrite <- exp_plus, Rplus_opp_r. apply exp_0. }
  assert (Hup : exp d <= 1 + 2 * e).
  { assert (H1 : exp d * (1 - e) <= 1).
    { rewrite <- HEE. apply Rmult_le_compat_l; lra. }
    apply (Rmult_le_reg_r (1 - e)); [lra |].
    assert (0 <= e * (1 - 2 * e)) by (apply Rmult_le_pos; lra).
    lra. }
  split.
  - rewrite (Rmult_comm (exp x)). apply Rmult_le_compat_r; lra.
  - rewrite (Rmult_comm (exp x)). apply Rmult_le_compat_r; lra.
Qed.

Lemma ln_quotient (x y : R) : 0 < x -> 0 < y -> ln (x / y) = ln x - ln y.
Proof.
  intros Hx Hy. unfold Rdiv.
  rewrite ln_mult, ln_Rinv by (assumption || now apply Rinv_0_lt_compat).
  lra.
Qed.

End RealFacts.

(** ** Validity of the arguments, as propositions *)

Lemma validState_spec (sold : list Z) (funding idx : Z) :
  validState sold funding idx = true <->
  (2 <= length sold)%nat /\ (0 <= funding)%Z /\ (0 <= idx < Z.of_nat (length sold))%Z.
Proof.
  unfold validState. rewrite !andb_true_iff, !Z.leb_le, Z.ltb_lt. lia.
Qed.

Lemma validFee_spec (f : Z) : validFee f = true <-> (0 <= f < 1000000)%Z.
Proof.
  unfold validFee. rewrite andb_true_iff, Z.leb_le, Z.ltb_lt. lia.
Qed.

Lemma validAmount_spec (a : Z) : validAmount a = true <-> (0 <= a)%Z.
Proof. unfold validAmount. apply Z.leb_le. Qed.

Lemma normalizeWeb3Args_valid (sold : list Z) (funding idx amount f : Z) :
  validState sold funding idx = true -> (0 <= amount)%Z -> validFee f = true ->
  normalizeWeb3Args sold funding idx amount (Some f)
  = Ok (sold, funding, idx, amount, f).
Proof.
  intros Hs Ha Hf. unfold normalizeWeb3Args.
  rewrite Hs, Hf, (proj2 (validAmount_spec amount) Ha). reflexivity.
Qed.

(** ** Cost: the code computes the spec's formula *)

Section CostFormula.

Open Scope R_scope.

Variable rnd : R -> R.
Variable precision : Z.

(** Integers that fit the configured precision are represented exactly. *)
Hypothesis rnd_int :
  forall z : Z, (Z.abs z < 10 ^ precision)%Z -> rnd (IZR z) = IZR z.

Local Abbreviation Dplus := (Decimal.plus rnd).
Local Abbreviation Ddiv := (Decimal.dividedBy rnd).
Local Abbreviation Dexp := (Decimal.exp rnd).

Lemma plus_ofZ (a c : Z) :
  (Z.abs (a + c) < 10 ^ precision)%Z -> Dplus (ofZ a) (ofZ c) = ofZ (a + c).
Proof.
  intros H. unfold Decimal.plus, Decimal.ofZ.
  rewrite <- plus_IZR. now rewrite rnd_int.
Qed.

Lemma reduce_buy (b : Decimal.t) (idx : nat) (k : Z) :
  (0 <= k)%Z ->
  forall l i acc,
    Forall (fun s => (Z.abs s + k < 10 ^ precision)%Z) l ->
    reduce_from
      (fun a s j =>
         Dplus a (Dexp (Ddiv (Dplus (ofZ s)
                                (if (Z.of_nat j =? Z.of_nat idx)%Z then ofZ k else ofZ 0))
                             b)))
      i l acc
    = fold_left Dplus
        (map Dexp (scaledBy rnd b (if (i <=? idx)%nat then addAt l (idx - i) k else l)))
        acc.
Proof.
  intros Hk l. induction l as [| s l IH]; intros i acc Hl.
  - simpl. destruct (i <=? idx)%nat; reflexivity.
  - inversion Hl as [| ? ? Hs Hl']; subst. cbn [reduce_from].
    rewrite (IH (S i) _ Hl'). clear IH.
    destruct (Nat.leb_spec i idx) as [Hle | Hgt].
    + destruct (Nat.eq_dec i idx) as [-> | Hne].
      * rewrite Z.eqb_refl, Nat.sub_diag.
        destruct (Nat.leb_spec (S idx) idx) as [Habs | _]; [lia |].
        cbn [addAt scaledBy map fold_left]. rewrite plus_ofZ by lia. reflexivity.
      * destruct (Z.eqb_spec (Z.of_nat i) (Z.of_nat idx)) as [Heq | _]; [lia |].
        destruct (Nat.leb_spec (S i) idx) as [_ | Habs]; [| lia].
        replace (idx - i)%nat with (S (idx - S i)) by lia.
        cbn [addAt scaledBy map fold_left].
        rewrite plus_ofZ by lia. now rewrite Z.add_0_r.
    + destruct (Z.eqb_spec (Z.of_nat i) (Z.of_nat idx)) as [Heq | _]; [lia |].
      destruct (Nat.leb_spec (S i) idx) as [Habs | _]; [lia |].
      cbn [scaledBy map fold_left].
      rewrite plus_ofZ by lia. now rewrite Z.add_0_r.
Qed.

(** C1. On a funded market, for a vector of at least two outcomes, an index
    in range, a count [k >= 0] and a fee factor in [0, 1e6), [calcLMSRCost]
    returns the spec's
    [ceil (b × (ln Σ exp (sold'/b) − ln Σ exp (sold/b)) × (1 + f/1e6) × (1 + 1e-9))]
    with [b = funding / ln n], every operation taken in the same decimal
    context, provided the integers involved fit its precision. *)
Theorem calcLMSRCost_is_costFormula (sold : list Z) (funding idx k f : Z) :
  validState sold funding idx = true ->
  (0 < funding)%Z -> (0 <= k)%Z -> validFee f = true ->
  Forall (fun s => (Z.abs s + k < 10 ^ precision)%Z) sold ->
  calcLMSRCost rnd sold funding idx k (Some f)
  = Ok (costFormula rnd sold funding (Z.to_nat idx) k f).
Proof.
  intros Hvalid Hfund Hk Hfee Hfit.
  pose proof (proj1 (validState_spec _ _ _) Hvalid) as (_ & _ & Hidx).
  assert (Hnat : idx = Z.of_nat (Z.to_nat idx)) by lia.
  set (n := Z.to_nat idx) in *. clearbody n. subst idx.
  unfold calcLMSRCost.
  rewrite (normalizeWeb3Args_valid _ _ _ _ _ Hvalid Hk Hfee). cbn [bind].
  destruct (Z.eqb_spec funding 0) as [-> | _]; [lia |].
  unfold costFormula, logSumExp, liquidityParameter, reduce.
  rewrite (reduce_buy _ n k Hk sold 0 _ Hfit).
  rewrite (reduce_from_fold rnd
             (fun s => Dexp (Ddiv (ofZ s)
                (Ddiv (ofZ funding) (Decimal.ln rnd (ofZ (Z.of_nat (length sold)))))))).
  cbn [Nat.leb]. rewrite Nat.sub_0_r.
  unfold scaledBy. rewrite !map_map. reflexivity.
Qed.

End CostFormula.

(** ** The exact and the finite-precision contexts satisfy the contract *)

Lemma exact_context (precision : Z) :
  (1 <= precision)%Z -> DecimalContext exact precision 0.
Proof.
  intros Hp. constructor; unfold exact.
  - exact Hp.
  - lra.
  - intros x y H; exact H.
  - reflexivity.
  - intros x. rewrite Rminus_diag, Rabs_R0. lra.
Qed.

Section Contract.

Open Scope R_scope.

Variable rnd : R -> R.
Variable precision : Z.
Variable u : R.
Hypothesis ctx : DecimalContext rnd precision u.

Local Abbreviation Dplus := (Decimal.plus rnd).
Local Abbreviation Dminus := (Decimal.minus rnd).
Local Abbreviation Dtimes := (Decimal.times rnd).
Local Abbreviation Ddiv := (Decimal.dividedBy rnd).
Local Abbreviation Dexp := (Decimal.exp rnd).
Local Abbreviation Dln := (Decimal.ln rnd).

Lemma rnd_mono (x y : R) : x <= y -> rnd x <= rnd y.
Proof. apply (ctx_mono _ _ _ ctx). Qed.

Lemma rnd_lower (x : R) : 0 <= x -> (1 - u) * x <= rnd x.
Proof.
  intros Hx. pose proof (ctx_rel _ _ _ ctx x) as H.
  rewrite (Rabs_pos_eq x Hx) in H.
  apply Rabs_le_between in H. lra.
Qed.

Lemma rnd_upper (x : R) : 0 <= x -> rnd x <= (1 + u) * x.
Proof.
  intros Hx. pose proof (ctx_rel _ _ _ ctx x) as H.
  rewrite (Rabs_pos_eq x Hx) in H.
  apply Rabs_le_between in H. lra.
Qed.

Lemma rnd_0 : rnd 0 = 0.
Proof.
  pose proof (ctx_rel _ _ _ ctx 0) as H.
  rewrite Rabs_R0, Rmult_0_r, Rminus_0_r in H.
  pose proof (Rabs_pos (rnd 0)).
  destruct (Req_dec (rnd 0) 0) as [E | E]; [exact E |].
  apply Rabs_pos_lt in E. lra.
Qed.

Lemma rnd_pos (x : R) : 0 < x -> 0 < rnd x.
Proof.
  intros Hx. pose proof (rnd_lower x (Rlt_le _ _ Hx)) as H.
  pose proof (ctx_u _ _ _ ctx) as Hu.
  assert (0 < (1 - u) * x) by (apply Rmult_lt_0_compat; lra). lra.
Qed.

Lemma rnd_nonneg (x : R) : 0 <= x -> 0 <= rnd x.
Proof. intros Hx. rewrite <- rnd_0. now apply rnd_mono. Qed.

Lemma rnd_Z (z : Z) : (Z.abs z < 10 ^ precision)%Z -> rnd (IZR z) = IZR z.
Proof. apply (ctx_int _ _ _ ctx). Qed.

Lemma rnd_1 : rnd 1 = 1.
Proof.
  apply (rnd_Z 1). pose proof (ctx_precision _ _ _ ctx) as Hp.
  change (Z.abs 1) with (10 ^ 0)%Z. apply Z.pow_lt_mono_r; lia.
Qed.

Lemma eps1_bounds : 1 < eps1 < 2.
Proof. unfold eps1. lra. Qed.

(** *** Evaluation of the liquidity parameter and of the sums *)

Lemma ln_nat_pos (n : nat) : (2 <= n)%nat -> 0 < ln (IZR (Z.of_nat n)).
Proof.
  intros Hn. rewrite <- ln_1. apply ln_increasing; [lra |].
  apply IZR_lt. lia.
Qed.

Lemma bR_pos (n : nat) (funding : Z) :
  (2 <= n)%nat -> (0 < funding)%Z -> 0 < bR rnd n funding.
Proof.
  intros Hn Hf. unfold bR. apply rnd_pos.
  apply Rdiv_lt_0_compat; [now apply IZR_lt |].
  apply rnd_pos. now apply ln_nat_pos.
Qed.

Lemma liquidityParameter_Fin (sold : list Z) (funding : Z) :
  (2 <= length sold)%nat ->
  liquidityParameter rnd sold funding = Fin (bR rnd (length sold) funding).
Proof.
  intros Hn. unfold liquidityParameter, bR, Decimal.ofZ.
  assert (0 < IZR (Z.of_nat (length sold))) by (apply IZR_lt; lia).
  rewrite ln_Fin by assumption.
  rewrite dividedBy_Fin; [reflexivity |].
  pose proof (rnd_pos _ (ln_nat_pos _ Hn)). lra.
Qed.

Lemma sumR_pos (term : Z -> nat -> R) :
  (forall s i, 0 < term s i) ->
  forall l i acc, 0 <= acc -> l <> [] -> 0 < sumR rnd term i l acc.
Proof.
  intros Hterm l. induction l as [| s l IH]; intros i acc Hacc Hl; [congruence |].
  cbn [sumR]. assert (Hstep : 0 < rnd (acc + term s i)).
  { apply rnd_pos. specialize (Hterm s i). lra. }
  destruct l as [| s' l']; [exact Hstep |].
  apply IH; [lra | discriminate].
Qed.

Lemma sumR_mono (t1 t2 : Z -> nat -> R) :
  forall l i a1 a2,
    (forall s j, In s l -> t1 s j <= t2 s j) -> a1 <= a2 ->
    sumR rnd t1 i l a1 <= sumR rnd t2 i l a2.
Proof.
  induction l as [| s l IH]; intros i a1 a2 Ht Ha; cbn [sumR].
  - exact Ha.
  - apply IH.
    + intros s' j Hin. apply Ht. now right.
    + apply rnd_mono. specialize (Ht s i (or_introl eq_refl)). lra.
Qed.

Lemma sumR_ext (t1 t2 : Z -> nat -> R) :
  forall l i a,
    (forall s j, In s l -> t1 s j = t2 s j) ->
    sumR rnd t1 i l a = sumR rnd t2 i l a.
Proof.
  induction l as [| s l IH]; intros i a Ht; cbn [sumR].
  - reflexivity.
  - rewrite (Ht s i (or_introl eq_refl)). apply IH.
    intros s' j Hin. apply Ht. now right.
Qed.

Lemma termPlain_pos (b : R) (s : Z) (i : nat) : 0 < termPlain rnd b s i.
Proof. unfold termPlain. apply rnd_pos, exp_pos. Qed.

Lemma termBuy_pos (b : R) (idx k s : Z) (i : nat) : 0 < termBuy rnd b idx k s i.
Proof. unfold termBuy. apply rnd_pos, exp_pos. Qed.

Lemma termSell_pos (b : R) (idx k s : Z) (i : nat) : 0 < termSell rnd b idx k s i.
Proof. unfold termSell. apply rnd_pos, exp_pos. Qed.

Lemma feeUp_ge_1 (f : Z) : (0 <= f)%Z -> 1 <= feeUp rnd f.
Proof.
  intros Hf. unfold feeUp. rewrite <- rnd_1 at 1. apply rnd_mono.
  assert (0 <= rnd (IZR f / IZR 1000000)).
  { apply rnd_nonneg. apply IZR_le in Hf. lra. }
  lra.
Qed.

Lemma feeUp_mono (f g : Z) : (f <= g)%Z -> feeUp rnd f <= feeUp rnd g.
Proof.
  intros Hfg. unfold feeUp. apply rnd_mono.
  apply Rplus_le_compat_l, rnd_mono.
  apply IZR_le in Hfg. lra.
Qed.

Lemma feeDown_nonneg (f : Z) : (f < 1000000)%Z -> 0 <= feeDown rnd f.
Proof.
  intros Hf. unfold feeDown. apply rnd_nonneg.
  assert (rnd (IZR f / IZR 1000000) <= 1).
  { rewrite <- rnd_1. apply rnd_mono.
    apply IZR_lt in Hf. lra. }
  lra.
Qed.

Lemma feeDown_mono (f g : Z) : (f <= g)%Z -> feeDown rnd g <= feeDown rnd f.
Proof.
  intros Hfg. unfold feeDown. apply rnd_mono.
  apply Rplus_le_compat_l, Ropp_le_contravar, rnd_mono.
  apply IZR_le in Hfg. lra.
Qed.

(** *** The four operations on a valid input, as reals *)

Lemma million_neq_0 : IZR 1000000 <> 0.
Proof. lra. Qed.

Lemma feeUp_Fin (f : Z) :
  Dplus (ofZ 1) (Ddiv (ofZ f) (ofZ 1000000)) = Fin (feeUp rnd f).
Proof.
  unfold Decimal.ofZ. rewrite dividedBy_Fin by apply million_neq_0. reflexivity.
Qed.

Lemma feeDown_Fin (f : Z) :
  Dminus (ofZ 1) (Ddiv (ofZ f) (ofZ 1000000)) = Fin (feeDown rnd f).
Proof.
  unfold Decimal.ofZ. rewrite dividedBy_Fin by apply million_neq_0. reflexivity.
Qed.

Lemma reduce_plain (b : R) (sold : list Z) :
  b <> 0 ->
  reduce (fun acc numShares (_ : nat) =>
            Dplus acc (Dexp (Ddiv (ofZ numShares) (Fin b)))) sold (ofZ 0)
  = Fin (sumR rnd (termPlain rnd b) 0 sold 0).
Proof.
  intros Hb. unfold reduce.
  rewrite (reduce_from_ext _ (fun a s j => Dplus a (Fin (termPlain rnd b s j)))).
  - apply reduce_from_sumR.
  - intros acc s i. unfold Decimal.ofZ. now rewrite dividedBy_Fin.
Qed.

Lemma reduce_buy_Fin (b : R) (idx k : Z) (sold : list Z) :
  b <> 0 ->
  reduce (fun acc numShares i =>
            Dplus acc
              (Dexp (Ddiv (Dplus (ofZ numShares)
                             (if (Z.of_nat i =? idx)%Z then ofZ k else ofZ 0))
                          (Fin b)))) sold (ofZ 0)
  = Fin (sumR rnd (termBuy rnd b idx k) 0 sold 0).
Proof.
  intros Hb. unfold reduce.
  rewrite (reduce_from_ext _ (fun a s j => Dplus a (Fin (termBuy rnd b idx k s j)))).
  - apply reduce_from_sumR.
  - intros acc s i. unfold termBuy, selected, Decimal.ofZ.
    destruct (Z.of_nat i =? idx)%Z; cbn [Decimal.plus];
      now rewrite dividedBy_Fin.
Qed.

Lemma reduce_sell_Fin (b : R) (idx k : Z) (sold : list Z) :
  b <> 0 ->
  reduce (fun acc numShares i =>
            Dplus acc
              (Dexp (Ddiv (Dminus (ofZ numShares)
                             (if (Z.of_nat i =? idx)%Z then ofZ k else ofZ 0))
                          (Fin b)))) sold (ofZ 0)
  = Fin (sumR rnd (termSell rnd b idx k) 0 sold 0).
Proof.
  intros Hb. unfold reduce.
  rewrite (reduce_from_ext _ (fun a s j => Dplus a (Fin (termSell rnd b idx k s j)))).
  - apply reduce_from_sumR.
  - intros acc s i. unfold termSell, selected, Decimal.ofZ.
    destruct (Z.of_nat i =? idx)%Z; cbn [Decimal.minus];
      now rewrite dividedBy_Fin.
Qed.

Lemma nonempty_of_length (sold : list Z) : (2 <= length sold)%nat -> sold <> [].
Proof. destruct sold; simpl; [lia | discriminate]. Qed.

Lemma calcLMSRCost_eval (sold : list Z) (funding idx k f : Z) :
  validState sold funding idx = true -> (0 <= k)%Z -> validFee f = true ->
  calcLMSRCost rnd sold funding idx k (Some f)
  = Ok (Fin (IZR (Zceil (costR rnd sold funding idx k f)))).
Proof.
  intros Hvalid Hk Hfee.
  pose proof (proj1 (validState_spec _ _ _) Hvalid) as (Hn & Hfund & Hidx).
  unfold calcLMSRCost.
  rewrite (normalizeWeb3Args_valid _ _ _ _ _ Hvalid Hk Hfee). cbn [bind].
  rewrite feeUp_Fin. unfold costR.
  destruct (Z.eqb_spec funding 0) as [-> | Hne].
  - reflexivity.
  - assert (Hb : 0 < bR rnd (length sold) funding) by (apply bR_pos; lia).
    rewrite (liquidityParameter_Fin _ _ Hn).
    rewrite reduce_buy_Fin, reduce_plain by lra.
    rewrite !ln_Fin.
    + reflexivity.
    + apply sumR_pos; [apply termPlain_pos | lra | now apply nonempty_of_length].
    + apply sumR_pos; [apply termBuy_pos | lra | now apply nonempty_of_length].
Qed.

Lemma eps1_neq_0 : eps1 <> 0.
Proof. pose proof eps1_bounds. lra. Qed.

Lemma calcLMSRProfit_eval (sold : list Z) (funding idx k f : Z) :
  validState sold funding idx = true -> (0 < funding)%Z -> (0 <= k)%Z ->
  validFee f = true ->
  calcLMSRProfit rnd sold funding idx k (Some f)
  = Ok (Fin (IZR (Zfloor (profitR rnd sold funding idx k f)))).
Proof.
  intros Hvalid Hfund Hk Hfee.
  pose proof (proj1 (validState_spec _ _ _) Hvalid) as (Hn & _ & Hidx).
  unfold calcLMSRProfit.
  rewrite (normalizeWeb3Args_valid _ _ _ _ _ Hvalid Hk Hfee). cbn [bind].
  destruct (Z.eqb_spec funding 0) as [-> | _]; [lia |].
  assert (Hb : 0 < bR rnd (length sold) funding) by (apply bR_pos; lia).
  rewrite feeDown_Fin, (liquidityParameter_Fin _ _ Hn).
  rewrite reduce_sell_Fin, reduce_plain by lra.
  rewrite !ln_Fin.
  - unfold Decimal.onePlusEps. cbn [Decimal.minus Decimal.times].
    rewrite dividedBy_Fin by apply eps1_neq_0. reflexivity.
  - apply sumR_pos; [apply termSell_pos | lra | now apply nonempty_of_length].
  - apply sumR_pos; [apply termPlain_pos | lra | now apply nonempty_of_length].
Qed.

(** *** Signs and monotonicity of cost and profit *)

Lemma selected_bounds (idx k : Z) (i : nat) :
  (0 <= k)%Z -> (0 <= selected idx i k <= k)%Z.
Proof. intros Hk. unfold selected. destruct (Z.of_nat i =? idx)%Z; lia. Qed.

Lemma termPlain_le_termBuy (b : R) (idx k s : Z) (i : nat) :
  0 < b -> (0 <= k)%Z -> (Z.abs s + k < 10 ^ precision)%Z ->
  termPlain rnd b s i <= termBuy rnd b idx k s i.
Proof.
  intros Hb Hk Hfit. unfold termPlain, termBuy.
  pose proof (selected_bounds idx k i Hk) as Hsel.
  rewrite <- plus_IZR, rnd_Z by lia.
  apply rnd_mono, exp_le_mono, rnd_mono.
  apply Rmult_le_compat_r; [left; now apply Rinv_0_lt_compat |].
  apply IZR_le. lia.
Qed.

Lemma termSell_le_termPlain (b : R) (idx k s : Z) (i : nat) :
  0 < b -> (0 <= k)%Z -> (Z.abs s + k < 10 ^ precision)%Z ->
  termSell rnd b idx k s i <= termPlain rnd b s i.
Proof.
  intros Hb Hk Hfit. unfold termPlain, termSell.
  pose proof (selected_bounds idx k i Hk) as Hsel.
  rewrite <- minus_IZR, rnd_Z by lia.
  apply rnd_mono, exp_le_mono, rnd_mono.
  apply Rmult_le_compat_r; [left; now apply Rinv_0_lt_compat |].
  apply IZR_le. lia.
Qed.

Lemma termSell_0 (b : R) (idx s : Z) (i : nat) :
  (Z.abs s < 10 ^ precision)%Z ->
  termSell rnd b idx 0 s i = termPlain rnd b s i.
Proof.
  intros Hfit. unfold termPlain, termSell, selected.
  replace (if (Z.of_nat i =? idx)%Z then 0%Z else 0%Z) with 0%Z
    by (now destruct (Z.of_nat i =? idx)%Z).
  rewrite Rminus_0_r, rnd_Z by lia. reflexivity.
Qed.

Lemma baseCostR_nonneg (sold : list Z) (funding idx k : Z) :
  (2 <= length sold)%nat -> (0 < funding)%Z -> (0 <= k)%Z ->
  Forall (fun s => (Z.abs s + k < 10 ^ precision)%Z) sold ->
  0 <= baseCostR rnd sold funding idx k.
Proof.
  intros Hn Hfund Hk Hfit. unfold baseCostR.
  pose proof (bR_pos _ _ Hn Hfund) as Hb.
  set (b := bR rnd (length sold) funding) in *.
  apply rnd_nonneg, Rmult_le_pos; [lra |].
  apply rnd_nonneg.
  assert (rnd (ln (sumR rnd (termPlain rnd b) 0 sold 0))
          <= rnd (ln (sumR rnd (termBuy rnd b idx k) 0 sold 0))); [| lra].
  apply rnd_mono, ln_le_mono.
  - apply sumR_pos; [apply termPlain_pos | lra | now apply nonempty_of_length].
  - apply sumR_mono; [| lra].
    intros s j Hin. apply termPlain_le_termBuy; try assumption.
    rewrite Forall_forall in Hfit. now apply Hfit.
Qed.

Lemma baseProfitR_nonneg (sold : list Z) (funding idx k : Z) :
  (2 <= length sold)%nat -> (0 < funding)%Z -> (0 <= k)%Z ->
  Forall (fun s => (Z.abs s + k < 10 ^ precision)%Z) sold ->
  0 <= baseProfitR rnd sold funding idx k.
Proof.
  intros Hn Hfund Hk Hfit. unfold baseProfitR.
  pose proof (bR_pos _ _ Hn Hfund) as Hb.
  set (b := bR rnd (length sold) funding) in *.
  apply rnd_nonneg, Rmult_le_pos; [lra |].
  apply rnd_nonneg.
  assert (rnd (ln (sumR rnd (termSell rnd b idx k) 0 sold 0))
          <= rnd (ln (sumR rnd (termPlain rnd b) 0 sold 0))); [| lra].
  apply rnd_mono, ln_le_mono.
  - apply sumR_pos; [apply termSell_pos | lra | now apply nonempty_of_length].
  - apply sumR_mono; [| lra].
    intros s j Hin. apply termSell_le_termPlain; try assumption.
    rewrite Forall_forall in Hfit. now apply Hfit.
Qed.

Lemma baseProfitR_0 (sold : list Z) (funding idx : Z) :
  Forall (fun s => (Z.abs s + 0 < 10 ^ precision)%Z) sold ->
  baseProfitR rnd sold funding idx 0 = 0.
Proof.
  intros Hfit. unfold baseProfitR.
  set (b := bR rnd (length sold) funding).
  rewrite (sumR_ext (termSell rnd b idx 0) (termPlain rnd b)).
  - rewrite Rminus_diag, rnd_0, Rmult_0_r. apply rnd_0.
  - intros s j Hin. apply termSell_0.
    rewrite Forall_forall in Hfit. specialize (Hfit s Hin). lia.
Qed.

(** The value multiplied by the fee: the token count on an unfunded market,
    the LMSR difference otherwise. *)
Lemma costBase_nonneg (sold : list Z) (funding idx k : Z) :
  (2 <= length sold)%nat -> (0 <= funding)%Z -> (0 <= k)%Z ->
  Forall (fun s => (Z.abs s + k < 10 ^ precision)%Z) sold ->
  0 <= (if (funding =? 0)%Z then IZR k else baseCostR rnd sold funding idx k).
Proof.
  intros Hn Hfund Hk Hfit.
  destruct (Z.eqb_spec funding 0) as [_ | Hne].
  - now apply IZR_le.
  - apply baseCostR_nonneg; try assumption. lia.
Qed.

Lemma costR_nonneg (sold : list Z) (funding idx k f : Z) :
  (2 <= length sold)%nat -> (0 <= funding)%Z -> (0 <= k)%Z -> (0 <= f)%Z ->
  Forall (fun s => (Z.abs s + k < 10 ^ precision)%Z) sold ->
  0 <= costR rnd sold funding idx k f.
Proof.
  intros Hn Hfund Hk Hf Hfit. unfold costR.
  pose proof (costBase_nonneg sold funding idx k Hn Hfund Hk Hfit) as Hbase.
  pose proof (feeUp_ge_1 f Hf) as Hfee. pose proof eps1_bounds as Heps.
  apply rnd_nonneg, Rmult_le_pos; [| lra].
  apply rnd_nonneg, Rmult_le_pos; lra.
Qed.

Lemma costR_fee_mono (sold : list Z) (funding idx k f g : Z) :
  (2 <= length sold)%nat -> (0 <= funding)%Z -> (0 <= k)%Z -> (f <= g)%Z ->
  Forall (fun s => (Z.abs s + k < 10 ^ precision)%Z) sold ->
  costR rnd sold funding idx k f <= costR rnd sold funding idx k g.
Proof.
  intros Hn Hfund Hk Hfg Hfit. unfold costR.
  pose proof (costBase_nonneg sold funding idx k Hn Hfund Hk Hfit) as Hbase.
  pose proof (feeUp_mono f g Hfg) as Hfee. pose proof eps1_bounds as Heps.
  apply rnd_mono, Rmult_le_compat_r; [lra |].
  apply rnd_mono, Rmult_le_compat_l; assumption.
Qed.

Lemma profitR_nonneg (sold : list Z) (funding idx k f : Z) :
  (2 <= length sold)%nat -> (0 < funding)%Z -> (0 <= k)%Z -> (f < 1000000)%Z ->
  Forall (fun s => (Z.abs s + k < 10 ^ precision)%Z) sold ->
  0 <= profitR rnd sold funding idx k f.
Proof.
  intros Hn Hfund Hk Hf Hfit. unfold profitR.
  pose proof (baseProfitR_nonneg sold funding idx k Hn Hfund Hk Hfit) as Hbase.
  pose proof (feeDown_nonneg f Hf) as Hfee. pose proof eps1_bounds as Heps.
  apply rnd_nonneg, Rmult_le_pos; [| left; apply Rinv_0_lt_compat; lra].
  apply rnd_nonneg, Rmult_le_pos; lra.
Qed.

Lemma profitR_fee_mono (sold : list Z) (funding idx k f g : Z) :
  (2 <= length sold)%nat -> (0 < funding)%Z -> (0 <= k)%Z -> (f <= g)%Z ->
  Forall (fun s => (Z.abs s + k < 10 ^ precision)%Z) sold ->
  profitR rnd sold funding idx k g <= profitR rnd sold funding idx k f.
Proof.
  intros Hn Hfund Hk Hfg Hfit. unfold profitR.
  pose proof (baseProfitR_nonneg sold funding idx k Hn Hfund Hk Hfit) as Hbase.
  pose proof (feeDown_mono f g Hfg) as Hfee. pose proof eps1_bounds as Heps.
  apply rnd_mono, Rmult_le_compat_r; [left; apply Rinv_0_lt_compat; lra |].
  apply rnd_mono, Rmult_le_compat_l; assumption.
Qed.

Lemma profitR_0 (sold : list Z) (funding idx f : Z) :
  Forall (fun s => (Z.abs s + 0 < 10 ^ precision)%Z) sold ->
  profitR rnd sold funding idx 0 f = 0.
Proof.
  intros Hfit. unfold profitR. rewrite (baseProfitR_0 _ _ _ Hfit).
  rewrite Rmult_0_l, rnd_0. unfold Rdiv. rewrite Rmult_0_l. apply rnd_0.
Qed.

(** *** Claims about cost and profit *)




Lemma feeUp_0 : feeUp rnd 0 = 1.
Proof.
  unfold feeUp. replace (IZR 0 / IZR 1000000) with 0 by lra.
  rewrite rnd_0, Rplus_0_r. apply rnd_1.
Qed.

Lemma costR_unfunded_no_fee (sold : list Z) (idx k : Z) :
  (Z.abs k < 10 ^ precision)%Z ->
  costR rnd sold 0 idx k 0 = rnd (IZR k * eps1).
Proof.
  intros Hfit. unfold costR. cbn [Z.eqb].
  now rewrite feeUp_0, Rmult_1_r, rnd_Z.
Qed.

Lemma unfunded_cost_above (k : Z) :
  (1 <= k)%Z -> u * IZR 1000000001 < 1 -> IZR k < rnd (IZR k * eps1).
Proof.
  intros Hk Hu. apply IZR_le in Hk.
  pose proof eps1_bounds as Heps.
  assert (Hx : 0 <= IZR k * eps1) by (apply Rmult_le_pos; lra).
  pose proof (rnd_lower _ Hx) as Hlow.
  assert (1 < (1 - u) * eps1) by (unfold eps1; lra).
  assert (IZR k * 1 < IZR k * ((1 - u) * eps1))
    by (apply Rmult_lt_compat_l; lra).
  lra.
Qed.

Lemma unfunded_cost_below (k : Z) :
  (0 <= k <= 10 ^ 9)%Z -> (k + 1 < 10 ^ precision)%Z ->
  rnd (IZR k * eps1) <= IZR (k + 1).
Proof.
  intros [Hk0 Hk] Hfit. rewrite <- (rnd_Z (k + 1)) by lia.
  apply rnd_mono. rewrite plus_IZR. unfold eps1.
  apply IZR_le in Hk0, Hk. change (10 ^ 9)%Z with 1000000000%Z in Hk. lra.
Qed.

Lemma calcLMSRCost_unfunded_small (sold : list Z) (idx k : Z) :
  validState sold 0 idx = true ->
  (1 <= k <= 10 ^ 9)%Z -> (k + 1 < 10 ^ precision)%Z ->
  u * IZR 1000000001 < 1 ->
  calcLMSRCost rnd sold 0 idx k (Some 0%Z) = Ok (ofZ (k + 1)).
Proof.
  intros Hvalid [Hk1 Hk9] Hfit Hu.
  rewrite (calcLMSRCost_eval sold 0 idx k 0 Hvalid ltac:(lia) eq_refl).
  rewrite costR_unfunded_no_fee by lia.
  unfold Decimal.ofZ. do 3 f_equal. apply Zceil_eq.
  pose proof (unfunded_cost_above k Hk1 Hu) as Hlow.
  pose proof (unfunded_cost_below k ltac:(lia) Hfit) as Hup.
  rewrite plus_IZR in *. lra.
Qed.


(** *** Marginal prices *)

Lemma max_from_ofZ (l : list Z) :
  forall x : Z,
    Decimal.max_from (ofZ x) (map ofZ l) = ofZ (fold_left Z.max l x).
Proof.
  induction l as [| y l IH]; intros x; cbn [map Decimal.max_from fold_left].
  - reflexivity.
  - unfold Decimal.ofZ at 2. cbn [Decimal.lt Decimal.ofZ].
    destruct (Rlt_dec (IZR x) (IZR y)) as [Hlt | Hge].
    + apply lt_IZR in Hlt. rewrite (Z.max_r x y) by lia. apply IH.
    + assert (y <= x)%Z.
      { apply Z.le_ngt. intros Hlt. apply Hge. now apply IZR_lt. }
      rewrite (Z.max_l x y) by lia. apply IH.
Qed.

Lemma max_ofZ (l : list Z) :
  l <> [] -> Decimal.max (map ofZ l) = Ok (ofZ (largest l)).
Proof.
  destruct l as [| s l]; [congruence |]. intros _.
  cbn [map Decimal.max largest]. unfold Decimal.ofZ at 1.
  f_equal. apply max_from_ofZ.
Qed.

Lemma termShifted_pos (b off : R) (s : Z) (i : nat) :
  0 < termShifted rnd b off s i.
Proof. unfold termShifted. apply rnd_pos, exp_pos. Qed.

Lemma reduce_shifted (b off : R) (sold : list Z) :
  b <> 0 ->
  reduce (fun acc tokensSold (_ : nat) =>
            Dplus acc
              (Dexp (Dminus (Ddiv (ofZ tokensSold) (Fin b)) (Fin off))))
    sold (ofZ 0)
  = Fin (sumR rnd (termShifted rnd b off) 0 sold 0).
Proof.
  intros Hb. unfold reduce.
  rewrite (reduce_from_ext _ (fun a s j => Dplus a (Fin (termShifted rnd b off s j)))).
  - apply reduce_from_sumR.
  - intros acc s i. unfold Decimal.ofZ. now rewrite dividedBy_Fin.
Qed.

Lemma calcLMSRMarginalPrice_eval (sold : list Z) (funding : Z) (i : nat) (s : Z) :
  (2 <= length sold)%nat -> (0 < funding)%Z -> nth_error sold i = Some s ->
  calcLMSRMarginalPrice rnd sold funding (Z.of_nat i)
  = Ok (Fin (priceR rnd sold funding s)).
Proof.
  intros Hn Hfund Hnth.
  assert (Hi : (i < length sold)%nat).
  { apply nth_error_Some. congruence. }
  assert (Hvalid : validState sold funding (Z.of_nat i) = true).
  { apply validState_spec. lia. }
  unfold calcLMSRMarginalPrice, normalizeWeb3Args3. rewrite Hvalid. cbn [bind].
  destruct (Z.eqb_spec funding 0) as [-> | _]; [lia |]. cbn [andb].
  pose proof (bR_pos _ _ Hn Hfund) as Hb.
  rewrite (liquidityParameter_Fin _ _ Hn).
  rewrite (max_ofZ sold (nonempty_of_length _ Hn)). cbn [bind].
  rewrite Nat2Z.id, Hnth.
  rewrite (dividedBy_ofZ rnd (largest sold) (bR rnd (length sold) funding))
    by lra.
  rewrite reduce_shifted by lra.
  rewrite dividedBy_ofZ by lra.
  cbn [Decimal.minus Decimal.exp].
  rewrite dividedBy_Fin; [reflexivity |].
  assert (0 < sumR rnd (termShifted rnd (bR rnd (length sold) funding)
                          (rnd (IZR (largest sold) / bR rnd (length sold) funding)))
                0 sold 0); [| lra].
  apply sumR_pos; [apply termShifted_pos | lra | now apply nonempty_of_length].
Qed.

Lemma Rsum_nonneg (l : list R) : Forall (fun x => 0 <= x) l -> 0 <= Rsum l.
Proof.
  induction 1 as [| x l Hx _ IH]; cbn [Rsum fold_right]; [lra |].
  unfold Rsum in IH. lra.
Qed.

Lemma Rsum_map_nonneg (e : Z -> R) (l : list Z) :
  (forall s, 0 <= e s) -> 0 <= Rsum (map e l).
Proof.
  intros He. apply Rsum_nonneg. apply Forall_forall.
  intros x Hin. apply in_map_iff in Hin as (s & <- & _). apply He.
Qed.

(** Each of the [length l] additions of a [reduce] loses at most a factor
    [1 - u] and gains at most a factor [1 + u]. *)
Lemma sumR_bounds (e : Z -> R) :
  (forall s, 0 <= e s) ->
  forall l i acc, 0 <= acc ->
    (1 - u) ^ length l * (acc + Rsum (map e l))
    <= sumR rnd (fun s _ => e s) i l acc
    <= (1 + u) ^ length l * (acc + Rsum (map e l)).
Proof.
  intros He. pose proof (ctx_u _ _ _ ctx) as Hu.
  induction l as [| s l IH]; intros i acc Hacc.
  - cbn [length pow map Rsum fold_right sumR]. lra.
  - cbn [length map sumR]. change (Rsum (e s :: map e l)) with (e s + Rsum (map e l)).
    pose proof (He s) as Hs.
    pose proof (Rsum_map_nonneg e l He) as HT.
    assert (Hx : 0 <= acc + e s) by lra.
    pose proof (rnd_lower _ Hx) as Hlo. pose proof (rnd_upper _ Hx) as Hup.
    assert (Ha' : 0 <= rnd (acc + e s)) by now apply rnd_nonneg.
    specialize (IH (S i) _ Ha') as [IHlo IHup].
    assert (Hp1 : 0 <= (1 - u) ^ length l) by (apply pow_le; lra).
    assert (Hp2 : 0 <= (1 + u) ^ length l) by (apply pow_le; lra).
    assert (HuT : 0 <= u * Rsum (map e l)) by (apply Rmult_le_pos; lra).
    split.
    + eapply Rle_trans; [| exact IHlo].
      cbn [pow]. rewrite (Rmult_comm (1 - u)), Rmult_assoc.
      apply Rmult_le_compat_l; [assumption | lra].
    + eapply Rle_trans; [exact IHup |].
      cbn [pow]. rewrite (Rmult_comm (1 + u)), Rmult_assoc.
      apply Rmult_le_compat_l; [assumption | lra].
Qed.

Lemma quotients_bounds (e : Z -> R) (S : R) (l : list Z) :
  (forall s, 0 <= e s) -> 0 < S ->
  (1 - u) * (Rsum (map e l) / S)
  <= Rsum (map (fun s => rnd (e s / S)) l)
  <= (1 + u) * (Rsum (map e l) / S).
Proof.
  intros He HS. induction l as [| s l IH]; cbn [map].
  - cbn [Rsum fold_right]. unfold Rdiv. rewrite Rmult_0_l. lra.
  - change (Rsum (e s :: map e l)) with (e s + Rsum (map e l)).
    change (Rsum (rnd (e s / S) :: map (fun s0 => rnd (e s0 / S)) l))
      with (rnd (e s / S) + Rsum (map (fun s0 => rnd (e s0 / S)) l)).
    assert (Hq : 0 <= e s / S).
    { apply Rmult_le_pos; [apply He | left; now apply Rinv_0_lt_compat]. }
    pose proof (rnd_lower _ Hq). pose proof (rnd_upper _ Hq).
    unfold Rdiv in *. rewrite Rmult_plus_distr_r. lra.
Qed.

Lemma inv_le_quotient (S P E : R) : 0 < S -> 0 < P -> S <= P * E -> / P <= E / S.
Proof.
  intros HS HP H. apply (Rmult_le_reg_r (P * S)); [nra |].
  replace (/ P * (P * S)) with S by (field; lra).
  replace (E / S * (P * S)) with (P * E) by (field; lra).
  exact H.
Qed.

Lemma quotient_le_inv (S Q E : R) : 0 < S -> 0 < Q -> Q * E <= S -> E / S <= / Q.
Proof.
  intros HS HQ H. apply (Rmult_le_reg_r (Q * S)); [nra |].
  replace (/ Q * (Q * S)) with S by (field; lra).
  replace (E / S * (Q * S)) with (Q * E) by (field; lra).
  exact H.
Qed.

(** C4, as amended. For every funded market state with at least two outcomes
    each marginal price is a finite number, and their sum over all outcome
    indices equals 1 within the rounding tolerance of the decimal context:
    with [n] outcomes and relative rounding error [u] it lies between
    [(1 - u) / (1 + u)^n] and [(1 + u) / (1 - u)^n]. *)
Theorem marginal_prices_sum_to_one (sold : list Z) (funding : Z) :
  (2 <= length sold)%nat -> (0 < funding)%Z ->
  exists prices : list R,
    length prices = length sold
    /\ (forall i, (i < length sold)%nat ->
          calcLMSRMarginalPrice rnd sold funding (Z.of_nat i)
          = Ok (Fin (nth i prices 0)))
    /\ (1 - u) / (1 + u) ^ length sold <= Rsum prices
       <= (1 + u) / (1 - u) ^ length sold.
Proof.
  intros Hn Hfund. pose proof (ctx_u _ _ _ ctx) as Hu.
  exists (map (priceR rnd sold funding) sold). split; [| split].
  - apply length_map.
  - intros i Hi.
    destruct (nth_error sold i) as [s |] eqn:Hnth.
    + rewrite (calcLMSRMarginalPrice_eval _ _ _ _ Hn Hfund Hnth).
      do 2 f_equal. symmetry. apply nth_error_nth.
      now apply map_nth_error.
    + apply nth_error_None in Hnth. lia.
  - unfold priceR.
    set (b := bR rnd (length sold) funding).
    set (off := rnd (IZR (largest sold) / b)).
    set (e := fun s : Z => termShifted rnd b off s 0).
    set (S := sumR rnd (termShifted rnd b off) 0 sold 0).
    assert (He : forall s, 0 <= e s) by (intros s; left; apply termShifted_pos).
    assert (HS : 0 < S).
    { apply sumR_pos; [apply termShifted_pos | lra | now apply nonempty_of_length]. }
    pose proof (sumR_bounds e He sold 0%nat 0 (Rle_refl 0)) as [Hlo Hup].
    change (sumR rnd (fun s (_ : nat) => e s) 0 sold 0) with S in Hlo, Hup.
    rewrite Rplus_0_l in Hlo, Hup.
    pose proof (quotients_bounds e S sold He HS) as [Qlo Qup].
    change (fun s : Z => rnd (e s / S))
      with (fun s : Z => rnd (termShifted rnd b off s 0 / S)) in Qlo, Qup.
    assert (Hp1 : 0 < (1 - u) ^ length sold) by (apply pow_lt; lra).
    assert (Hp2 : 0 < (1 + u) ^ length sold) by (apply pow_lt; lra).
    pose proof (inv_le_quotient S _ _ HS Hp2 Hup) as Hl.
    pose proof (quotient_le_inv S _ _ HS Hp1 Hlo) as Hr.
    split.
    + eapply Rle_trans; [| exact Qlo].
      unfold Rdiv at 1. apply Rmult_le_compat_l; [lra | exact Hl].
    + eapply Rle_trans; [exact Qup |].
      unfold Rdiv at 2. apply Rmult_le_compat_l; [lra | exact Hr].
Qed.

(** *** The inversion on a valid input *)

Lemma reduce_paid (b : R) (c f : Z) (sold : list Z) :
  b <> 0 -> (0 <= f)%Z ->
  reduce (fun acc numShares (_ : nat) =>
            Dplus acc
              (Dexp (Ddiv
                       (Dplus (ofZ numShares)
                          (Ddiv (ofZ c)
                             (Dplus (ofZ 1) (Ddiv (ofZ f) (ofZ 1000000)))))
                       (Fin b)))) sold (ofZ 0)
  = Fin (sumR rnd (termPaid rnd b c f) 0 sold 0).
Proof.
  intros Hb Hf. unfold reduce. rewrite feeUp_Fin.
  pose proof (feeUp_ge_1 f Hf) as Hfee.
  rewrite (dividedBy_ofZ rnd c (feeUp rnd f)) by lra.
  rewrite (reduce_from_ext _ (fun a s j => Dplus a (Fin (termPaid rnd b c f s j)))).
  - apply reduce_from_sumR.
  - intros acc s i. unfold Decimal.ofZ. cbn [Decimal.plus].
    now rewrite dividedBy_Fin.
Qed.

Lemma reduce_skip (b : R) (idx : Z) (sold : list Z) :
  b <> 0 ->
  reduce (fun acc numShares i =>
            if (Z.of_nat i =? idx)%Z then acc
            else Dplus acc (Dexp (Ddiv (ofZ numShares) (Fin b)))) sold (ofZ 0)
  = Fin (sumSkipR rnd (termPlain rnd b) idx 0 sold 0).
Proof.
  intros Hb. unfold reduce.
  rewrite (reduce_from_ext _
             (fun a s j => if (Z.of_nat j =? idx)%Z then a
                           else Dplus a (Fin (termPlain rnd b s j)))).
  - apply reduce_from_sumSkipR.
  - intros acc s i. destruct (Z.of_nat i =? idx)%Z; [reflexivity |].
    unfold Decimal.ofZ. now rewrite dividedBy_Fin.
Qed.

Lemma logArg_Fin (sold : list Z) (funding idx c f : Z) :
  (2 <= length sold)%nat -> (0 < funding)%Z -> (0 <= f)%Z ->
  outcomeTokenCountLogArg rnd sold idx (ofZ c)
    (liquidityParameter rnd sold funding) f
  = Fin (logArgR rnd sold funding idx c f).
Proof.
  intros Hn Hfund Hf. pose proof (bR_pos _ _ Hn Hfund) as Hb.
  unfold outcomeTokenCountLogArg. rewrite (liquidityParameter_Fin _ _ Hn).
  rewrite reduce_paid, reduce_skip by (lra || assumption). reflexivity.
Qed.

Lemma calcLMSROutcomeTokenCount_eval (sold : list Z) (funding idx c f s : Z) :
  validState sold funding idx = true -> (0 < funding)%Z -> (0 <= c)%Z ->
  validFee f = true -> nth_error sold (Z.to_nat idx) = Some s ->
  0 < logArgR rnd sold funding idx c f ->
  calcLMSROutcomeTokenCount rnd sold funding idx c (Some f)
  = Ok (Fin (IZR (Zfloor
         (rnd (rnd (bR rnd (length sold) funding
                    * rnd (ln (logArgR rnd sold funding idx c f)))
               - IZR s))))).
Proof.
  intros Hvalid Hfund Hc Hfee Hnth Harg.
  pose proof (proj1 (validState_spec _ _ _) Hvalid) as (Hn & _ & _).
  pose proof (proj1 (validFee_spec _) Hfee) as [Hf _].
  unfold calcLMSROutcomeTokenCount.
  rewrite (normalizeWeb3Args_valid _ _ _ _ _ Hvalid Hc Hfee). cbn [bind].
  rewrite Hnth, (logArg_Fin _ _ _ _ _ Hn Hfund Hf).
  rewrite (liquidityParameter_Fin _ _ Hn), ln_Fin by assumption.
  reflexivity.
Qed.

(** *** The spec's ratios on a funded market *)

Lemma fold_plain (b : R) (l : list Z) :
  b <> 0 ->
  fold_left Dplus (map Dexp (scaledBy rnd (Fin b) l)) (ofZ 0)
  = Fin (sumR rnd (termPlain rnd b) 0 l 0).
Proof.
  intros Hb. unfold scaledBy. rewrite map_map.
  rewrite <- (reduce_from_fold rnd _ l 0%nat). now apply reduce_plain.
Qed.

Lemma fold_shifted (b m : R) (l : list Z) :
  b <> 0 ->
  fold_left Dplus
    (map (fun s => Dexp (Dminus (Ddiv (ofZ s) (Fin b)) (Fin m))) l) (ofZ 0)
  = Fin (sumR rnd (termShifted rnd b m) 0 l 0).
Proof.
  intros Hb.
  rewrite <- (reduce_from_fold rnd _ l 0%nat). now apply reduce_shifted.
Qed.

Lemma unshiftedRatio_Fin (sold : list Z) (funding : Z) (i : nat) :
  (2 <= length sold)%nat -> (0 < funding)%Z ->
  unshiftedRatio rnd sold funding i
  = Fin (rnd (termPlain rnd (bR rnd (length sold) funding) (nth i sold 0%Z) 0
              / sumR rnd (termPlain rnd (bR rnd (length sold) funding)) 0 sold 0)).
Proof.
  intros Hn Hfund. pose proof (bR_pos _ _ Hn Hfund) as Hb.
  unfold unshiftedRatio.
  change (Ddiv (ofZ funding) (Dln (ofZ (Z.of_nat (length sold)))))
    with (liquidityParameter rnd sold funding).
  rewrite (liquidityParameter_Fin _ _ Hn), fold_plain by lra.
  rewrite dividedBy_ofZ by lra. cbn [Decimal.exp].
  rewrite dividedBy_Fin; [reflexivity |].
  assert (0 < sumR rnd (termPlain rnd (bR rnd (length sold) funding)) 0 sold 0);
    [| lra].
  apply sumR_pos; [apply termPlain_pos | lra | now apply nonempty_of_length].
Qed.

Lemma shiftedRatio_Fin (sold : list Z) (funding : Z) (i : nat) (m : R) :
  (2 <= length sold)%nat -> (0 < funding)%Z ->
  shiftedRatio rnd sold funding i (Fin m)
  = Fin (rnd (termShifted rnd (bR rnd (length sold) funding) m (nth i sold 0%Z) 0
              / sumR rnd (termShifted rnd (bR rnd (length sold) funding) m) 0 sold 0)).
Proof.
  intros Hn Hfund. pose proof (bR_pos _ _ Hn Hfund) as Hb.
  unfold shiftedRatio.
  change (Ddiv (ofZ funding) (Dln (ofZ (Z.of_nat (length sold)))))
    with (liquidityParameter rnd sold funding).
  rewrite (liquidityParameter_Fin _ _ Hn), fold_shifted by lra.
  rewrite dividedBy_ofZ by lra. cbn [Decimal.minus Decimal.exp].
  rewrite dividedBy_Fin; [reflexivity |].
  assert (0 < sumR rnd (termShifted rnd (bR rnd (length sold) funding) m) 0 sold 0);
    [| lra].
  apply sumR_pos; [apply termShifted_pos | lra | now apply nonempty_of_length].
Qed.

(** *** Terms that do not depend on the rounding *)

Lemma termPlain_zero (b : R) (i : nat) : termPlain rnd b 0 i = 1.
Proof.
  unfold termPlain, Rdiv. now rewrite Rmult_0_l, rnd_0, exp_0, rnd_1.
Qed.

Lemma termPaid_free (b : R) (s : Z) (i : nat) :
  (Z.abs s < 10 ^ precision)%Z ->
  termPaid rnd b 0 0 s i = termPlain rnd b s i.
Proof.
  intros Hs. unfold termPaid, termPlain.
  rewrite feeUp_0. unfold Rdiv at 2. rewrite Rmult_0_l, rnd_0, Rplus_0_r.
  now rewrite rnd_Z.
Qed.

(** With funding 1 and two outcomes the liquidity parameter is below 5/2. *)
Lemma bR_small : u <= / 100 -> 0 < bR rnd 2 1 <= 5 / 2.
Proof.
  intros Hu. pose proof (ctx_u _ _ _ ctx) as Hu0.
  split; [apply bR_pos; lia |].
  unfold bR. change (IZR (Z.of_nat 2)) with 2.
  pose proof ln_lt_2 as HL.
  pose proof (rnd_lower (ln 2) ltac:(lra)) as Hl.
  assert (Hl' : 99 / 200 <= rnd (ln 2)).
  { assert ((1 - u) * / 2 <= (1 - u) * ln 2)
      by (apply Rmult_le_compat_l; lra).
    lra. }
  assert (Hq : 0 <= 1 / rnd (ln 2) <= 200 / 99).
  { split.
    - apply Rmult_le_pos; [lra |]. left. apply Rinv_0_lt_compat. lra.
    - apply (Rmult_le_reg_r (rnd (ln 2))); [lra |].
      replace (1 / rnd (ln 2) * rnd (ln 2)) with 1 by (field; lra). lra. }
  pose proof (rnd_upper (1 / rnd (ln 2)) (proj1 Hq)) as Hup.
  assert ((1 + u) * (1 / rnd (ln 2)) <= (1 + / 100) * (200 / 99))
    by (apply Rmult_le_compat; lra).
  lra.
Qed.

(** An outcome 1000 tokens behind contributes at most [2 exp (-400)]. *)
Lemma far_outcome_small (i : nat) :
  u <= / 100 -> (3 <= precision)%Z ->
  0 < termPlain rnd (bR rnd 2 1) (-1000) i <= 2 * exp (- 400).
Proof.
  intros Hu Hp. pose proof (ctx_u _ _ _ ctx) as Hu0.
  destruct (bR_small Hu) as [Hb0 Hb].
  split; [apply termPlain_pos |].
  unfold termPlain. set (b := bR rnd 2 1) in *.
  assert (Hx : IZR (-1000) / b <= IZR (-400)).
  { apply (Rmult_le_reg_r b); [assumption |].
    replace (IZR (-1000) / b * b) with (IZR (-1000)) by (field; lra). lra. }
  assert (Hv : rnd (IZR (-1000) / b) <= - 400).
  { apply rnd_mono in Hx. rewrite (rnd_Z (-400)) in Hx; [lra |].
    apply Z.lt_le_trans with (10 ^ 3)%Z; [reflexivity |].
    apply Z.pow_le_mono_r; lia. }
  apply exp_le_mono in Hv.
  pose proof (exp_pos (rnd (IZR (-1000) / b))) as Hpos.
  pose proof (rnd_upper _ (Rlt_le _ _ Hpos)) as Hup.
  pose proof (exp_pos (- 400)).
  assert ((1 + u) * exp (rnd (IZR (-1000) / b)) <= 2 * exp (- 400))
    by (apply Rmult_le_compat; lra).
  lra.
Qed.

(** *** Unfunded markets *)

Lemma liquidityParameter_unfunded (sold : list Z) :
  (2 <= length sold)%nat -> liquidityParameter rnd sold 0 = Fin 0.
Proof.
  intros Hn. rewrite (liquidityParameter_Fin _ _ Hn).
  f_equal. unfold bR, Rdiv. rewrite Rmult_0_l. apply rnd_0.
Qed.

(** With funding 0 and one token sold, [b = 0], the offset is [1/0] and
    every price is NaN. *)
Lemma unfunded_price_example :
  calcLMSRMarginalPrice rnd [1%Z; 0%Z] 0 0 = Ok NaN
  /\ calcLMSRMarginalPrice rnd [1%Z; 0%Z] 0 1 = Ok NaN.
Proof.
  unfold calcLMSRMarginalPrice, normalizeWeb3Args3.
  cbn [validState length Z.of_nat Pos.of_succ_nat Pos.succ Z.leb Z.ltb
       Z.compare Pos.compare Pos.compare_cont andb bind Z.eqb forallb Pos.eqb].
  rewrite liquidityParameter_unfunded by (cbn [length]; lia).
  rewrite max_ofZ by discriminate.
  cbn [bind largest fold_left Z.max Z.compare].
  change (Z.to_nat 0) with 0%nat. change (Z.to_nat 1) with 1%nat.
  cbn [nth_error]. unfold Decimal.ofZ.
  rewrite (positive_over_zero rnd (IZR 1)) by lra. rewrite zero_over_zero.
  split; reflexivity.
Qed.

(** With funding 0 every exponent is [-1/0], every exponential 0, and the
    inversion returns NaN. *)
Lemma unfunded_inverse_example :
  outcomeTokenCountLogArg rnd [(-1)%Z; (-1)%Z] 0 (ofZ 0)
    (liquidityParameter rnd [(-1)%Z; (-1)%Z] 0) 0 = Fin 0
  /\ calcLMSROutcomeTokenCount rnd [(-1)%Z; (-1)%Z] 0 0 0 (Some 0%Z) = Ok NaN.
Proof.
  assert (Harg : outcomeTokenCountLogArg rnd [(-1)%Z; (-1)%Z] 0 (ofZ 0)
                   (liquidityParameter rnd [(-1)%Z; (-1)%Z] 0) 0 = Fin 0).
  { rewrite liquidityParameter_unfunded by (cbn [length]; lia).
    unfold outcomeTokenCountLogArg, reduce.
    rewrite feeUp_Fin, feeUp_0.
    cbn [reduce_from Z.of_nat Z.eqb Pos.of_succ_nat Pos.succ]. unfold Decimal.ofZ.
    rewrite (dividedBy_Fin rnd (IZR 0) 1) by lra.
    cbn [Decimal.plus]. unfold Rdiv. rewrite Rmult_0_l, rnd_0, Rplus_0_r.
    rewrite (rnd_Z (-1)).
    2:{ apply Z.lt_le_trans with (10 ^ 1)%Z; [reflexivity |].
        apply Z.pow_le_mono_r; [lia |]. apply (ctx_precision _ _ _ ctx). }
    rewrite (negative_over_zero rnd (IZR (-1))) by lra.
    cbn [Decimal.exp Decimal.plus Decimal.minus].
    now rewrite !Rplus_0_r, !rnd_0, Rminus_diag, rnd_0. }
  split; [exact Harg |].
  unfold calcLMSROutcomeTokenCount.
  rewrite (normalizeWeb3Args_valid [(-1)%Z; (-1)%Z] 0 0 0 0
             eq_refl ltac:(lia) eq_refl).
  cbn [bind]. change (Z.to_nat 0) with 0%nat. cbn [nth_error].
  rewrite Harg, liquidityParameter_unfunded by (cbn [length]; lia).
  unfold Decimal.ln. rewrite isNegative_false, (isZero_true 0) by lra.
  unfold Decimal.times. rewrite (isZero_true 0) by lra. reflexivity.
Qed.

(** *** Rounding errors of at most one in a million *)

Lemma rnd_within (x : R) :
  u <= / 1000000 -> 0 <= x ->
  (1 - / 1000000) * x <= rnd x <= (1 + / 1000000) * x.
Proof.
  intros Hu Hx. pose proof (rnd_lower x Hx). pose proof (rnd_upper x Hx).
  assert (u * x <= / 1000000 * x) by (apply Rmult_le_compat_r; lra). lra.
Qed.

Lemma rnd_within_neg (x : R) :
  u <= / 1000000 -> x <= 0 ->
  (1 + / 1000000) * x <= rnd x <= (1 - / 1000000) * x.
Proof.
  intros Hu Hx. pose proof (ctx_rel _ _ _ ctx x) as H.
  rewrite (Rabs_left1 x Hx) in H. apply Rabs_le_between in H.
  assert (u * - x <= / 1000000 * - x) by (apply Rmult_le_compat_r; lra). lra.
Qed.

(** With funding 1 and two outcomes the liquidity parameter is [1 / ln 2],
    up to three rounding errors. *)
Lemma bR_near :
  u <= / 1000000 ->
  0 < bR rnd 2 1
  /\ 1 - 3 / 1000000 <= bR rnd 2 1 * ln 2 <= 1 + 3 / 1000000.
Proof.
  intros Hu. pose proof ln_2_bounds as HL.
  split; [apply bR_pos; lia |].
  unfold bR. change (IZR (Z.of_nat 2)) with 2.
  pose proof (rnd_within (ln 2) Hu ltac:(lra)) as Hl.
  set (L := ln 2) in *. set (l := rnd L) in *.
  assert (Hlpos : 0 < l) by lra.
  assert (Hq : 0 < 1 / l) by (apply Rdiv_lt_0_compat; lra).
  pose proof (rnd_within (1 / l) Hu (Rlt_le _ _ Hq)) as Hr.
  set (q := 1 / l) in *.
  assert (Hql : q * l = 1) by (unfold q; field; lra).
  clearbody q l L.
  assert (Hlow : / (1 + / 1000000) <= q * L).
  { apply (Rmult_le_reg_l (1 + / 1000000)); [lra |].
    replace ((1 + / 1000000) * / (1 + / 1000000)) with (q * l)
      by (rewrite Hql; field; lra).
    replace ((1 + / 1000000) * (q * L)) with (q * ((1 + / 1000000) * L)) by ring.
    apply Rmult_le_compat_l; lra. }
  assert (Hhigh : q * L <= / (1 - / 1000000)).
  { apply (Rmult_le_reg_l (1 - / 1000000)); [lra |].
    replace ((1 - / 1000000) * / (1 - / 1000000)) with (q * l)
      by (rewrite Hql; field; lra).
    replace ((1 - / 1000000) * (q * L)) with (q * ((1 - / 1000000) * L)) by ring.
    apply Rmult_le_compat_l; lra. }
  assert (H1 : (1 - / 1000000) * q * L <= rnd q * L)
    by (apply Rmult_le_compat_r; lra).
  assert (H2 : rnd q * L <= (1 + / 1000000) * q * L)
    by (apply Rmult_le_compat_r; lra).
  lra.
Qed.

(** Its reciprocal is [ln 2], up to three rounding errors. *)
Lemma inv_bR_near :
  u <= / 1000000 ->
  0 < 1 / bR rnd 2 1
  /\ (1 - 3 / 1000000) * (1 / bR rnd 2 1) <= ln 2
     <= (1 + 3 / 1000000) * (1 / bR rnd 2 1).
Proof.
  intros Hu. destruct (bR_near Hu) as [Hb HbL].
  set (b := bR rnd 2 1) in *.
  assert (Hp : 0 < 1 / b) by (apply Rdiv_lt_0_compat; lra).
  set (p := 1 / b) in *.
  assert (Hpb : p * b = 1) by (unfold p; field; lra).
  assert (HL : ln 2 = p * (b * ln 2)) by (rewrite <- Rmult_assoc, Hpb; ring).
  set (bL := b * ln 2) in *. clearbody bL p.
  split; [exact Hp |]. rewrite HL.
  split; rewrite (Rmult_comm _ p); apply Rmult_le_compat_l; lra.
Qed.

(** *** One token on the market [0, 0] funded with 1

    The exponent of the bought outcome is [ln 2] and that of the sold one
    [- ln 2], each up to five parts in a million. *)

Lemma exponent_buy_near :
  u <= / 1000000 -> Rabs (rnd (1 / bR rnd 2 1) - ln 2) <= 5 / 1000000.
Proof.
  intros Hu. destruct (inv_bR_near Hu) as [Hp HL]. pose proof ln_2_bounds.
  pose proof (rnd_within _ Hu (Rlt_le _ _ Hp)) as Hr.
  apply Rabs_le. lra.
Qed.

Lemma exponent_sell_near :
  u <= / 1000000 -> Rabs (rnd (IZR (-1) / bR rnd 2 1) + ln 2) <= 5 / 1000000.
Proof.
  intros Hu. destruct (inv_bR_near Hu) as [Hp HL]. pose proof ln_2_bounds.
  destruct (bR_near Hu) as [Hb _].
  replace (IZR (-1) / bR rnd 2 1) with (- (1 / bR rnd 2 1)) by (field; lra).
  pose proof (rnd_within_neg (- (1 / bR rnd 2 1)) Hu ltac:(lra)) as Hr.
  apply Rabs_le. lra.
Qed.

Lemma termBuy_other (b : R) (k : Z) : termBuy rnd b 0 k 0 1 = 1.
Proof.
  unfold termBuy, selected. cbn [Z.of_nat Pos.of_succ_nat Z.eqb].
  rewrite Rplus_0_l, rnd_0. unfold Rdiv.
  now rewrite Rmult_0_l, rnd_0, exp_0, rnd_1.
Qed.

Lemma termSell_other (b : R) (k : Z) : termSell rnd b 0 k 0 1 = 1.
Proof.
  unfold termSell, selected. cbn [Z.of_nat Pos.of_succ_nat Z.eqb].
  rewrite Rminus_0_r, rnd_0. unfold Rdiv.
  now rewrite Rmult_0_l, rnd_0, exp_0, rnd_1.
Qed.

Lemma termBuy_near :
  u <= / 1000000 ->
  2 - 12 / 1000000 <= termBuy rnd (bR rnd 2 1) 0 1 0 0 <= 2 + 23 / 1000000.
Proof.
  intros Hu. unfold termBuy, selected. cbn [Z.of_nat Z.eqb].
  rewrite Rplus_0_l, rnd_1.
  pose proof (exponent_buy_near Hu) as Hx.
  set (x := rnd (1 / bR rnd 2 1)) in *.
  pose proof (exp_near (ln 2) (x - ln 2) (5 / 1000000) Hx ltac:(lra)) as He.
  replace (ln 2 + (x - ln 2)) with x in He by ring.
  rewrite exp_ln in He by lra.
  pose proof (rnd_within (exp x) Hu (Rlt_le _ _ (exp_pos x))). lra.
Qed.

Lemma termSell_near :
  u <= / 1000000 -> 49 / 100 <= termSell rnd (bR rnd 2 1) 0 1 0 0.
Proof.
  intros Hu. pose proof (ctx_precision _ _ _ ctx) as Hp.
  unfold termSell, selected. cbn [Z.of_nat Z.eqb].
  replace (IZR 0 - IZR 1) with (IZR (-1)) by (rewrite <- minus_IZR; reflexivity).
  rewrite (rnd_Z (-1)).
  2:{ change (Z.abs (-1)) with (10 ^ 0)%Z. apply Z.pow_lt_mono_r; lia. }
  pose proof (exponent_sell_near Hu) as Hx.
  set (x := rnd (IZR (-1) / bR rnd 2 1)) in *.
  pose proof (exp_near (- ln 2) (x + ln 2) (5 / 1000000) Hx ltac:(lra)) as He.
  replace (- ln 2 + (x + ln 2)) with x in He by ring.
  rewrite exp_Ropp, exp_ln in He by lra.
  pose proof (rnd_within (exp x) Hu (Rlt_le _ _ (exp_pos x))). lra.
Qed.

Lemma sum_buy_near :
  u <= / 1000000 ->
  3 - 18 / 1000000
  <= sumR rnd (termBuy rnd (bR rnd 2 1) 0 1) 0 [0%Z; 0%Z] 0
  <= 3 + 30 / 1000000.
Proof.
  intros Hu. cbn [sumR]. rewrite termBuy_other, Rplus_0_l.
  pose proof (termBuy_near Hu) as Ht.
  set (t := termBuy rnd (bR rnd 2 1) 0 1 0 0) in *.
  pose proof (rnd_within t Hu ltac:(lra)) as H1.
  pose proof (rnd_within (rnd t + 1) Hu ltac:(lra)) as H2. lra.
Qed.

Lemma sum_sell_near :
  u <= / 1000000 ->
  147 / 100 <= sumR rnd (termSell rnd (bR rnd 2 1) 0 1) 0 [0%Z; 0%Z] 0.
Proof.
  intros Hu. cbn [sumR]. rewrite termSell_other, Rplus_0_l.
  pose proof (termSell_near Hu) as Ht.
  set (t := termSell rnd (bR rnd 2 1) 0 1 0 0) in *.
  pose proof (rnd_within t Hu ltac:(lra)) as H1.
  pose proof (rnd_within (rnd t + 1) Hu ltac:(lra)) as H2. lra.
Qed.

Lemma sum_plain_two (b : R) : sumR rnd (termPlain rnd b) 0 [0%Z; 0%Z] 0 = 2.
Proof.
  cbn [sumR]. rewrite !termPlain_zero, Rplus_0_l, rnd_1.
  apply (rnd_Z 2). pose proof (ctx_precision _ _ _ ctx) as Hp.
  apply Z.lt_le_trans with (10 ^ 1)%Z; [reflexivity |].
  apply Z.pow_le_mono_r; lia.
Qed.

(** The cost before the fee, times [ln 2], is [ln 3 - ln 2] up to rounding. *)
Lemma baseCostR_near :
  u <= / 1000000 ->
  0 < baseCostR rnd [0%Z; 0%Z] 1 0 1
  /\ baseCostR rnd [0%Z; 0%Z] 1 0 1 * ln 2 <= ln 2 / 2 + / 16 + 20 / 1000000.
Proof.
  intros Hu. unfold baseCostR. cbn [length]. rewrite sum_plain_two.
  destruct (bR_near Hu) as [Hb HbL]. pose proof (sum_buy_near Hu) as HA.
  set (b := bR rnd 2 1) in *.
  set (A := sumR rnd (termBuy rnd b 0 1) 0 [0%Z; 0%Z] 0) in *.
  pose proof ln_2_bounds as HL. pose proof ln_3_bound as H3.
  assert (Hup : ln A <= ln 3 + 10 / 1000000).
  { apply Rle_trans with (ln (3 * (1 + 10 / 1000000))).
    - apply ln_le_mono; lra.
    - rewrite ln_mult by lra.
      pose proof (ln_le_minus_1 (1 + 10 / 1000000) ltac:(lra)). lra. }
  assert (Hlow : ln 2 + 31 / 100 <= ln A).
  { apply Rle_trans with (ln (2 * (29 / 20))).
    - rewrite ln_mult by lra.
      pose proof (ln_ge_1_minus_inv (29 / 20) ltac:(lra)). lra.
    - apply ln_le_mono; lra. }
  pose proof (rnd_within (ln A) Hu ltac:(lra)) as HrA.
  pose proof (rnd_within (ln 2) Hu ltac:(lra)) as Hl.
  set (D := rnd (ln A) - rnd (ln 2)).
  assert (HD : 3 / 10 <= D <= ln 3 - ln 2 + 13 / 1000000) by (unfold D; lra).
  pose proof (rnd_within D Hu ltac:(lra)) as HrD.
  assert (HbD : 0 < b * rnd D) by (apply Rmult_lt_0_compat; lra).
  pose proof (rnd_within (b * rnd D) Hu ltac:(lra)) as Hbase.
  split; [lra |].
  assert (H1 : rnd (b * rnd D) * ln 2 <= (1 + / 1000000) * (b * rnd D) * ln 2)
    by (apply Rmult_le_compat_r; lra).
  assert (H2 : b * ln 2 * rnd D <= (1 + 3 / 1000000) * rnd D)
    by (apply Rmult_le_compat_r; lra).
  lra.
Qed.

Lemma feeUp_small (f : Z) :
  u <= / 1000000 -> (0 <= f <= 400000)%Z -> 1 <= feeUp rnd f <= 141 / 100.
Proof.
  intros Hu [Hf0 Hf]. split; [now apply feeUp_ge_1 |].
  unfold feeUp. apply IZR_le in Hf0, Hf.
  assert (Hq : 0 <= IZR f / IZR 1000000 <= 4 / 10) by (split; lra).
  pose proof (rnd_within _ Hu (proj1 Hq)) as H1.
  pose proof (rnd_within (1 + rnd (IZR f / IZR 1000000)) Hu ltac:(lra)). lra.
Qed.

(** Before [ceil], the cost of one token lies in (0, 1] at every fee factor
    up to 400000. *)
Lemma costR_small_market (f : Z) :
  u <= / 1000000 -> (0 <= f <= 400000)%Z ->
  0 < costR rnd [0%Z; 0%Z] 1 0 1 f <= 1.
Proof.
  intros Hu Hf. unfold costR. change (1 =? 0)%Z with false. cbv iota.
  destruct (baseCostR_near Hu) as [Hbase HbaseL].
  pose proof (feeUp_small f Hu Hf) as Hfee. pose proof ln_2_bounds as HL.
  set (base := baseCostR rnd [0%Z; 0%Z] 1 0 1) in *.
  set (fee := feeUp rnd f) in *.
  assert (Hbf : 0 < base * fee) by (apply Rmult_lt_0_compat; lra).
  pose proof (rnd_within (base * fee) Hu ltac:(lra)) as H1.
  unfold eps1.
  set (r := rnd (base * fee)) in *.
  pose proof (rnd_within (r * (IZR 1000000001 / IZR 1000000000)) Hu ltac:(lra))
    as H2.
  set (v := rnd (r * (IZR 1000000001 / IZR 1000000000))) in *.
  split; [lra |].
  apply (Rmult_le_reg_r (ln 2)); [lra |].
  assert (H3 : v * ln 2 <= 1000003 / 1000000 * (base * fee) * ln 2)
    by (apply Rmult_le_compat_r; lra).
  assert (H4 : base * ln 2 * fee <= base * ln 2 * (141 / 100)).
  { apply Rmult_le_compat_l; [| lra]. apply Rmult_le_pos; lra. }
  lra.
Qed.

Lemma one_fits : (Z.abs 0 + 1 < 10 ^ precision)%Z.
Proof.
  pose proof (ctx_precision _ _ _ ctx) as Hp.
  apply Z.lt_le_trans with (10 ^ 1)%Z; [reflexivity |].
  apply Z.pow_le_mono_r; lia.
Qed.

(** The profit before the fee, times [ln 2], is [ln 2 - ln (3/2)] up to
    rounding. *)
Lemma baseProfitR_near :
  u <= / 1000000 ->
  0 <= baseProfitR rnd [0%Z; 0%Z] 1 0 1
  /\ baseProfitR rnd [0%Z; 0%Z] 1 0 1 * ln 2 <= ln 2 - 29 / 100.
Proof.
  intros Hu. split.
  { apply baseProfitR_nonneg; [cbn [length]; lia | lia | lia |].
    repeat constructor; apply one_fits. }
  unfold baseProfitR. cbn [length]. rewrite sum_plain_two.
  destruct (bR_near Hu) as [Hb HbL]. pose proof (sum_sell_near Hu) as HA.
  set (b := bR rnd 2 1) in *.
  set (A := sumR rnd (termSell rnd b 0 1) 0 [0%Z; 0%Z] 0) in *.
  pose proof ln_2_bounds as HL.
  assert (Hlow : 31 / 100 <= ln A).
  { apply Rle_trans with (ln (147 / 100)).
    - pose proof (ln_ge_1_minus_inv (147 / 100) ltac:(lra)). lra.
    - apply ln_le_mono; lra. }
  pose proof (rnd_within (ln A) Hu ltac:(lra)) as HrA.
  pose proof (rnd_within (ln 2) Hu ltac:(lra)) as Hl.
  set (D := rnd (ln 2) - rnd (ln A)).
  set (U := (1 + / 1000000) * ln 2 - 3 / 10).
  assert (HD : D <= U) by (unfold D, U; lra).
  assert (HU : 0 < U) by (unfold U; lra).
  pose proof (rnd_mono _ _ HD) as HrD.
  pose proof (rnd_within U Hu ltac:(lra)) as HrU.
  assert (HbD : b * rnd D <= b * rnd U) by (apply Rmult_le_compat_l; lra).
  pose proof (rnd_mono _ _ HbD) as Hbase.
  assert (HbU : 0 < b * rnd U) by (apply Rmult_lt_0_compat; lra).
  pose proof (rnd_within (b * rnd U) Hu ltac:(lra)) as Hbound.
  assert (H1 : rnd (b * rnd D) * ln 2 <= (1 + / 1000000) * (b * rnd U) * ln 2)
    by (apply Rmult_le_compat_r; lra).
  assert (H2 : b * ln 2 * rnd U <= (1 + 3 / 1000000) * rnd U)
    by (apply Rmult_le_compat_r; lra).
  unfold U in *. lra.
Qed.

Lemma feeDown_le_1 (f : Z) : (0 <= f)%Z -> feeDown rnd f <= 1.
Proof.
  intros Hf. unfold feeDown. rewrite <- rnd_1 at 2. apply rnd_mono.
  apply IZR_le in Hf.
  assert (0 <= rnd (IZR f / IZR 1000000)); [| lra].
  apply rnd_nonneg. apply Rmult_le_pos; lra.
Qed.

(** Before [floor], the profit of one token lies in [0, 1) at every fee
    factor. *)
Lemma profitR_small_market (f : Z) :
  u <= / 1000000 -> (0 <= f < 1000000)%Z ->
  0 <= profitR rnd [0%Z; 0%Z] 1 0 1 f < 1.
Proof.
  intros Hu [Hf0 Hf]. split.
  { apply profitR_nonneg; [cbn [length]; lia | lia | lia | lia |].
    repeat constructor; apply one_fits. }
  unfold profitR.
  destruct (baseProfitR_near Hu) as [Hbase HbaseL].
  pose proof (feeDown_nonneg f Hf) as Hfee0.
  pose proof (feeDown_le_1 f Hf0) as Hfee1. pose proof ln_2_bounds as HL.
  set (base := baseProfitR rnd [0%Z; 0%Z] 1 0 1) in *.
  set (fee := feeDown rnd f) in *.
  assert (Hbf : 0 <= base * fee) by (apply Rmult_le_pos; lra).
  assert (Hbf1 : base * fee <= base * 1) by (apply Rmult_le_compat_l; lra).
  pose proof (rnd_within (base * fee) Hu Hbf) as H1.
  unfold eps1.
  set (r := rnd (base * fee)) in *.
  pose proof (rnd_within (r / (IZR 1000000001 / IZR 1000000000)) Hu
                ltac:(lra)) as H2.
  set (v := rnd (r / (IZR 1000000001 / IZR 1000000000))) in *.
  apply (Rmult_lt_reg_r (ln 2)); [lra |].
  assert (H3 : v * ln 2 <= 1000003 / 1000000 * base * ln 2)
    by (apply Rmult_le_compat_r; lra).
  lra.
Qed.

(** On the market [0, 0] funded with 1, one token costs 1 at every fee
    factor up to 400000 and sells for 0 at every fee factor. *)
Lemma cost_small_market (f : Z) :
  u <= / 1000000 -> (0 <= f <= 400000)%Z ->
  calcLMSRCost rnd [0%Z; 0%Z] 1 0 1 (Some f) = Ok (ofZ 1).
Proof.
  intros Hu Hf.
  rewrite calcLMSRCost_eval by
    (reflexivity || lia || (apply validFee_spec; lia)).
  unfold Decimal.ofZ. do 3 f_equal. apply Zceil_eq.
  pose proof (costR_small_market f Hu Hf). lra.
Qed.

Lemma profit_small_market (f : Z) :
  u <= / 1000000 -> (0 <= f < 1000000)%Z ->
  calcLMSRProfit rnd [0%Z; 0%Z] 1 0 1 (Some f) = Ok (ofZ 0).
Proof.
  intros Hu Hf.
  rewrite calcLMSRProfit_eval by
    (reflexivity || lia || (apply validFee_spec; lia)).
  unfold Decimal.ofZ. do 3 f_equal. apply Zfloor_eq.
  pose proof (profitR_small_market f Hu Hf). lra.
Qed.

(** *** Buying nothing costs nothing *)

Lemma termBuy_0 (b : R) (idx s : Z) (i : nat) :
  (Z.abs s < 10 ^ precision)%Z ->
  termBuy rnd b idx 0 s i = termPlain rnd b s i.
Proof.
  intros Hfit. unfold termPlain, termBuy, selected.
  replace (if (Z.of_nat i =? idx)%Z then 0%Z else 0%Z) with 0%Z
    by (now destruct (Z.of_nat i =? idx)%Z).
  rewrite Rplus_0_r, rnd_Z by lia. reflexivity.
Qed.

Lemma costR_0 (sold : list Z) (funding idx f : Z) :
  Forall (fun s => (Z.abs s < 10 ^ precision)%Z) sold ->
  costR rnd sold funding idx 0 f = 0.
Proof.
  intros Hfit. unfold costR.
  assert (E : (if (funding =? 0)%Z then IZR 0
               else baseCostR rnd sold funding idx 0) = 0).
  { destruct (funding =? 0)%Z; [reflexivity |]. unfold baseCostR.
    set (b := bR rnd (length sold) funding).
    rewrite (sumR_ext (termBuy rnd b idx 0) (termPlain rnd b)).
    - rewrite Rminus_diag, rnd_0, Rmult_0_r. apply rnd_0.
    - intros s j Hin. apply termBuy_0.
      rewrite Forall_forall in Hfit. now apply Hfit. }
  rewrite E, Rmult_0_l, rnd_0, Rmult_0_l. apply rnd_0.
Qed.

Lemma calcLMSRCost_zero (sold : list Z) (funding idx f : Z) :
  validState sold funding idx = true -> validFee f = true ->
  Forall (fun s => (Z.abs s < 10 ^ precision)%Z) sold ->
  calcLMSRCost rnd sold funding idx 0 (Some f) = Ok (ofZ 0).
Proof.
  intros Hvalid Hfee Hfit.
  rewrite calcLMSRCost_eval by (assumption || lia).
  rewrite (costR_0 _ _ _ _ Hfit). unfold Decimal.ofZ.
  do 3 f_equal. apply Zceil_eq. lra.
Qed.

(** *** Monotonicity in the token count and in the cost *)

Lemma selected_mono (idx : Z) (i : nat) (k k' : Z) :
  (k <= k')%Z -> (selected idx i k <= selected idx i k')%Z.
Proof. intros H. unfold selected. destruct (Z.of_nat i =? idx)%Z; lia. Qed.

Lemma termBuy_mono (b : R) (idx k k' s : Z) (i : nat) :
  0 < b -> (k <= k')%Z -> termBuy rnd b idx k s i <= termBuy rnd b idx k' s i.
Proof.
  intros Hb Hk. unfold termBuy. apply rnd_mono, exp_le_mono, rnd_mono.
  apply Rmult_le_compat_r; [left; now apply Rinv_0_lt_compat |].
  apply rnd_mono. pose proof (selected_mono idx i k k' Hk) as H.
  apply IZR_le in H. lra.
Qed.

Lemma termSell_mono (b : R) (idx k k' s : Z) (i : nat) :
  0 < b -> (k <= k')%Z -> termSell rnd b idx k' s i <= termSell rnd b idx k s i.
Proof.
  intros Hb Hk. unfold termSell. apply rnd_mono, exp_le_mono, rnd_mono.
  apply Rmult_le_compat_r; [left; now apply Rinv_0_lt_compat |].
  apply rnd_mono. pose proof (selected_mono idx i k k' Hk) as H.
  apply IZR_le in H. lra.
Qed.

Lemma costR_count_mono (sold : list Z) (funding idx k k' f : Z) :
  (2 <= length sold)%nat -> (0 <= funding)%Z -> (k <= k')%Z -> (0 <= f)%Z ->
  costR rnd sold funding idx k f <= costR rnd sold funding idx k' f.
Proof.
  intros Hn Hfund Hk Hf. unfold costR.
  pose proof (feeUp_ge_1 f Hf) as Hfee. pose proof eps1_bounds as Heps.
  apply rnd_mono, Rmult_le_compat_r; [lra |].
  apply rnd_mono, Rmult_le_compat_r; [lra |].
  destruct (Z.eqb_spec funding 0) as [_ | Hne]; [now apply IZR_le |].
  unfold baseCostR. set (b := bR rnd (length sold) funding).
  assert (Hb : 0 < b) by (apply bR_pos; lia).
  apply rnd_mono, Rmult_le_compat_l; [lra |].
  apply rnd_mono, Rplus_le_compat_r, rnd_mono, ln_le_mono.
  - apply sumR_pos; [apply termBuy_pos | lra | now apply nonempty_of_length].
  - apply sumR_mono; [| lra]. intros s j _. now apply termBuy_mono.
Qed.

Lemma profitR_count_mono (sold : list Z) (funding idx k k' f : Z) :
  (2 <= length sold)%nat -> (0 < funding)%Z -> (k <= k')%Z ->
  (f < 1000000)%Z ->
  profitR rnd sold funding idx k f <= profitR rnd sold funding idx k' f.
Proof.
  intros Hn Hfund Hk Hf. unfold profitR.
  pose proof (feeDown_nonneg f Hf) as Hfee. pose proof eps1_bounds as Heps.
  apply rnd_mono, Rmult_le_compat_r; [left; apply Rinv_0_lt_compat; lra |].
  apply rnd_mono, Rmult_le_compat_r; [lra |].
  unfold baseProfitR. set (b := bR rnd (length sold) funding).
  assert (Hb : 0 < b) by (now apply bR_pos).
  apply rnd_mono, Rmult_le_compat_l; [lra |].
  apply rnd_mono, Rplus_le_compat_l, Ropp_le_contravar, rnd_mono, ln_le_mono.
  - apply sumR_pos; [apply termSell_pos | lra | now apply nonempty_of_length].
  - apply sumR_mono; [| lra]. intros s j _. now apply termSell_mono.
Qed.

Lemma termPaid_mono (b : R) (c c' f s : Z) (i : nat) :
  0 < b -> (0 <= f)%Z -> (c <= c')%Z ->
  termPaid rnd b c f s i <= termPaid rnd b c' f s i.
Proof.
  intros Hb Hf Hc. unfold termPaid. pose proof (feeUp_ge_1 f Hf) as Hfee.
  apply rnd_mono, exp_le_mono, rnd_mono.
  apply Rmult_le_compat_r; [left; now apply Rinv_0_lt_compat |].
  apply rnd_mono, Rplus_le_compat_l, rnd_mono.
  apply Rmult_le_compat_r; [left; apply Rinv_0_lt_compat; lra |].
  now apply IZR_le.
Qed.

Lemma logArgR_mono (sold : list Z) (funding idx c c' f : Z) :
  (2 <= length sold)%nat -> (0 < funding)%Z -> (0 <= f)%Z -> (c <= c')%Z ->
  logArgR rnd sold funding idx c f <= logArgR rnd sold funding idx c' f.
Proof.
  intros Hn Hfund Hf Hc. unfold logArgR.
  set (b := bR rnd (length sold) funding).
  assert (Hb : 0 < b) by (now apply bR_pos).
  apply rnd_mono, Rplus_le_compat_r.
  apply sumR_mono; [| lra]. intros s j _. now apply termPaid_mono.
Qed.

(** A finite result of the inversion means a positive logarithm argument. *)
Lemma finite_count_positive_arg (sold : list Z) (funding idx c f n : Z) :
  validState sold funding idx = true -> (0 < funding)%Z -> (0 <= c)%Z ->
  validFee f = true ->
  calcLMSROutcomeTokenCount rnd sold funding idx c (Some f) = Ok (ofZ n) ->
  0 < logArgR rnd sold funding idx c f.
Proof.
  intros Hvalid Hfund Hc Hfee Hres.
  pose proof (proj1 (validState_spec _ _ _) Hvalid) as (Hn & _ & Hidx).
  pose proof (proj1 (validFee_spec _) Hfee) as [Hf _].
  pose proof (bR_pos _ _ Hn Hfund) as Hb.
  unfold calcLMSROutcomeTokenCount in Hres.
  rewrite (normalizeWeb3Args_valid _ _ _ _ _ Hvalid Hc Hfee) in Hres.
  cbn [bind] in Hres.
  rewrite (logArg_Fin _ _ _ _ _ Hn Hfund Hf) in Hres.
  rewrite (liquidityParameter_Fin _ _ Hn) in Hres.
  destruct (nth_error sold (Z.to_nat idx)) as [s |]; [| discriminate].
  set (a := logArgR rnd sold funding idx c f) in *.
  destruct (Rlt_dec 0 a) as [Hpos | Hneg]; [exact Hpos | exfalso].
  unfold Decimal.ln in Hres.
  destruct (Rlt_dec a 0) as [Hlt | Hge].
  - rewrite isNegative_true in Hres by assumption. discriminate.
  - rewrite isNegative_false, isZero_true in Hres by lra.
    cbn [Decimal.times] in Hres.
    rewrite isZero_false, isNegative_false in Hres by lra.
    discriminate.
Qed.





(** *** Marginal prices of a funded market *)

Lemma fold_max_ge (l : list Z) :
  forall x : Z, (x <= fold_left Z.max l x)%Z
    /\ forall s, In s l -> (s <= fold_left Z.max l x)%Z.
Proof.
  induction l as [| y l IH]; intros x; cbn [fold_left].
  - split; [lia | intros s []].
  - destruct (IH (Z.max x y)) as [H1 H2]. split; [lia |].
    intros s [<- | Hin]; [lia | now apply H2].
Qed.

Lemma fold_max_In (l : list Z) :
  forall x : Z, fold_left Z.max l x = x \/ In (fold_left Z.max l x) l.
Proof.
  induction l as [| y l IH]; intros x; cbn [fold_left].
  - now left.
  - destruct (IH (Z.max x y)) as [E | Hin].
    + rewrite E. destruct (Z.max_spec x y) as [[_ ->] | [_ ->]];
        [right; now left | now left].
    + right. now right.
Qed.

Lemma largest_ge (l : list Z) (s : Z) : In s l -> (s <= largest l)%Z.
Proof.
  destruct l as [| x l]; [intros [] |]. cbn [largest].
  destruct (fold_max_ge l x) as [H1 H2].
  intros [<- | Hin]; [exact H1 | now apply H2].
Qed.

Lemma largest_In (l : list Z) : l <> [] -> In (largest l) l.
Proof.
  destruct l as [| x l]; [congruence |]. intros _. cbn [largest].
  destruct (fold_max_In l x) as [-> | Hin]; [now left | now right].
Qed.

Lemma termShifted_mono (b off : R) (s s' : Z) (i j : nat) :
  0 < b -> (s <= s')%Z -> termShifted rnd b off s i <= termShifted rnd b off s' j.
Proof.
  intros Hb Hs. unfold termShifted. apply rnd_mono, exp_le_mono, rnd_mono.
  apply Rplus_le_compat_r, rnd_mono.
  apply Rmult_le_compat_r; [left; now apply Rinv_0_lt_compat |].
  now apply IZR_le.
Qed.

(** The exponential of the leading outcome is exactly 1. *)
Lemma termShifted_largest (b : R) (m : Z) (i : nat) :
  termShifted rnd b (rnd (IZR m / b)) m i = 1.
Proof.
  unfold termShifted. now rewrite Rminus_diag, rnd_0, exp_0, rnd_1.
Qed.

Lemma sumR_ge_1_from (term : Z -> nat -> R) :
  (forall s i, 0 <= term s i) ->
  forall l i acc, 1 <= acc -> 1 <= sumR rnd term i l acc.
Proof.
  intros Hterm l. induction l as [| s l IH]; intros i acc Hacc; cbn [sumR].
  - exact Hacc.
  - apply IH. rewrite <- rnd_1. apply rnd_mono.
    specialize (Hterm s i). lra.
Qed.

Lemma sumR_ge_1 (term : Z -> nat -> R) (m : Z) :
  (forall s i, 0 <= term s i) -> (forall i, term m i = 1) ->
  forall l i acc, 0 <= acc -> In m l -> 1 <= sumR rnd term i l acc.
Proof.
  intros Hterm Hm l. induction l as [| s l IH]; intros i acc Hacc Hin;
    [destruct Hin |].
  cbn [sumR]. destruct Hin as [-> | Hin].
  - apply sumR_ge_1_from; [assumption |].
    rewrite <- rnd_1. apply rnd_mono. rewrite Hm. lra.
  - apply IH; [| assumption]. apply rnd_nonneg.
    specialize (Hterm s i). lra.
Qed.

Lemma priceR_bounds (sold : list Z) (funding s : Z) :
  (2 <= length sold)%nat -> (0 < funding)%Z -> In s sold ->
  0 < priceR rnd sold funding s <= 1.
Proof.
  intros Hn Hfund Hin. unfold priceR.
  pose proof (bR_pos _ _ Hn Hfund) as Hb.
  set (b := bR rnd (length sold) funding) in *.
  set (off := rnd (IZR (largest sold) / b)).
  pose proof (nonempty_of_length _ Hn) as Hne.
  assert (Hsum : 1 <= sumR rnd (termShifted rnd b off) 0 sold 0).
  { apply (sumR_ge_1 _ (largest sold)).
    - intros x j. left. apply termShifted_pos.
    - intros j. apply termShifted_largest.
    - lra.
    - now apply largest_In. }
  pose proof (termShifted_pos b off s 0) as Hpos.
  assert (Hle : termShifted rnd b off s 0 <= 1).
  { rewrite <- (termShifted_largest b (largest sold) 0).
    apply termShifted_mono; [assumption | now apply largest_ge]. }
  set (t := termShifted rnd b off s 0) in *.
  set (den := sumR rnd (termShifted rnd b off) 0 sold 0) in *.
  split.
  - apply rnd_pos, Rdiv_lt_0_compat; lra.
  - rewrite <- rnd_1. apply rnd_mono.
    apply (Rmult_le_reg_r den); [lra |].
    replace (t / den * den) with t by (field; lra). lra.
Qed.

Lemma priceR_mono (sold : list Z) (funding s s' : Z) :
  (2 <= length sold)%nat -> (0 < funding)%Z -> (s <= s')%Z ->
  priceR rnd sold funding s <= priceR rnd sold funding s'.
Proof.
  intros Hn Hfund Hs. unfold priceR.
  pose proof (bR_pos _ _ Hn Hfund) as Hb.
  apply rnd_mono, Rmult_le_compat_r.
  - left. apply Rinv_0_lt_compat.
    apply sumR_pos; [apply termShifted_pos | lra | now apply nonempty_of_length].
  - now apply termShifted_mono.
Qed.


(** X6. On a funded market the marginal prices are ordered like the net
    amounts sold: an outcome with no more tokens sold than another has no
    higher price, whatever the rounding of the decimal context. *)
Theorem marginal_prices_ordered (sold : list Z) (funding : Z) (i j : nat)
    (s s' : Z) :
  (0 < funding)%Z ->
  nth_error sold i = Some s -> nth_error sold j = Some s' -> (s <= s')%Z ->
  (2 <= length sold)%nat ->
  exists p p' : R,
    calcLMSRMarginalPrice rnd sold funding (Z.of_nat i) = Ok (Fin p)
    /\ calcLMSRMarginalPrice rnd sold funding (Z.of_nat j) = Ok (Fin p')
    /\ p <= p'.
Proof.
  intros Hfund Hi Hj Hs Hn.
  exists (priceR rnd sold funding s), (priceR rnd sold funding s').
  split; [| split].
  - now apply calcLMSRMarginalPrice_eval.
  - now apply calcLMSRMarginalPrice_eval.
  - now apply priceR_mono.
Qed.

(** *** Uniform markets *)

Lemma sumR_ones (term : Z -> nat -> R) :
  forall l i (j : nat),
    (forall s i, In s l -> term s i = 1) ->
    (Z.of_nat (j + length l) < 10 ^ precision)%Z ->
    sumR rnd term i l (IZR (Z.of_nat j)) = IZR (Z.of_nat (j + length l)).
Proof.
  induction l as [| s l IH]; intros i j Hterm Hfit; cbn [sumR length].
  - now rewrite Nat.add_0_r.
  - rewrite (Hterm s i (or_introl eq_refl)). cbn [length] in Hfit.
    replace (IZR (Z.of_nat j) + 1) with (IZR (Z.of_nat (S j)))
      by (rewrite Nat2Z.inj_succ, succ_IZR; reflexivity).
    rewrite rnd_Z by lia.
    rewrite IH.
    + do 2 f_equal. lia.
    + intros x k Hin. apply Hterm. now right.
    + replace (S j + length l)%nat with (j + S (length l))%nat by lia.
      assumption.
Qed.

Lemma largest_repeat (s : Z) (n : nat) : (1 <= n)%nat -> largest (repeat s n) = s.
Proof.
  intros Hn. pose proof (largest_In (repeat s n)) as H.
  destruct n as [| n]; [lia |].
  specialize (H ltac:(discriminate)). now apply repeat_spec in H.
Qed.

(** X7. A funded market on which every outcome has the same net amount sold
    quotes the same price for every outcome, the rounded [1/n] that the
    unfunded special case returns, as long as the number of outcomes fits
    the precision. *)
Theorem uniform_market_price (s funding idx : Z) (n : nat) :
  validState (repeat s n) funding idx = true -> (0 < funding)%Z ->
  (Z.of_nat n < 10 ^ precision)%Z ->
  calcLMSRMarginalPrice rnd (repeat s n) funding idx
  = Ok (Fin (rnd (1 / IZR (Z.of_nat n))))
  /\ calcLMSRMarginalPrice rnd (repeat 0%Z n) 0 idx
     = Ok (Fin (rnd (1 / IZR (Z.of_nat n)))).
Proof.
  intros Hvalid Hfund Hfit.
  pose proof (proj1 (validState_spec _ _ _) Hvalid) as (Hn & _ & Hidx).
  rewrite repeat_length in Hn, Hidx.
  split.
  - assert (Hnth : nth_error (repeat s n) (Z.to_nat idx) = Some s).
    { rewrite nth_error_repeat by lia. reflexivity. }
    rewrite <- (Z2Nat.id idx) at 1 by lia.
    rewrite (calcLMSRMarginalPrice_eval _ _ _ s) by
      (rewrite ?repeat_length; assumption).
    unfold priceR. rewrite largest_repeat, repeat_length by lia.
    rewrite termShifted_largest.
    pose proof (sumR_ones
                  (termShifted rnd (bR rnd n funding)
                     (rnd (IZR s / bR rnd n funding)))
                  (repeat s n) 0 0) as E.
    rewrite repeat_length in E. cbn [Nat.add Z.of_nat] in E.
    rewrite E; [reflexivity | | lia].
    intros x j Hin. apply repeat_spec in Hin. subst x.
    apply termShifted_largest.
  - unfold calcLMSRMarginalPrice, normalizeWeb3Args3.
    assert (Hv0 : validState (repeat 0%Z n) 0 idx = true).
    { apply validState_spec. rewrite repeat_length. lia. }
    rewrite Hv0. cbn [bind].
    assert (Hall : forallb (fun q => (q =? 0)%Z) (repeat 0%Z n) = true).
    { apply forallb_forall. intros x Hx. apply repeat_spec in Hx. now subst. }
    rewrite Hall, repeat_length. cbn [Z.eqb andb].
    unfold Decimal.ofZ. rewrite dividedBy_Fin; [reflexivity |].
    apply not_0_IZR. lia.
Qed.

(** X8. On the unfunded market with nothing sold every outcome has the
    price [1/n], rounded once, and the [n] prices add up to 1 within one
    relative rounding error. *)
Theorem unfunded_fresh_market_prices (sold : list Z) :
  (2 <= length sold)%nat -> forallb (fun q => (q =? 0)%Z) sold = true ->
  exists p : R,
    (forall idx : Z, (0 <= idx < Z.of_nat (length sold))%Z ->
       calcLMSRMarginalPrice rnd sold 0 idx = Ok (Fin p))
    /\ 1 - u <= IZR (Z.of_nat (length sold)) * p <= 1 + u.
Proof.
  intros Hn Hall.
  set (n := IZR (Z.of_nat (length sold))).
  assert (Hnpos : 0 < n) by (apply (IZR_lt 0); lia).
  exists (rnd (1 / n)). split.
  - intros idx Hidx. unfold calcLMSRMarginalPrice, normalizeWeb3Args3.
    assert (Hv : validState sold 0 idx = true) by (apply validState_spec; lia).
    rewrite Hv. cbn [bind]. rewrite Hall. cbn [Z.eqb andb].
    unfold Decimal.ofZ. rewrite dividedBy_Fin; [reflexivity | fold n; lra].
  - assert (Hq : 0 <= 1 / n) by (left; apply Rdiv_lt_0_compat; lra).
    pose proof (rnd_lower _ Hq) as Hlow. pose proof (rnd_upper _ Hq) as Hup.
    apply (Rmult_le_compat_l n) in Hlow; [| lra].
    apply (Rmult_le_compat_l n) in Hup; [| lra].
    replace (n * ((1 - u) * (1 / n))) with (1 - u) in Hlow by (field; lra).
    replace (n * ((1 + u) * (1 / n))) with (1 + u) in Hup by (field; lra).
    lra.
Qed.

(** *** Unfunded markets: division by the zero liquidity parameter *)

Lemma dividedBy_NaN (d : Decimal.t) : Ddiv d NaN = NaN.
Proof. now destruct d. Qed.

Lemma plus_NaN_r (d : Decimal.t) : Dplus d NaN = NaN.
Proof. now destruct d. Qed.

Lemma reduce_from_NaN {A : Type} (g : A -> Decimal.t) :
  forall (l : list A) (i : nat),
    reduce_from (fun acc x (_ : nat) => Dplus acc (g x)) i l NaN = NaN.
Proof.
  induction l as [| x l IH]; intros i; cbn [reduce_from]; [reflexivity |].
  apply IH.
Qed.

Lemma reduce_from_NaN_term {A : Type} (g : A -> Decimal.t) (m : A) :
  g m = NaN ->
  forall (l : list A) (i : nat) (acc : Decimal.t),
    In m l -> reduce_from (fun acc x (_ : nat) => Dplus acc (g x)) i l acc = NaN.
Proof.
  intros Hm l. induction l as [| x l IH]; intros i acc Hin; [destruct Hin |].
  cbn [reduce_from]. destruct Hin as [-> | Hin].
  - rewrite Hm, plus_NaN_r. apply reduce_from_NaN.
  - now apply IH.
Qed.

(** Any integer over zero, minus itself, is NaN. *)
Lemma over_zero_minus_itself (m : Z) :
  Dminus (Ddiv (ofZ m) (Fin 0)) (Ddiv (ofZ m) (Fin 0)) = NaN.
Proof.
  unfold Decimal.ofZ, Decimal.dividedBy. rewrite (isZero_true 0) by reflexivity.
  destruct (Decimal.isZero (IZR m)); [reflexivity |].
  now destruct (Decimal.isNegative (IZR m)).
Qed.

(** X9. On an unfunded market with some non-zero entry every marginal price
    is NaN, whatever the index: the liquidity parameter is 0, and the
    exponent of the leading outcome is an infinity minus itself (or 0/0). *)
Theorem unfunded_traded_market_prices (sold : list Z) (idx : Z) :
  validState sold 0 idx = true ->
  forallb (fun q => (q =? 0)%Z) sold = false ->
  calcLMSRMarginalPrice rnd sold 0 idx = Ok NaN.
Proof.
  intros Hvalid Hsome.
  pose proof (proj1 (validState_spec _ _ _) Hvalid) as (Hn & _ & Hidx).
  pose proof (nonempty_of_length _ Hn) as Hne.
  unfold calcLMSRMarginalPrice, normalizeWeb3Args3.
  rewrite Hvalid. cbn [bind]. rewrite Hsome. cbn [Z.eqb andb].
  rewrite (liquidityParameter_unfunded _ Hn), (max_ofZ _ Hne). cbn [bind].
  destruct (nth_error sold (Z.to_nat idx)) as [s |] eqn:Hnth;
    [| apply nth_error_None in Hnth; lia].
  unfold reduce.
  rewrite (reduce_from_NaN_term
             (fun x => Dexp (Dminus (Ddiv (ofZ x) (Fin 0))
                                    (Ddiv (ofZ (largest sold)) (Fin 0))))
             (largest sold)).
  - now rewrite dividedBy_NaN.
  - now rewrite over_zero_minus_itself.
  - now apply largest_In.
Qed.

Lemma exp_over_zero (d : Decimal.t) : degenerate (Dexp (Ddiv d (Fin 0))).
Proof.
  unfold degenerate, Decimal.dividedBy.
  destruct d as [a | | |]; rewrite ?(isZero_true 0) by reflexivity.
  - destruct (Decimal.isZero a); [now right; right |].
    destruct (Decimal.isNegative a); cbn; [now left | now right; left].
  - rewrite isNegative_false by lra. now right; left.
  - rewrite isNegative_false by lra. now left.
  - now right; right.
Qed.

Lemma plus_degenerate (x y : Decimal.t) :
  degenerate x -> degenerate y -> degenerate (Dplus x y).
Proof.
  unfold degenerate.
  intros [-> | [-> | ->]] [-> | [-> | ->]]; cbn [Decimal.plus]; auto.
  rewrite Rplus_0_r, rnd_0. now left.
Qed.

Lemma reduce_from_degenerate {A : Type} (skip : nat -> bool) (g : A -> Decimal.t) :
  (forall x, degenerate (g x)) ->
  forall (l : list A) (i : nat) (acc : Decimal.t),
    degenerate acc ->
    degenerate
      (reduce_from (fun acc x j => if skip j then acc else Dplus acc (g x))
         i l acc).
Proof.
  intros Hg l. induction l as [| x l IH]; intros i acc Hacc; cbn [reduce_from].
  - exact Hacc.
  - apply IH. destruct (skip i); [exact Hacc |]. now apply plus_degenerate.
Qed.

Lemma zero_times_ln_degenerate_difference (x y : Decimal.t) :
  degenerate x -> degenerate y ->
  Dtimes (Fin 0) (Dln (Dminus x y)) = NaN.
Proof.
  unfold degenerate.
  intros [-> | [-> | ->]] [-> | [-> | ->]];
    cbn [Decimal.minus Decimal.ln Decimal.times]; try reflexivity.
  - rewrite Rminus_diag, rnd_0.
    rewrite isNegative_false, (isZero_true 0) by (reflexivity || lra).
    cbn [Decimal.times]. now rewrite ?(isZero_true 0) by reflexivity.
  - now rewrite (isZero_true 0).
Qed.

(** X10. On an unfunded market [calcLMSROutcomeTokenCount] returns NaN on
    every valid input: it raises nothing and never returns a number, since
    the zero liquidity parameter multiplies a logarithm that is infinite or
    NaN. *)
Theorem unfunded_count_is_NaN (sold : list Z) (idx c f : Z) :
  validState sold 0 idx = true -> (0 <= c)%Z -> validFee f = true ->
  calcLMSROutcomeTokenCount rnd sold 0 idx c (Some f) = Ok NaN.
Proof.
  intros Hvalid Hc Hfee.
  pose proof (proj1 (validState_spec _ _ _) Hvalid) as (Hn & _ & Hidx).
  unfold calcLMSROutcomeTokenCount.
  rewrite (normalizeWeb3Args_valid _ _ _ _ _ Hvalid Hc Hfee). cbn [bind].
  destruct (nth_error sold (Z.to_nat idx)) as [s |] eqn:Hnth;
    [| apply nth_error_None in Hnth; lia].
  rewrite (liquidityParameter_unfunded _ Hn).
  unfold outcomeTokenCountLogArg, reduce.
  rewrite zero_times_ln_degenerate_difference; [reflexivity | |].
  - apply (reduce_from_degenerate (fun _ => false)
             (fun x => Dexp (Ddiv (Dplus (ofZ x)
                                     (Ddiv (ofZ c)
                                        (Dplus (ofZ 1)
                                           (Ddiv (ofZ f) (ofZ 1000000)))))
                               (Fin 0)))).
    + intros x. apply exp_over_zero.
    + now left.
  - apply (reduce_from_degenerate (fun j => (Z.of_nat j =? idx)%Z)
             (fun x => Dexp (Ddiv (ofZ x) (Fin 0)))).
    + intros x. apply exp_over_zero.
    + now left.
Qed.

(** *** The inversion against the fee factor *)

Lemma termPaid_fee_mono (b : R) (c f g s : Z) (i : nat) :
  0 < b -> (0 <= c)%Z -> (0 <= f <= g)%Z ->
  termPaid rnd b c g s i <= termPaid rnd b c f s i.
Proof.
  intros Hb Hc [Hf Hfg]. unfold termPaid.
  pose proof (feeUp_ge_1 f Hf) as Hfee. pose proof (feeUp_mono f g Hfg) as Hmono.
  apply rnd_mono, exp_le_mono, rnd_mono.
  apply Rmult_le_compat_r; [left; now apply Rinv_0_lt_compat |].
  apply rnd_mono, Rplus_le_compat_l, rnd_mono.
  apply Rmult_le_compat_l; [now apply IZR_le |].
  apply Rinv_le_contravar; lra.
Qed.

Lemma logArgR_fee_mono (sold : list Z) (funding idx c f g : Z) :
  (2 <= length sold)%nat -> (0 < funding)%Z -> (0 <= c)%Z ->
  (0 <= f <= g)%Z ->
  logArgR rnd sold funding idx c g <= logArgR rnd sold funding idx c f.
Proof.
  intros Hn Hfund Hc Hfg. unfold logArgR.
  set (b := bR rnd (length sold) funding).
  assert (Hb : 0 < b) by (now apply bR_pos).
  apply rnd_mono, Rplus_le_compat_r.
  apply sumR_mono; [| lra]. intros s j _. now apply termPaid_fee_mono.
Qed.


(** *** The fresh two-outcome market funded with 1 *)

Lemma termPaid_nothing (b : R) (f s : Z) (i : nat) :
  (Z.abs s < 10 ^ precision)%Z ->
  termPaid rnd b 0 f s i = termPlain rnd b s i.
Proof.
  intros Hs. unfold termPaid, termPlain.
  unfold Rdiv at 2. rewrite Rmult_0_l, rnd_0, Rplus_0_r.
  now rewrite rnd_Z.
Qed.

Lemma rnd_2 : rnd 2 = 2.
Proof.
  apply (rnd_Z 2). pose proof (ctx_precision _ _ _ ctx) as Hp.
  apply Z.lt_le_trans with (10 ^ 1)%Z; [reflexivity |].
  apply Z.pow_le_mono_r; lia.
Qed.

Lemma logArgR_fresh (f : Z) : logArgR rnd [0%Z; 0%Z] 1 0 0 f = 1.
Proof.
  assert (H0 : (Z.abs 0 < 10 ^ precision)%Z).
  { pose proof (ctx_precision _ _ _ ctx) as Hp.
    apply Z.lt_le_trans with (10 ^ 1)%Z; [reflexivity |].
    apply Z.pow_le_mono_r; lia. }
  unfold logArgR.
  cbn [length sumR sumSkipR Z.of_nat Z.eqb Pos.of_succ_nat].
  rewrite !termPaid_nothing, !termPlain_zero by assumption.
  rewrite !Rplus_0_l, rnd_1.
  replace (1 + 1) with 2 by lra. rewrite rnd_2.
  replace (2 - 1) with 1 by lra. apply rnd_1.
Qed.

(** On it, nothing buys nothing, at every fee factor. *)
Lemma count_fresh_market (f : Z) :
  validFee f = true ->
  calcLMSROutcomeTokenCount rnd [0%Z; 0%Z] 1 0 0 (Some f) = Ok (ofZ 0).
Proof.
  intros Hfee.
  rewrite (calcLMSROutcomeTokenCount_eval _ _ _ _ _ 0%Z)
    by (reflexivity || lia || assumption || (rewrite logArgR_fresh; lra)).
  rewrite logArgR_fresh, ln_1, rnd_0, Rmult_0_r, rnd_0, Rminus_0_r, rnd_0.
  unfold Decimal.ofZ. do 3 f_equal. apply Zfloor_eq. lra.
Qed.

End Contract.

(** ** The inverse on a non-positive logarithm argument *)

Section UndefinedInverse.

Variable rnd : R -> R.

Lemma times_NaN (b : Decimal.t) : Decimal.times rnd b NaN = NaN.
Proof. now destruct b. Qed.

Lemma times_NInf_not_finite (b : Decimal.t) :
  Decimal.isFinite (Decimal.times rnd b NInf) = false.
Proof.
  destruct b as [a | | |]; cbn [Decimal.times]; try reflexivity.
  destruct (Decimal.isZero a); [reflexivity |].
  now destruct (Decimal.isNegative a).
Qed.

Lemma floor_minus_not_finite (d : Decimal.t) (s : Z) :
  Decimal.isFinite d = false ->
  Decimal.isFinite (floor (Decimal.minus rnd d (ofZ s))) = false.
Proof. destruct d; [discriminate | reflexivity ..]. Qed.

Lemma ln_nonPositive (d : Decimal.t) :
  nonPositive d -> Decimal.ln rnd d = NaN \/ Decimal.ln rnd d = NInf.
Proof.
  destruct d as [x | | |]; cbn [nonPositive Decimal.ln]; intros H;
    try contradiction; [| now left].
  unfold Decimal.isNegative, Decimal.isZero.
  destruct (Rlt_dec x 0); [now left |].
  destruct (Req_dec_T x 0); [now right | lra].
Qed.


End UndefinedInverse.

(** ** Invalid inputs *)

Section InvalidInputs.

Variable rnd : R -> R.

Lemma invalidState_rejected (sold : list Z) (funding idx : Z) :
  invalidState sold funding idx -> validState sold funding idx = false.
Proof.
  intros H. apply not_true_is_false. intros Hv.
  apply validState_spec in Hv. unfold invalidState in H. lia.
Qed.

Lemma normalizeWeb3Args_invalid (sold : list Z) (funding idx amount fee : Z) :
  invalidInput sold funding idx amount fee ->
  normalizeWeb3Args sold funding idx amount (Some fee) = Err InvalidInput.
Proof.
  intros [Hs | [Ha | Hf]]; unfold normalizeWeb3Args.
  - now rewrite (invalidState_rejected _ _ _ Hs).
  - replace (validAmount amount) with false.
    + now rewrite andb_false_r.
    + symmetry. apply not_true_is_false. rewrite validAmount_spec. lia.
  - replace (validFee fee) with false.
    + now rewrite andb_false_r.
    + symmetry. apply not_true_is_false. rewrite validFee_spec. lia.
Qed.

(** C6. Called with an invalid input (fewer than two outcomes, an index
    outside [0, n), a negative funding, token count or cost, a fee factor
    outside [0, 1e6)), each of the four pricing operations raises
    InvalidInput, whatever the decimal context: no arithmetic takes part in
    the outcome and no value is clamped or ignored. *)
Theorem invalid_input_raises (sold : list Z) (funding idx amount fee : Z) :
  invalidInput sold funding idx amount fee ->
  calcLMSRCost rnd sold funding idx amount (Some fee) = Err InvalidInput
  /\ calcLMSRProfit rnd sold funding idx amount (Some fee) = Err InvalidInput
  /\ calcLMSROutcomeTokenCount rnd sold funding idx amount (Some fee)
     = Err InvalidInput
  /\ (invalidState sold funding idx ->
      calcLMSRMarginalPrice rnd sold funding idx = Err InvalidInput).
Proof.
  intros H. pose proof (normalizeWeb3Args_invalid _ _ _ _ _ H) as Hn.
  unfold calcLMSRCost, calcLMSRProfit, calcLMSROutcomeTokenCount,
    calcLMSRMarginalPrice, normalizeWeb3Args3.
  rewrite Hn. cbn [bind]. repeat split.
  intros Hs. now rewrite (invalidState_rejected _ _ _ Hs).
Qed.

End InvalidInputs.

(** ** The default gas of the contract abstractions *)

Section GasDefaults.

Import Gnosis.

Local Abbreviation larger :=
  (fun a b =>
     match a, b with
     | NegInfinity, x | x, NegInfinity => x
     | Num x, Num y => Num (Z.max x y)
     end).

Lemma fold_larger_ge (l : list number) :
  forall (acc : number) (z : Z),
    acc = Num z \/ In (Num z) l ->
    exists M : Z, fold_left larger l acc = Num M /\ (z <= M)%Z.
Proof.
  induction l as [| x l IH]; intros acc z H; cbn [fold_left].
  - destruct H as [-> | []]. exists z. split; [reflexivity | lia].
  - destruct H as [-> | [-> | Hin]].
    + destruct x as [| y].
      * apply IH. now left.
      * destruct (IH (Num (Z.max z y)) (Z.max z y) (or_introl eq_refl))
          as (M & HM & Hle).
        exists M. split; [exact HM | lia].
    + destruct acc as [| a].
      * apply IH. now left.
      * destruct (IH (Num (Z.max a z)) (Z.max a z) (or_introl eq_refl))
          as (M & HM & Hle).
        exists M. split; [exact HM | lia].
    + apply IH. now right.
Qed.

Lemma fold_larger_In (l : list number) :
  forall (acc : number) (M : Z),
    fold_left larger l acc = Num M -> acc = Num M \/ In (Num M) l.
Proof.
  induction l as [| x l IH]; intros acc M H; cbn [fold_left] in H.
  - now left.
  - apply IH in H. destruct H as [H | H]; [| right; now right].
    destruct acc as [| a], x as [| y]; try discriminate.
    + right. left. exact H.
    + now left.
    + injection H as H.
      destruct (Z.max_spec a y) as [[_ E] | [_ E]]; rewrite E in H; subst M.
      * right. now left.
      * now left.
Qed.

Lemma mathMax_ge (l : list number) (z : Z) :
  In (Num z) l -> exists M : Z, mathMax l = Num M /\ (z <= M)%Z.
Proof. intros H. apply fold_larger_ge. now right. Qed.

Lemma mathMax_In (l : list number) (M : Z) :
  mathMax l = Num M -> In (Num M) l.
Proof.
  intros H. apply fold_larger_In in H. destruct H as [H | H];
    [discriminate | exact H].
Qed.

Lemma toInt32_small (x : Z) : (0 <= x < 2 ^ 31)%Z -> toInt32 x = x.
Proof.
  intros H. unfold toInt32.
  replace ((x + 2 ^ 31) mod 2 ^ 32)%Z with (x + 2 ^ 31)%Z; [lia |].
  symmetry. apply Z.mod_small. lia.
Qed.

(** X16. The constructor sets a default gas on a contract abstraction
    exactly when one of the recorded maxima it takes into account (those of
    the contract's own functions and of the interfaces it implements) is
    positive, and a default that is set never exceeds the gas limit of
    4,000,000. *)
Theorem gasDefault_set_iff (cs : list (String.string * Contract))
    (name : String.string) (c : Contract) (inherited : list number) :
  interfaceMaxima cs (implementationInterfaceMap name) = Ok inherited ->
  ((exists gas : Z, gasDefault cs name c = Ok (Some gas))
   <-> exists g : Z, In (Num g) (maxima c ++ inherited) /\ (0 < g)%Z)
  /\ forall gas : Z,
       gasDefault cs name c = Ok (Some gas) -> (gas <= gasLimit)%Z.
Proof.
  intros Hinh. unfold gasDefault, maxGasCost. rewrite Hinh. cbn [bind].
  destruct (mathMax (maxima c ++ inherited)) as [| M] eqn:HM.
  - split; [split |].
    + intros [gas H]. discriminate.
    + intros (g & Hin & _). apply mathMax_ge in Hin.
      destruct Hin as (M & HM' & _). congruence.
    + intros gas H. discriminate.
  - destruct (Z.ltb_spec 0 M) as [Hpos | Hneg].
    + split; [split |].
      * intros _. exists M. split; [now apply mathMax_In | exact Hpos].
      * intros _. eexists. reflexivity.
      * intros gas H. injection H as <-. apply Z.le_min_l.
    + split; [split |].
      * intros [gas H]. discriminate.
      * intros (g & Hin & Hg). apply mathMax_ge in Hin.
        destruct Hin as (M' & HM' & Hle). rewrite HM in HM'.
        injection HM' as <-. lia.
      * intros gas H. discriminate.
Qed.

(** X17. As long as every recorded maximum is below 2^30, the default gas
    covers each of them up to the gas limit: for a function whose recorded
    maximum is [g > 0], the default is set and lies between
    [min g 4,000,000] and 4,000,000. *)
Theorem gasDefault_covers (cs : list (String.string * Contract))
    (name : String.string) (c : Contract) (inherited : list number) (g : Z) :
  interfaceMaxima cs (implementationInterfaceMap name) = Ok inherited ->
  In (Num g) (maxima c ++ inherited) -> (0 < g)%Z ->
  (forall z : Z, In (Num z) (maxima c ++ inherited) -> (z < 2 ^ 30)%Z) ->
  exists gas : Z,
    gasDefault cs name c = Ok (Some gas)
    /\ (Z.min g gasLimit <= gas <= gasLimit)%Z.
Proof.
  intros Hinh Hin Hg Hsmall. unfold gasDefault, maxGasCost.
  rewrite Hinh. cbn [bind].
  destruct (mathMax_ge _ _ Hin) as (M & HM & Hle). rewrite HM.
  pose proof (Hsmall M (mathMax_In _ _ HM)) as HMs.
  destruct (Z.ltb_spec 0 M) as [Hpos | Hneg]; [| lia].
  eexists. split; [reflexivity |].
  unfold gasDefaultMaxMultiplier. rewrite toInt32_small by lia.
  unfold gasLimit. lia.
Qed.

End GasDefaults.

(** ** Importing contracts *)

Section ImportContractsFacts.

Import Gnosis.

Context {Artifact Abstraction Provider Account : Type}.
Variable truffleContract :
  Artifact -> Provider -> option Account -> Abstraction.

Local Abbreviation instance := (@instance Abstraction Provider Account).
Local Abbreviation register := (register truffleContract).
Local Abbreviation importContracts := (importContracts truffleContract).

Lemma lookup_setProperty_other {A : Type} (o : list (String.string * A))
    (key name : String.string) (v : A) :
  key <> name -> lookup name (setProperty o key v) = lookup name o.
Proof.
  intros Hne. induction o as [| [k w] o IH]; cbn [setProperty lookup].
  - destruct (String.eqb_spec key name); [contradiction | reflexivity].
  - destruct (String.eqb_spec k key) as [-> | Hk]; cbn [lookup].
    + destruct (String.eqb_spec key name); [contradiction | reflexivity].
    + destruct (String.eqb_spec k name); [reflexivity | exact IH].
Qed.

Lemma setProperty_absent {A : Type} (o : list (String.string * A))
    (key : String.string) (v : A) :
  lookup key o = None -> setProperty o key v = o ++ [(key, v)].
Proof.
  induction o as [| [k w] o IH]; cbn [setProperty lookup app]; intros H.
  - reflexivity.
  - destruct (String.eqb_spec k key) as [-> | Hk]; [discriminate |].
    now rewrite IH.
Qed.

Lemma register_keeps (artifacts : list (String.string * Artifact)) :
  forall (this : instance) (name : String.string) (c : Abstraction),
    lookup name (contracts this) = Some c ->
    lookup name (contracts (fst (register artifacts this))) = Some c.
Proof.
  induction artifacts as [| [n a] rest IH]; intros this name c H;
    cbn [Gnosis.register fst].
  - exact H.
  - destruct (lookup n (contracts this)) eqn:Hn; [exact H |].
    destruct (web3 this) as [provider |]; [| exact H].
    apply IH. cbn [withContracts contracts].
    rewrite lookup_setProperty_other; [exact H |].
    intros ->. congruence.
Qed.


Lemma lookup_app_absent {A : Type} (o : list (String.string * A))
    (key name : String.string) (v : A) :
  key <> name -> lookup name (o ++ [(key, v)]) = lookup name o.
Proof.
  intros Hne. induction o as [| [k w] o IH]; cbn [app lookup].
  - destruct (String.eqb_spec key name); [contradiction | reflexivity].
  - destruct (String.eqb_spec k name); [reflexivity | exact IH].
Qed.

Lemma register_until_clash (provider : Provider) (clash : String.string)
    (artifact : Artifact) (post : list (String.string * Artifact)) :
  forall (pre : list (String.string * Artifact)) (this : instance)
         (c : Abstraction),
    web3 this = Some provider ->
    NoDup (map fst pre) ->
    (forall n, In n (map fst pre) -> lookup n (contracts this) = None) ->
    lookup clash (contracts this) = Some c ->
    register (pre ++ (clash, artifact) :: post) this
    = (withContracts this
         (contracts this
          ++ map (fun na =>
                    (fst na,
                     truffleContract (snd na) provider
                       (defaultAccount this)))
               pre),
       Some (ErrorThrown
               (String.append "custom contract "
                  (String.append clash " already exists in contract set!")))).
Proof.
  induction pre as [| [n a] pre IH]; intros this c Hweb Hnodup Hfresh Hclash;
    cbn [app Gnosis.register map].
  - rewrite Hclash, app_nil_r. destruct this; reflexivity.
  - rewrite (Hfresh n (or_introl eq_refl)), Hweb.
    rewrite setProperty_absent by (apply Hfresh; now left).
    cbn [map fst] in Hnodup. apply NoDup_cons_iff in Hnodup.
    destruct Hnodup as [Hnotin Hnodup].
    rewrite (IH _ c); cbn [withContracts contracts web3 defaultAccount
                            instanceNames fst snd].
    + now rewrite <- app_assoc.
    + exact Hweb.
    + exact Hnodup.
    + intros m Hm. rewrite lookup_app_absent.
      * apply Hfresh. now right.
      * intros ->. contradiction.
    + rewrite lookup_app_absent; [exact Hclash |].
      intros ->. rewrite (Hfresh clash (or_introl eq_refl)) in Hclash.
      discriminate.
Qed.


End ImportContractsFacts.

(** ** Exact arithmetic *)

Section Exact.

Open Scope R_scope.

Lemma exact_ctx : DecimalContext exact 1 0.
Proof. apply exact_context. lia. Qed.

Lemma sumR_exact (term : Z -> nat -> R) :
  forall l i acc, sumR exact term i l acc = acc + total term i l.
Proof.
  induction l as [| s l IH]; intros i acc; cbn [sumR total].
  - lra.
  - rewrite IH. unfold exact. lra.
Qed.

Lemma sumSkipR_exact (term : Z -> nat -> R) (idx : Z) :
  forall l i acc,
    sumSkipR exact term idx i l acc
    = acc + total (fun s j => if (Z.of_nat j =? idx)%Z then 0 else term s j) i l.
Proof.
  induction l as [| s l IH]; intros i acc; cbn [sumSkipR total].
  - lra.
  - rewrite IH. destruct (Z.of_nat i =? idx)%Z; unfold exact; lra.
Qed.

Lemma total_ext (t1 t2 : Z -> nat -> R) :
  (forall s j, t1 s j = t2 s j) ->
  forall l i, total t1 i l = total t2 i l.
Proof.
  intros H l. induction l as [| s l IH]; intros i; cbn [total].
  - reflexivity.
  - now rewrite H, IH.
Qed.

Lemma total_scale (c : R) (t : Z -> nat -> R) :
  forall l i, total (fun s j => c * t s j) i l = c * total t i l.
Proof.
  induction l as [| s l IH]; intros i; cbn [total].
  - lra.
  - rewrite IH. lra.
Qed.

Lemma total_pos (t : Z -> nat -> R) :
  (forall s j, 0 < t s j) -> forall l i, l <> [] -> 0 < total t i l.
Proof.
  intros Ht l. induction l as [| s l IH]; intros i Hl; [congruence |].
  cbn [total]. specialize (Ht s i).
  destruct l as [| s' l']; [cbn [total]; lra |].
  specialize (IH (S i) ltac:(discriminate)). lra.
Qed.

Lemma termShifted_exact (b m : R) (s : Z) (j : nat) :
  termShifted exact b m s j = exp (- m) * termPlain exact b s j.
Proof.
  unfold termShifted, termPlain, exact.
  unfold Rminus. rewrite exp_plus. lra.
Qed.

Lemma shifted_ratio_exact (b m : R) (s : Z) (sold : list Z) :
  sold <> [] ->
  termShifted exact b m s 0 / sumR exact (termShifted exact b m) 0 sold 0
  = termPlain exact b s 0 / sumR exact (termPlain exact b) 0 sold 0.
Proof.
  intros Hne. rewrite !sumR_exact, !Rplus_0_l.
  rewrite (total_ext _ _ (termShifted_exact b m)), total_scale.
  rewrite termShifted_exact.
  assert (0 < total (termPlain exact b) 0 sold).
  { apply total_pos; [| assumption].
    intros s' j. unfold termPlain, exact. apply exp_pos. }
  pose proof (exp_pos (- m)). field. lra.
Qed.

(** C9. On a funded market and for an index in range, the shifted form used
    by [calcLMSRMarginalPrice] returns, over exact arithmetic, the unshifted
    ratio [exp (sold_i/b) / Σ_j exp (sold_j/b)]; whatever offset [m] is
    subtracted inside the exponentials, the ratio is the same. *)
Theorem shifted_price_is_unshifted (sold : list Z) (funding idx : Z) :
  validState sold funding idx = true -> (0 < funding)%Z ->
  calcLMSRMarginalPrice exact sold funding idx
  = Ok (unshiftedRatio exact sold funding (Z.to_nat idx))
  /\ forall m : R,
       shiftedRatio exact sold funding (Z.to_nat idx) (Fin m)
       = unshiftedRatio exact sold funding (Z.to_nat idx).
Proof.
  intros Hvalid Hfund.
  pose proof (proj1 (validState_spec _ _ _) Hvalid) as (Hn & _ & Hidx).
  pose proof (nonempty_of_length _ Hn) as Hne.
  rewrite (unshiftedRatio_Fin _ _ _ exact_ctx _ _ _ Hn Hfund).
  split.
  - destruct (nth_error sold (Z.to_nat idx)) as [s |] eqn:Hnth.
    + rewrite <- (Z2Nat.id idx) at 1 by lia.
      rewrite (calcLMSRMarginalPrice_eval _ _ _ exact_ctx _ _ _ _ Hn Hfund Hnth).
      rewrite (nth_error_nth _ _ 0%Z Hnth).
      unfold priceR, exact at 1 5.
      now rewrite shifted_ratio_exact.
    + apply nth_error_None in Hnth. lia.
  - intros m. rewrite (shiftedRatio_Fin _ _ _ exact_ctx _ _ _ _ Hn Hfund).
    unfold exact at 1 5. now rewrite shifted_ratio_exact.
Qed.

(** *** Round trip through cost and inversion *)

Lemma total_above (f g : Z -> R) (idx : nat) :
  forall l i, (idx < i)%nat ->
    total (fun x j => if (Z.of_nat j =? Z.of_nat idx)%Z then f x else g x) i l
    = total (fun x _ => g x) i l.
Proof.
  induction l as [| x l IH]; intros i Hi; cbn [total].
  - reflexivity.
  - destruct (Z.eqb_spec (Z.of_nat i) (Z.of_nat idx)) as [E | _]; [lia |].
    rewrite IH by lia. reflexivity.
Qed.

Lemma total_select (f g : Z -> R) (idx : nat) :
  forall l i s, (i <= idx)%nat -> nth_error l (idx - i) = Some s ->
    total (fun x j => if (Z.of_nat j =? Z.of_nat idx)%Z then f x else g x) i l
    = f s
      + total (fun x j => if (Z.of_nat j =? Z.of_nat idx)%Z then 0 else g x) i l.
Proof.
  induction l as [| x l IH]; intros i s Hi Hnth.
  - destruct (idx - i)%nat; discriminate.
  - cbn [total]. destruct (Nat.eq_dec i idx) as [-> | Hne].
    + rewrite Nat.sub_diag in Hnth. injection Hnth as ->.
      rewrite Z.eqb_refl, !total_above by lia. lra.
    + destruct (Z.eqb_spec (Z.of_nat i) (Z.of_nat idx)) as [E | _]; [lia |].
      replace (idx - i)%nat with (S (idx - S i)) in Hnth by lia.
      cbn [nth_error] in Hnth.
      rewrite (IH (S i) s) by (lia || assumption). lra.
Qed.

Lemma exact_b_pos (sold : list Z) (funding : Z) :
  (2 <= length sold)%nat -> (0 < funding)%Z ->
  0 < bR exact (length sold) funding.
Proof. apply (bR_pos _ _ _ exact_ctx). Qed.

(** The three sums of the round trip, in terms of the contribution [Y] of
    the other outcomes. *)
Lemma plain_total (b : R) (idx : nat) (sold : list Z) (s : Z) :
  nth_error sold idx = Some s ->
  total (termPlain exact b) 0 sold
  = exp (IZR s / b)
    + total (fun x j => if (Z.of_nat j =? Z.of_nat idx)%Z then 0
                        else termPlain exact b x j) 0 sold.
Proof.
  intros Hnth.
  etransitivity.
  - apply (total_ext _
             (fun x j => if (Z.of_nat j =? Z.of_nat idx)%Z
                         then exp (IZR x / b) else exp (IZR x / b))).
    intros x j. now destruct (Z.of_nat j =? Z.of_nat idx)%Z.
  - rewrite (total_select _ _ idx sold 0 s)
      by (rewrite ?Nat.sub_0_r; (lia || assumption)).
    reflexivity.
Qed.

Lemma buy_total (b : R) (idx : nat) (k : Z) (sold : list Z) (s : Z) :
  nth_error sold idx = Some s ->
  total (termBuy exact b (Z.of_nat idx) k) 0 sold
  = exp ((IZR s + IZR k) / b)
    + total (fun x j => if (Z.of_nat j =? Z.of_nat idx)%Z then 0
                        else termPlain exact b x j) 0 sold.
Proof.
  intros Hnth.
  etransitivity.
  - apply (total_ext _
             (fun x j => if (Z.of_nat j =? Z.of_nat idx)%Z
                         then exp ((IZR x + IZR k) / b) else exp (IZR x / b))).
    intros x j. unfold termBuy, selected, exact.
    destruct (Z.of_nat j =? Z.of_nat idx)%Z; [reflexivity |].
    now rewrite Rplus_0_r.
  - rewrite (total_select _ _ idx sold 0 s)
      by (rewrite ?Nat.sub_0_r; (lia || assumption)).
    reflexivity.
Qed.

Lemma feeUp_exact_0 : feeUp exact 0 = 1.
Proof. apply (feeUp_0 _ _ _ exact_ctx). Qed.

Lemma paid_total (b : R) (c : Z) (sold : list Z) :
  total (termPaid exact b c 0) 0 sold
  = exp (IZR c / b) * total (termPlain exact b) 0 sold.
Proof.
  rewrite <- total_scale. apply total_ext. intros x j.
  unfold termPaid, termPlain. rewrite feeUp_exact_0. unfold exact.
  rewrite <- exp_plus. f_equal. unfold Rdiv. rewrite Rinv_1. lra.
Qed.

Lemma costR_exact (sold : list Z) (funding : Z) (i : nat) (k f s : Z) :
  (0 < funding)%Z -> nth_error sold i = Some s ->
  let b := bR exact (length sold) funding in
  let Y := total (fun x j => if (Z.of_nat j =? Z.of_nat i)%Z then 0
                             else termPlain exact b x j) 0 sold in
  costR exact sold funding (Z.of_nat i) k f
  = b * (ln (exp ((IZR s + IZR k) / b) + Y) - ln (exp (IZR s / b) + Y))
    * feeUp exact f * eps1.
Proof.
  intros Hfund Hnth b Y. unfold costR, baseCostR.
  destruct (Z.eqb_spec funding 0) as [-> | _]; [lia |].
  fold b. rewrite !sumR_exact, !Rplus_0_l.
  rewrite (buy_total b i k sold s Hnth), (plain_total b i sold s Hnth).
  fold Y. unfold exact. lra.
Qed.

Lemma logArgR_exact (sold : list Z) (funding : Z) (i : nat) (c s : Z) :
  nth_error sold i = Some s ->
  let b := bR exact (length sold) funding in
  let Y := total (fun x j => if (Z.of_nat j =? Z.of_nat i)%Z then 0
                             else termPlain exact b x j) 0 sold in
  logArgR exact sold funding (Z.of_nat i) c 0
  = exp (IZR c / b) * (exp (IZR s / b) + Y) - Y.
Proof.
  intros Hnth b Y. unfold logArgR. fold b.
  rewrite sumR_exact, sumSkipR_exact, !Rplus_0_l.
  rewrite paid_total, (plain_total b i sold s Hnth).
  fold Y. reflexivity.
Qed.

Lemma others_nonneg (b : R) (idx : Z) :
  forall l i,
    0 <= total (fun x j => if (Z.of_nat j =? idx)%Z then 0
                           else termPlain exact b x j) i l.
Proof.
  induction l as [| x l IH]; intros i; cbn [total]; [lra |].
  specialize (IH (S i)).
  destruct (Z.of_nat i =? idx)%Z; [lra |].
  assert (0 < termPlain exact b x i) by (unfold termPlain, exact; apply exp_pos).
  lra.
Qed.

(** Paying at least the exact cost buys at least the tokens asked for. *)
Lemma inversion_covers (b e ek Y c : R) :
  0 < b -> 0 < e -> e <= ek -> 0 <= Y ->
  b * (ln (ek + Y) - ln (e + Y)) <= c ->
  ek <= exp (c / b) * (e + Y) - Y.
Proof.
  intros Hb He Hek HY Hc.
  assert (HP : 0 < e + Y) by lra. assert (HA : 0 < ek + Y) by lra.
  assert (Hq : ln (ek + Y) - ln (e + Y) <= c / b).
  { apply (Rmult_le_reg_l b); [assumption |].
    replace (b * (c / b)) with c by (field; lra). exact Hc. }
  apply exp_le_mono in Hq.
  unfold Rminus in Hq at 1. rewrite exp_plus, exp_Ropp, !exp_ln in Hq by assumption.
  assert (ek + Y <= exp (c / b) * (e + Y)); [| lra].
  apply (Rmult_le_compat_r (e + Y)) in Hq; [| lra].
  replace ((ek + Y) * / (e + Y) * (e + Y)) with (ek + Y) in Hq by (field; lra).
  exact Hq.
Qed.


(** *** Concrete markets *)

Lemma bR_exact_2 : bR exact 2 1 = / ln 2.
Proof. unfold bR, exact. cbn [Z.of_nat Pos.of_succ_nat Pos.succ]. lra. Qed.

Lemma over_inv_ln_2 (x : R) : x / / ln 2 = x * ln 2.
Proof. pose proof ln_2_bounds. field. lra. Qed.

Lemma exp_ln_2 : exp ((0 + 1) / / ln 2) = 2.
Proof. rewrite over_inv_ln_2, Rplus_0_l, Rmult_1_l. apply exp_ln. lra. Qed.

Lemma exp_0_over (b : R) : exp (0 / b) = 1.
Proof. unfold Rdiv. rewrite Rmult_0_l. apply exp_0. Qed.

Lemma other_outcome_ge_1 (M : Z) (j : nat) :
  (0 <= M)%Z -> 1 <= termPlain exact (/ ln 2) M j.
Proof.
  intros HM. unfold termPlain, exact. rewrite over_inv_ln_2, <- exp_0.
  apply exp_le_mono. apply IZR_le in HM. pose proof ln_2_bounds. nra.
Qed.

(** One token of the first of two outcomes, funding 1: the exact cost lies
    in (0, 1], whatever the other outcome's balance [E >= 1] and for a fee
    multiplier up to [1 + 1e-6]. *)
Lemma cost_example_real (E phi : R) :
  1 <= E -> 1 <= phi <= 1 + / 1000000 ->
  0 < / ln 2 * (ln (2 + E) - ln (1 + E)) * phi * eps1 <= 1.
Proof.
  intros HE Hphi. pose proof ln_2_bounds as HL. pose proof ln_3_bound as H3.
  set (D := ln (2 + E) - ln (1 + E)).
  assert (HD0 : 0 < D).
  { assert (ln (1 + E) < ln (2 + E)) by (apply ln_increasing; lra).
    unfold D. lra. }
  assert (HD : D <= ln 2 / 2 + / 16).
  { assert (ln 2 + ln (2 + E) <= ln 3 + ln (1 + E)).
    { rewrite <- !ln_mult by lra. apply ln_le_mono; lra. }
    unfold D. lra. }
  assert (Ht : D * phi <= (ln 2 / 2 + / 16) * (1 + / 1000000))
    by (apply Rmult_le_compat; lra).
  assert (Ht0 : 0 < D * phi) by (apply Rmult_lt_0_compat; lra).
  replace (/ ln 2 * D * phi * eps1) with (D * phi * eps1 / ln 2)
    by (field; lra).
  unfold eps1. split.
  - apply Rdiv_lt_0_compat; lra.
  - apply (Rmult_le_reg_r (ln 2)); [lra |].
    replace (D * phi * (IZR 1000000001 / IZR 1000000000) / ln 2 * ln 2)
      with (D * phi * (IZR 1000000001 / IZR 1000000000)) by (field; lra).
    lra.
Qed.

Lemma feeUp_exact_small (f : Z) :
  (0 <= f <= 1)%Z -> 1 <= feeUp exact f <= 1 + / 1000000.
Proof.
  intros [H0 H1]. unfold feeUp, exact. apply IZR_le in H0, H1. lra.
Qed.

Lemma cost_example (M f : Z) :
  (0 <= M)%Z -> (0 <= f <= 1)%Z ->
  calcLMSRCost exact [0%Z; M] 1 0 1 (Some f) = Ok (ofZ 1).
Proof.
  intros HM Hf.
  rewrite (calcLMSRCost_eval _ _ _ exact_ctx) by
    (reflexivity || lia || (apply validFee_spec; lia)).
  unfold Decimal.ofZ. do 3 f_equal. apply Zceil_eq.
  pose proof (costR_exact [0%Z; M] 1 0%nat 1 f 0%Z ltac:(lia) eq_refl) as E.
  cbv zeta in E.
  cbn [length total Z.of_nat Z.eqb Pos.of_succ_nat Pos.succ Pos.eqb] in E.
  rewrite E, bR_exact_2, exp_ln_2, exp_0_over. clear E.
  rewrite Rplus_0_l, Rplus_0_r, Rminus_diag.
  apply cost_example_real.
  - now apply other_outcome_ge_1.
  - now apply feeUp_exact_small.
Qed.

Lemma count_example (M : Z) :
  (0 <= M)%Z ->
  exists n : Z,
    calcLMSROutcomeTokenCount exact [0%Z; M] 1 0 1 (Some 0%Z) = Ok (ofZ n)
    /\ (M <= n)%Z.
Proof.
  intros HM. pose proof ln_2_bounds as HL.
  pose proof (logArgR_exact [0%Z; M] 1 0%nat 1 0%Z eq_refl) as E.
  cbv zeta in E.
  cbn [length total Z.of_nat Z.eqb Pos.of_succ_nat Pos.succ Pos.eqb] in E.
  rewrite bR_exact_2, exp_0_over, Rplus_0_l, Rplus_0_r in E.
  replace (1 / / ln 2) with ((0 + 1) / / ln 2) in E by lra.
  rewrite exp_ln_2 in E.
  pose proof (other_outcome_ge_1 M 1 HM) as HE.
  set (Y := termPlain exact (/ ln 2) M 1) in *.
  assert (Hpos : 0 < logArgR exact [0%Z; M] 1 0 1 0) by (rewrite E; lra).
  eexists. split.
  - apply (calcLMSROutcomeTokenCount_eval _ _ _ exact_ctx);
      (reflexivity || lia || assumption).
  - apply Zfloor_lub. cbn [length]. rewrite bR_exact_2, E.
    change (IZR M <= / ln 2 * ln (2 * (1 + Y) - Y) - 0).
    assert (HlnY : ln Y = IZR M * ln 2).
    { unfold Y, termPlain, exact. now rewrite ln_exp, over_inv_ln_2. }
    assert (ln Y <= ln (2 * (1 + Y) - Y)) by (apply ln_le_mono; lra).
    apply (Rmult_le_reg_r (ln 2)); [lra |].
    replace ((/ ln 2 * ln (2 * (1 + Y) - Y) - 0) * ln 2)
      with (ln (2 * (1 + Y) - Y)) by (field; lra).
    lra.
Qed.

(** *** Cost and profit against the token count and against each other *)

Lemma sell_total (b : R) (idx : nat) (k : Z) (sold : list Z) (s : Z) :
  nth_error sold idx = Some s ->
  total (termSell exact b (Z.of_nat idx) k) 0 sold
  = exp ((IZR s - IZR k) / b)
    + total (fun x j => if (Z.of_nat j =? Z.of_nat idx)%Z then 0
                        else termPlain exact b x j) 0 sold.
Proof.
  intros Hnth.
  etransitivity.
  - apply (total_ext _
             (fun x j => if (Z.of_nat j =? Z.of_nat idx)%Z
                         then exp ((IZR x - IZR k) / b) else exp (IZR x / b))).
    intros x j. unfold termSell, selected, exact.
    destruct (Z.of_nat j =? Z.of_nat idx)%Z; [reflexivity |].
    now rewrite Rminus_0_r.
  - rewrite (total_select _ _ idx sold 0 s)
      by (rewrite ?Nat.sub_0_r; (lia || assumption)).
    reflexivity.
Qed.

Lemma profitR_exact (sold : list Z) (funding : Z) (i : nat) (k f s : Z) :
  nth_error sold i = Some s ->
  let b := bR exact (length sold) funding in
  let Y := total (fun x j => if (Z.of_nat j =? Z.of_nat i)%Z then 0
                             else termPlain exact b x j) 0 sold in
  profitR exact sold funding (Z.of_nat i) k f
  = b * (ln (exp (IZR s / b) + Y) - ln (exp ((IZR s - IZR k) / b) + Y))
    * feeDown exact f / eps1.
Proof.
  intros Hnth b Y. unfold profitR, baseProfitR.
  fold b. rewrite !sumR_exact, !Rplus_0_l.
  rewrite (sell_total b i k sold s Hnth), (plain_total b i sold s Hnth).
  fold Y. unfold exact. reflexivity.
Qed.

(** The LMSR cost of [x >= 0] more tokens of one outcome is at most [x]. *)
Lemma lmsr_cost_le_count (b e Y x : R) :
  0 < b -> 0 < e -> 0 <= Y -> 0 <= x ->
  b * (ln (e * exp (x / b) + Y) - ln (e + Y)) <= x.
Proof.
  intros Hb He HY Hx.
  assert (HE : 1 <= exp (x / b)).
  { rewrite <- exp_0. apply exp_le_mono.
    apply Rmult_le_pos; [assumption | left; now apply Rinv_0_lt_compat]. }
  set (E := exp (x / b)) in *.
  assert (Hle : ln (e * E + Y) <= x / b + ln (e + Y)).
  { rewrite <- (ln_exp (x / b)). fold E. rewrite <- ln_mult by lra.
    apply ln_le_mono; [nra | nra]. }
  apply (Rmult_le_compat_l b) in Hle; [| lra].
  replace (b * (x / b + ln (e + Y))) with (x + b * ln (e + Y)) in Hle
    by (field; lra).
  lra.
Qed.

(** Selling [x] tokens returns no more than buying [x] tokens costs. *)
Lemma lmsr_profit_le_cost (e E Y : R) :
  0 < e -> 0 < E -> 0 <= Y ->
  ln (e + Y) - ln (e / E + Y) <= ln (e * E + Y) - ln (e + Y).
Proof.
  intros He HE HY.
  assert (HeE : 0 < e / E) by (now apply Rdiv_lt_0_compat).
  assert (HeE' : 0 < e * E) by (now apply Rmult_lt_0_compat).
  assert (H2 : 2 <= E + / E).
  { apply (Rmult_le_reg_r E); [assumption |].
    replace ((E + / E) * E) with (E * E + 1) by (field; lra).
    pose proof (Rle_0_sqr (E - 1)) as Hsq. unfold Rsqr in Hsq. lra. }
  assert (Hprod : (e + Y) * (e + Y) <= (e * E + Y) * (e / E + Y)).
  { replace ((e * E + Y) * (e / E + Y))
      with (e * e + e * Y * (E + / E) + Y * Y) by (field; lra).
    assert (0 <= e * Y) by (apply Rmult_le_pos; lra). nra. }
  apply ln_le_mono in Hprod; [| nra].
  rewrite !ln_mult in Hprod by lra. lra.
Qed.

Lemma feeUp_exact_ge_1 (f : Z) : (0 <= f)%Z -> 1 <= feeUp exact f.
Proof. apply (feeUp_ge_1 _ _ _ exact_ctx). Qed.

Lemma feeDown_exact_bounds (f : Z) :
  (0 <= f < 1000000)%Z -> 0 <= feeDown exact f <= 1.
Proof.
  intros [H0 H1]. unfold feeDown, exact.
  apply IZR_le in H0. apply IZR_lt in H1. lra.
Qed.

Lemma exp_sum_over (s x b : R) :
  b <> 0 -> exp ((s + x) / b) = exp (s / b) * exp (x / b).
Proof. intros Hb. rewrite <- exp_plus. f_equal. field. exact Hb. Qed.

Lemma costR_exact_le_count (sold : list Z) (funding idx k f : Z) :
  validState sold funding idx = true -> (0 < funding)%Z -> (0 <= k)%Z ->
  (0 <= f)%Z ->
  costR exact sold funding idx k f <= IZR k * feeUp exact f * eps1.
Proof.
  intros Hvalid Hfund Hk Hf.
  pose proof (proj1 (validState_spec _ _ _) Hvalid) as (Hn & _ & Hidx).
  destruct (nth_error sold (Z.to_nat idx)) as [s |] eqn:Hnth;
    [| apply nth_error_None in Hnth; lia].
  pose proof (costR_exact sold funding (Z.to_nat idx) k f s Hfund Hnth) as E.
  cbv zeta in E. rewrite Z2Nat.id in E by lia. rewrite E. clear E.
  pose proof (exact_b_pos _ _ Hn Hfund) as Hb.
  set (b := bR exact (length sold) funding) in *.
  pose proof (others_nonneg b idx sold 0) as HY.
  set (Y := total _ 0 sold) in *.
  rewrite exp_sum_over by lra.
  pose proof (lmsr_cost_le_count b (exp (IZR s / b)) Y (IZR k) Hb
                (exp_pos _) HY (IZR_le _ _ Hk)) as Hle.
  pose proof (feeUp_exact_ge_1 f Hf) as Hfee. pose proof eps1_bounds as Heps.
  apply Rmult_le_compat_r; [lra |]. apply Rmult_le_compat_r; lra.
Qed.



(** *** Shifting every entry by the same amount *)

Lemma total_map_shift (t : Z -> nat -> R) (d : Z) (D : R) :
  (forall x j, t (d + x)%Z j = D * t x j) ->
  forall l i, total t i (map (Z.add d) l) = D * total t i l.
Proof.
  intros Ht l. induction l as [| x l IH]; intros i; cbn [map total].
  - lra.
  - rewrite Ht, IH. lra.
Qed.

Lemma termPlain_shift (b : R) (d x : Z) (j : nat) :
  b <> 0 ->
  termPlain exact b (d + x) j = exp (IZR d / b) * termPlain exact b x j.
Proof.
  intros Hb. unfold termPlain, exact. rewrite plus_IZR. now apply exp_sum_over.
Qed.

Lemma others_shift (b : R) (idx d : Z) (l : list Z) :
  b <> 0 ->
  total (fun x j => if (Z.of_nat j =? idx)%Z then 0
                    else termPlain exact b x j) 0 (map (Z.add d) l)
  = exp (IZR d / b)
    * total (fun x j => if (Z.of_nat j =? idx)%Z then 0
                        else termPlain exact b x j) 0 l.
Proof.
  intros Hb. apply total_map_shift. intros x j.
  destruct (Z.of_nat j =? idx)%Z; [lra | now apply termPlain_shift].
Qed.

Lemma validState_shift (sold : list Z) (funding idx d : Z) :
  validState (map (Z.add d) sold) funding idx = validState sold funding idx.
Proof. unfold validState. now rewrite length_map. Qed.

Lemma ln_scaled_difference (D x y : R) :
  0 < D -> 0 < x -> 0 < y -> ln (D * x) - ln (D * y) = ln x - ln y.
Proof. intros HD Hx Hy. rewrite !ln_mult by assumption. lra. Qed.

Lemma paid_total_fee (b : R) (c f : Z) (sold : list Z) :
  b <> 0 ->
  total (termPaid exact b c f) 0 sold
  = exp (IZR c / feeUp exact f / b) * total (termPlain exact b) 0 sold.
Proof.
  intros Hb. rewrite <- total_scale. apply total_ext. intros x j.
  unfold termPaid, termPlain. set (phi := feeUp exact f). unfold exact.
  rewrite exp_sum_over by assumption. lra.
Qed.

Lemma logArgR_exact_fee (sold : list Z) (funding : Z) (i : nat) (c f s : Z) :
  (2 <= length sold)%nat -> (0 < funding)%Z -> nth_error sold i = Some s ->
  let b := bR exact (length sold) funding in
  let Y := total (fun x j => if (Z.of_nat j =? Z.of_nat i)%Z then 0
                             else termPlain exact b x j) 0 sold in
  logArgR exact sold funding (Z.of_nat i) c f
  = exp (IZR c / feeUp exact f / b) * (exp (IZR s / b) + Y) - Y.
Proof.
  intros Hn Hfund Hnth b Y. unfold logArgR. fold b.
  pose proof (exact_b_pos _ _ Hn Hfund) as Hb. fold b in Hb.
  rewrite sumR_exact, sumSkipR_exact, !Rplus_0_l.
  rewrite paid_total_fee, (plain_total b i sold s Hnth) by lra.
  fold Y. reflexivity.
Qed.

(** With a paid amount [c >= 0] the argument of the logarithm is at least
    the exponential of the outcome's own entry. *)
Lemma logArgR_exact_lower (sold : list Z) (funding idx c f s : Z) :
  validState sold funding idx = true -> (0 < funding)%Z -> (0 <= c)%Z ->
  (0 <= f)%Z -> nth_error sold (Z.to_nat idx) = Some s ->
  exp (IZR s / bR exact (length sold) funding)
  <= logArgR exact sold funding idx c f.
Proof.
  intros Hvalid Hfund Hc Hf Hnth.
  pose proof (proj1 (validState_spec _ _ _) Hvalid) as (Hn & _ & Hidx).
  pose proof (logArgR_exact_fee sold funding (Z.to_nat idx) c f s Hn Hfund Hnth)
    as E.
  cbv zeta in E. rewrite Z2Nat.id in E by lia. rewrite E. clear E.
  pose proof (exact_b_pos _ _ Hn Hfund) as Hb.
  set (b := bR exact (length sold) funding) in *.
  pose proof (others_nonneg b idx sold 0) as HY.
  set (Y := total _ 0 sold) in *.
  pose proof (feeUp_exact_ge_1 f Hf) as Hfee.
  pose proof (exp_pos (IZR s / b)) as He.
  assert (HE : 1 <= exp (IZR c / feeUp exact f / b)).
  { rewrite <- exp_0. apply exp_le_mono. apply IZR_le in Hc.
    apply Rmult_le_pos; [| left; now apply Rinv_0_lt_compat].
    apply Rmult_le_pos; [lra | left; apply Rinv_0_lt_compat; lra]. }
  nra.
Qed.

Lemma priceR_exact (sold : list Z) (funding s : Z) :
  sold <> [] ->
  priceR exact sold funding s
  = exp (IZR s / bR exact (length sold) funding)
    / total (termPlain exact (bR exact (length sold) funding)) 0 sold.
Proof.
  intros Hne. unfold priceR, exact at 1 5.
  rewrite shifted_ratio_exact by assumption.
  now rewrite sumR_exact, Rplus_0_l.
Qed.


(** *** The inversion against the cost it inverts *)

(** The exact count [x] bought for the amount [a] solves
    [e * exp (x / b) = exp (a / b) * (e + Y) - Y]; a whole count at or below
    it costs at most [a], a whole count above it more than [a]. *)
Lemma lmsr_cost_below (b e Y a x : R) :
  0 < b -> 0 < e -> 0 <= Y ->
  e * exp (x / b) <= exp (a / b) * (e + Y) - Y ->
  b * (ln (e * exp (x / b) + Y) - ln (e + Y)) <= a.
Proof.
  intros Hb He HY Hx. pose proof (exp_pos (x / b)) as HE.
  assert (Hpos : 0 < e * exp (x / b)) by (now apply Rmult_lt_0_compat).
  assert (Hle : ln (e * exp (x / b) + Y) <= a / b + ln (e + Y)).
  { rewrite <- (ln_exp (a / b)) at 1. rewrite <- ln_mult by (lra || apply exp_pos).
    apply ln_le_mono; lra. }
  apply (Rmult_le_compat_l b) in Hle; [| lra].
  replace (b * (a / b + ln (e + Y))) with (a + b * ln (e + Y)) in Hle
    by (field; lra).
  lra.
Qed.

Lemma lmsr_cost_above (b e Y a x : R) :
  0 < b -> 0 < e -> 0 <= Y ->
  exp (a / b) * (e + Y) - Y < e * exp (x / b) ->
  a < b * (ln (e * exp (x / b) + Y) - ln (e + Y)).
Proof.
  intros Hb He HY Hx. pose proof (exp_pos (a / b)) as HE.
  assert (Hlt : a / b + ln (e + Y) < ln (e * exp (x / b) + Y)).
  { rewrite <- (ln_exp (a / b)) at 1. rewrite <- ln_mult by lra.
    apply ln_increasing; [| lra]. apply Rmult_lt_0_compat; lra. }
  apply (Rmult_lt_compat_l b) in Hlt; [| lra].
  replace (b * (a / b + ln (e + Y))) with (a + b * ln (e + Y)) in Hlt
    by (field; lra).
  lra.
Qed.

(** The count returned over exact arithmetic, with what brackets it. *)
Lemma exact_inverse (sold : list Z) (funding idx c f s : Z) :
  validState sold funding idx = true -> (0 < funding)%Z -> (0 <= c)%Z ->
  validFee f = true -> nth_error sold (Z.to_nat idx) = Some s ->
  let b := bR exact (length sold) funding in
  let n := Zfloor (b * ln (logArgR exact sold funding idx c f) - IZR s) in
  calcLMSROutcomeTokenCount exact sold funding idx c (Some f) = Ok (ofZ n)
  /\ (0 <= n)%Z
  /\ (c = 0%Z -> n = 0%Z)
  /\ costR exact sold funding idx n f <= IZR c * eps1
  /\ IZR c < costR exact sold funding idx (n + 1) f.
Proof.
  intros Hvalid Hfund Hc Hfee Hnth b n.
  pose proof (proj1 (validState_spec _ _ _) Hvalid) as (Hn & _ & Hidx).
  pose proof (proj1 (validFee_spec _) Hfee) as [Hf _].
  pose proof (exact_b_pos _ _ Hn Hfund) as Hb. fold b in Hb.
  pose proof (logArgR_exact_lower _ _ _ _ _ _ Hvalid Hfund Hc Hf Hnth) as Hlow.
  fold b in Hlow.
  pose proof (exp_pos (IZR s / b)) as He.
  pose proof (logArgR_exact_fee sold funding (Z.to_nat idx) c f s Hn Hfund Hnth)
    as Earg.
  cbv zeta in Earg. rewrite Z2Nat.id in Earg by lia. fold b in Earg.
  pose proof (others_nonneg b idx sold 0) as HY.
  set (Y := total _ 0 sold) in *.
  set (arg := logArgR exact sold funding idx c f) in *.
  set (e := exp (IZR s / b)) in *.
  pose proof (feeUp_exact_ge_1 f Hf) as Hfee1. pose proof eps1_bounds as Heps.
  set (phi := feeUp exact f) in *.
  (* the exact solution [x] and the whole count [n] below it *)
  set (x := b * ln arg - IZR s) in *.
  assert (Hx : exp ((IZR s + x) / b) = arg).
  { replace ((IZR s + x) / b) with (ln arg) by (unfold x; field; lra).
    apply exp_ln. lra. }
  assert (Hx0 : 0 <= x).
  { unfold x. assert (Hln : IZR s / b <= ln arg).
    { rewrite <- (ln_exp (IZR s / b)). fold e. apply ln_le_mono; lra. }
    apply (Rmult_le_compat_l b) in Hln; [| lra].
    replace (b * (IZR s / b)) with (IZR s) in Hln by (field; lra). lra. }
  pose proof (Zfloor_bound x) as [Hnx Hxn]. fold n in Hnx, Hxn.
  assert (Hn0 : (0 <= n)%Z) by (now apply Zfloor_nonneg).
  split; [| split; [exact Hn0 | split; [| split]]].
  - apply (calcLMSROutcomeTokenCount_eval _ _ _ exact_ctx); try assumption.
    fold arg. lra.
  - intros ->. apply Zfloor_eq. unfold x. rewrite Earg.
    replace (IZR 0 / phi / b) with 0 by (unfold Rdiv; ring).
    rewrite exp_0.
    replace (1 * (e + Y) - Y) with e by ring.
    unfold e. rewrite ln_exp.
    replace (b * (IZR s / b) - IZR s) with 0 by (field; lra). lra.
  - pose proof (costR_exact sold funding (Z.to_nat idx) n f s Hfund Hnth) as E.
    cbv zeta in E. rewrite Z2Nat.id in E by lia. fold b Y phi in E.
    rewrite E, exp_sum_over by lra. fold e.
    assert (Hle : e * exp (IZR n / b) <= exp (IZR c / phi / b) * (e + Y) - Y).
    { rewrite <- Earg, <- Hx, exp_sum_over by lra. fold e.
      apply Rmult_le_compat_l; [lra |]. apply exp_le_mono.
      apply Rmult_le_compat_r; [left; now apply Rinv_0_lt_compat | lra]. }
    pose proof (lmsr_cost_below b e Y (IZR c / phi) (IZR n) Hb He HY Hle) as H.
    apply (Rmult_le_compat_r phi) in H; [| lra].
    replace (IZR c / phi * phi) with (IZR c) in H by (field; lra).
    apply Rmult_le_compat_r; lra.
  - pose proof (costR_exact sold funding (Z.to_nat idx) (n + 1) f s Hfund Hnth)
      as E.
    cbv zeta in E. rewrite Z2Nat.id in E by lia. fold b Y phi in E.
    rewrite E, exp_sum_over by lra. fold e.
    assert (Hlt : exp (IZR c / phi / b) * (e + Y) - Y
                  < e * exp (IZR (n + 1) / b)).
    { rewrite <- Earg, <- Hx, exp_sum_over by lra. fold e.
      apply Rmult_lt_compat_l; [lra |]. apply exp_increasing.
      apply Rmult_lt_compat_r; [now apply Rinv_0_lt_compat |].
      rewrite plus_IZR. lra. }
    pose proof (lmsr_cost_above b e Y (IZR c / phi) (IZR (n + 1)) Hb He HY Hlt)
      as H.
    apply (Rmult_lt_compat_r phi) in H; [| lra].
    replace (IZR c / phi * phi) with (IZR c) in H by (field; lra).
    apply IZR_le in Hc.
    set (C := b * (ln (e * exp (IZR (n + 1) / b) + Y) - ln (e + Y)) * phi) in *.
    assert (C * 1 <= C * eps1) by (apply Rmult_le_compat_l; lra).
    lra.
Qed.



(** *** The cost against the marginal prices before and after *)

(** Concavity of the logarithm, between 1 and [E]. *)
Lemma ln_mean (p E : R) :
  0 <= p <= 1 -> 0 < E -> p * ln E <= ln (1 + p * (E - 1)).
Proof.
  intros Hp HE. set (m := 1 + p * (E - 1)).
  assert (Hm : 0 < m).
  { unfold m. destruct (Rle_dec E 1) as [H1 | H1].
    - assert (0 <= (1 - p) * (1 - E)) by (apply Rmult_le_pos; lra). lra.
    - assert (0 <= p * (E - 1)) by (apply Rmult_le_pos; lra). lra. }
  pose proof (ln_le_minus_1 (E / m) ltac:(apply Rdiv_lt_0_compat; lra)) as H1.
  pose proof (ln_le_minus_1 (1 / m) ltac:(apply Rdiv_lt_0_compat; lra)) as H2.
  rewrite ln_quotient in H1, H2 by lra. rewrite ln_1 in H2.
  assert (Ha : p * (ln E - ln m) <= p * (E / m - 1))
    by (apply Rmult_le_compat_l; lra).
  assert (Hb : (1 - p) * (0 - ln m) <= (1 - p) * (1 / m - 1))
    by (apply Rmult_le_compat_l; lra).
  assert (Hz : p * (E / m - 1) + (1 - p) * (1 / m - 1) = 0)
    by (unfold m; field; fold m; lra).
  lra.
Qed.

Lemma addAt_length (l : list Z) (k : Z) :
  forall i : nat, length (addAt l i k) = length l.
Proof.
  induction l as [| x l IH]; intros [| i]; cbn [addAt length]; auto.
Qed.

Lemma addAt_nth (l : list Z) (k : Z) :
  forall (i : nat) (s : Z),
    nth_error l i = Some s -> nth_error (addAt l i k) i = Some (s + k)%Z.
Proof.
  induction l as [| x l IH]; intros [| i] s H; cbn [addAt nth_error] in *;
    try discriminate.
  - now injection H as ->.
  - now apply IH.
Qed.

Lemma others_addAt (g : Z -> R) (k : Z) :
  forall (l : list Z) (start i : nat),
    total (fun x j => if (Z.of_nat j =? Z.of_nat (start + i))%Z then 0
                      else g x) start (addAt l i k)
    = total (fun x j => if (Z.of_nat j =? Z.of_nat (start + i))%Z then 0
                        else g x) start l.
Proof.
  induction l as [| x l IH]; intros start [| i]; cbn [addAt total];
    try reflexivity.
  - rewrite Nat.add_0_r, Z.eqb_refl. reflexivity.
  - destruct (Z.eqb_spec (Z.of_nat start) (Z.of_nat (start + S i)))
      as [E | _]; [lia |].
    f_equal. replace (start + S i)%nat with (S start + i)%nat by lia.
    apply IH.
Qed.


(** *** A trade made in two steps *)

Lemma validState_addAt (sold : list Z) (funding idx k : Z) (i : nat) :
  validState (addAt sold i k) funding idx = validState sold funding idx.
Proof. unfold validState. now rewrite addAt_length. Qed.

Lemma others_addAt_plain (b : R) (sold : list Z) (i : nat) (k : Z) :
  total (fun x j => if (Z.of_nat j =? Z.of_nat i)%Z then 0
                    else termPlain exact b x j) 0 (addAt sold i k)
  = total (fun x j => if (Z.of_nat j =? Z.of_nat i)%Z then 0
                      else termPlain exact b x j) 0 sold.
Proof. exact (others_addAt (fun x => termPlain exact b x 0%nat) k sold 0 i). Qed.



End Exact.

(** ** Rounding to [P] significant digits is a decimal context *)

Section FinitePrecision.

Open Scope R_scope.

Lemma ln_10_pos : 0 < ln 10.
Proof. rewrite <- ln_1. apply ln_increasing; lra. Qed.

Lemma p10_exp (z : Z) : powerRZ 10 z = exp (IZR z * ln 10).
Proof. rewrite powerRZ_Rpower by lra. reflexivity. Qed.

Lemma p10_pos (z : Z) : 0 < powerRZ 10 z.
Proof. apply powerRZ_lt. lra. Qed.

Lemma p10_add (a b : Z) : powerRZ 10 (a + b) = powerRZ 10 a * powerRZ 10 b.
Proof. apply powerRZ_add. lra. Qed.

Lemma p10_le (a b : Z) : (a <= b)%Z -> powerRZ 10 a <= powerRZ 10 b.
Proof.
  intros H. rewrite !p10_exp. apply exp_le_mono.
  apply Rmult_le_compat_r; [left; apply ln_10_pos | now apply IZR_le].
Qed.

Lemma p10_lt_inv (a b : Z) : powerRZ 10 a < powerRZ 10 b -> (a < b)%Z.
Proof.
  intros H. apply Z.lt_nge. intros Hle. apply p10_le in Hle. lra.
Qed.

Lemma p10_Z (m : Z) : (0 <= m)%Z -> powerRZ 10 m = IZR (10 ^ m).
Proof.
  intros Hm. rewrite <- (Z2Nat.id m Hm) at 1.
  rewrite <- pow_powerRZ, pow_IZR, Z2Nat.id by assumption. reflexivity.
Qed.

Lemma magnitude_bounds (x : R) :
  x <> 0 ->
  powerRZ 10 (magnitude x) <= Rabs x < powerRZ 10 (magnitude x + 1).
Proof.
  intros Hx. pose proof (Rabs_pos_lt x Hx) as Habs.
  pose proof ln_10_pos as H10.
  pose proof (Zfloor_bound (ln (Rabs x) / ln 10)) as [Hlo Hhi].
  fold (magnitude x) in Hlo, Hhi.
  rewrite !p10_exp, plus_IZR.
  split; rewrite <- (exp_ln (Rabs x)) by assumption.
  - apply exp_le_mono.
    apply (Rmult_le_compat_r (ln 10)) in Hlo; [| lra].
    replace (ln (Rabs x) / ln 10 * ln 10) with (ln (Rabs x)) in Hlo
      by (field; lra).
    exact Hlo.
  - apply exp_increasing.
    apply (Rmult_lt_compat_r (ln 10)) in Hhi; [| lra].
    replace (ln (Rabs x) / ln 10 * ln 10) with (ln (Rabs x)) in Hhi
      by (field; lra).
    exact Hhi.
Qed.

Lemma magnitude_unique (x : R) (e : Z) :
  powerRZ 10 e <= Rabs x < powerRZ 10 (e + 1) -> magnitude x = e.
Proof.
  intros [Hlo Hhi]. pose proof (p10_pos e) as He.
  assert (Habs : 0 < Rabs x) by lra.
  pose proof ln_10_pos as H10.
  unfold magnitude. apply Zfloor_eq.
  rewrite !p10_exp, plus_IZR in *.
  split.
  - apply (Rmult_le_reg_r (ln 10)); [lra |].
    replace (ln (Rabs x) / ln 10 * ln 10) with (ln (Rabs x)) by (field; lra).
    rewrite <- (ln_exp (IZR e * ln 10)). apply ln_le_mono; [apply exp_pos | lra].
  - apply (Rmult_lt_reg_r (ln 10)); [lra |].
    replace (ln (Rabs x) / ln 10 * ln 10) with (ln (Rabs x)) by (field; lra).
    rewrite <- (ln_exp ((IZR e + 1) * ln 10)). now apply ln_increasing.
Qed.

Lemma magnitude_opp (x : R) : magnitude (- x) = magnitude x.
Proof. unfold magnitude. now rewrite Rabs_Ropp. Qed.

Lemma ulp_opp (P : Z) (x : R) : ulp P (- x) = ulp P x.
Proof. unfold ulp. now rewrite magnitude_opp. Qed.

Lemma ulp_pos (P : Z) (x : R) : 0 < ulp P x.
Proof. apply p10_pos. Qed.

Lemma roundHalfUp_0 (P : Z) : roundHalfUp P 0 = 0.
Proof. unfold roundHalfUp. destruct (Req_dec_T 0 0); [reflexivity | contradiction]. Qed.

Lemma roundHalfUp_pos_eq (P : Z) (x : R) :
  0 < x -> roundHalfUp P x = IZR (Zfloor (x / ulp P x + / 2)) * ulp P x.
Proof.
  intros Hx. unfold roundHalfUp.
  destruct (Req_dec_T x 0); [lra |]. destruct (Rlt_dec x 0); [lra |].
  rewrite Rabs_pos_eq by lra. lra.
Qed.

Lemma roundHalfUp_opp (P : Z) (x : R) : roundHalfUp P (- x) = - roundHalfUp P x.
Proof.
  unfold roundHalfUp. rewrite ulp_opp, Rabs_Ropp.
  destruct (Req_dec_T x 0), (Req_dec_T (- x) 0); try lra.
  destruct (Rlt_dec x 0), (Rlt_dec (- x) 0); lra.
Qed.

(** The scaled significand of a positive real has [P] digits. *)
Lemma significand_bounds (P : Z) (x : R) :
  0 < x ->
  powerRZ 10 (P - 1) <= x / ulp P x < powerRZ 10 P.
Proof.
  intros Hx. pose proof (magnitude_bounds x ltac:(lra)) as [Hlo Hhi].
  rewrite Rabs_pos_eq in Hlo, Hhi by lra.
  pose proof (ulp_pos P x) as Hu. unfold ulp in *.
  set (e := magnitude x) in *. set (q := powerRZ 10 (e - P + 1)) in *.
  assert (E1 : powerRZ 10 e = powerRZ 10 (P - 1) * q).
  { unfold q. rewrite <- p10_add. f_equal. lia. }
  assert (E2 : powerRZ 10 (e + 1) = powerRZ 10 P * q).
  { unfold q. rewrite <- p10_add. f_equal. lia. }
  rewrite E1 in Hlo. rewrite E2 in Hhi. split.
  - apply (Rmult_le_reg_r q); [assumption |].
    replace (x / q * q) with x by (field; lra). exact Hlo.
  - apply (Rmult_lt_reg_r q); [assumption |].
    replace (x / q * q) with x by (field; lra). exact Hhi.
Qed.

Lemma Zfloor_half (n : Z) : Zfloor (IZR n + / 2) = n.
Proof. apply Zfloor_eq. lra. Qed.

Lemma roundHalfUp_pos_bounds (P : Z) (x : R) :
  (1 <= P)%Z -> 0 < x ->
  powerRZ 10 (magnitude x) <= roundHalfUp P x <= powerRZ 10 (magnitude x + 1).
Proof.
  intros HP Hx. rewrite roundHalfUp_pos_eq by assumption.
  pose proof (significand_bounds P x Hx) as [Hlo Hhi].
  pose proof (ulp_pos P x) as Hu.
  rewrite (p10_Z (P - 1)) in Hlo by lia. rewrite (p10_Z P) in Hhi by lia.
  assert (Hn1 : (10 ^ (P - 1) <= Zfloor (x / ulp P x + / 2))%Z).
  { apply Zfloor_lub. lra. }
  assert (Hn2 : (Zfloor (x / ulp P x + / 2) <= 10 ^ P)%Z).
  { rewrite <- (Zfloor_half (10 ^ P)). apply Zfloor_le. lra. }
  apply IZR_le in Hn1, Hn2.
  rewrite <- (p10_Z (P - 1)) in Hn1 by lia. rewrite <- (p10_Z P) in Hn2 by lia.
  unfold ulp in *. set (e := magnitude x) in *.
  set (q := powerRZ 10 (e - P + 1)) in *.
  assert (E1 : powerRZ 10 e = powerRZ 10 (P - 1) * q).
  { unfold q. rewrite <- p10_add. f_equal. lia. }
  assert (E2 : powerRZ 10 (e + 1) = powerRZ 10 P * q).
  { unfold q. rewrite <- p10_add. f_equal. lia. }
  rewrite E1, E2. split; apply Rmult_le_compat_r; lra.
Qed.

Lemma magnitude_le (x y : R) : 0 < x -> x <= y -> (magnitude x <= magnitude y)%Z.
Proof.
  intros Hx Hxy. unfold magnitude. apply Zfloor_le.
  rewrite !Rabs_pos_eq by lra.
  apply Rmult_le_compat_r.
  - left. apply Rinv_0_lt_compat, ln_10_pos.
  - now apply ln_le_mono.
Qed.

Lemma roundHalfUp_mono_pos (P : Z) (x y : R) :
  (1 <= P)%Z -> 0 < x -> x <= y -> roundHalfUp P x <= roundHalfUp P y.
Proof.
  intros HP Hx Hxy. assert (Hy : 0 < y) by lra.
  pose proof (magnitude_le x y Hx Hxy) as Hmag.
  destruct (Z.eq_dec (magnitude x) (magnitude y)) as [E | Hne].
  - rewrite !roundHalfUp_pos_eq by assumption.
    unfold ulp. rewrite E.
    set (q := powerRZ 10 (magnitude y - P + 1)).
    assert (Hq : 0 < q) by apply p10_pos.
    apply Rmult_le_compat_r; [lra |]. apply IZR_le, Zfloor_le.
    apply Rplus_le_compat_r, Rmult_le_compat_r; [| assumption].
    left. now apply Rinv_0_lt_compat.
  - pose proof (roundHalfUp_pos_bounds P x HP Hx) as [_ Hup].
    pose proof (roundHalfUp_pos_bounds P y HP Hy) as [Hlo _].
    pose proof (p10_le (magnitude x + 1) (magnitude y) ltac:(lia)). lra.
Qed.

Lemma roundHalfUp_pos (P : Z) (x : R) : (1 <= P)%Z -> 0 < x -> 0 < roundHalfUp P x.
Proof.
  intros HP Hx. pose proof (roundHalfUp_pos_bounds P x HP Hx) as [Hlo _].
  pose proof (p10_pos (magnitude x)). lra.
Qed.

Lemma roundHalfUp_mono (P : Z) (x y : R) :
  (1 <= P)%Z -> x <= y -> roundHalfUp P x <= roundHalfUp P y.
Proof.
  intros HP Hxy.
  destruct (Rtotal_order x 0) as [Hx | [-> | Hx]];
    destruct (Rtotal_order y 0) as [Hy | [-> | Hy]]; try lra.
  - assert (H : roundHalfUp P (- y) <= roundHalfUp P (- x))
      by (apply roundHalfUp_mono_pos; (assumption || lra)).
    rewrite !roundHalfUp_opp in H. lra.
  - pose proof (roundHalfUp_pos P (- x) HP ltac:(lra)) as H.
    rewrite roundHalfUp_opp in H. rewrite roundHalfUp_0. lra.
  - pose proof (roundHalfUp_pos P (- x) HP ltac:(lra)) as H.
    rewrite roundHalfUp_opp in H.
    pose proof (roundHalfUp_pos P y HP Hy). lra.
  - rewrite roundHalfUp_0. pose proof (roundHalfUp_pos P y HP Hy). lra.
  - now apply roundHalfUp_mono_pos.
Qed.

Lemma roundHalfUp_error_pos (P : Z) (x : R) :
  0 < x -> Rabs (roundHalfUp P x - x) <= unitRoundoff P * x.
Proof.
  intros Hx. rewrite roundHalfUp_pos_eq by assumption.
  pose proof (magnitude_bounds x ltac:(lra)) as [Hlo _].
  rewrite Rabs_pos_eq in Hlo by lra.
  pose proof (ulp_pos P x) as Hu.
  pose proof (Zfloor_bound (x / ulp P x + / 2)) as [Hf1 Hf2].
  set (n := IZR (Zfloor (x / ulp P x + / 2))) in *.
  assert (Hq : ulp P x = powerRZ 10 (magnitude x) * powerRZ 10 (1 - P)).
  { unfold ulp. rewrite <- p10_add. f_equal. lia. }
  pose proof (p10_pos (1 - P)) as H1P.
  assert (Hux : ulp P x <= x * powerRZ 10 (1 - P)).
  { rewrite Hq. apply Rmult_le_compat_r; lra. }
  assert (Hd : - (ulp P x / 2) <= n * ulp P x - x <= ulp P x / 2).
  { replace (n * ulp P x - x) with ((n - x / ulp P x) * ulp P x)
      by (field; lra).
    split.
    - replace (- (ulp P x / 2)) with (- / 2 * ulp P x) by lra.
      apply Rmult_le_compat_r; lra.
    - replace (ulp P x / 2) with (/ 2 * ulp P x) by lra.
      apply Rmult_le_compat_r; lra. }
  apply Rabs_le. unfold unitRoundoff. lra.
Qed.

Lemma roundHalfUp_error (P : Z) (x : R) :
  Rabs (roundHalfUp P x - x) <= unitRoundoff P * Rabs x.
Proof.
  destruct (Rtotal_order x 0) as [Hx | [-> | Hx]].
  - pose proof (roundHalfUp_error_pos P (- x) ltac:(lra)) as H.
    rewrite roundHalfUp_opp in H.
    replace (- roundHalfUp P x - - x) with (- (roundHalfUp P x - x)) in H by lra.
    rewrite Rabs_Ropp in H. rewrite (Rabs_left x) by assumption. exact H.
  - rewrite roundHalfUp_0, Rminus_diag, Rabs_R0. lra.
  - rewrite (Rabs_pos_eq x) by lra. now apply roundHalfUp_error_pos.
Qed.

Lemma roundHalfUp_Z_pos (P : Z) (z : Z) :
  (0 < z < 10 ^ P)%Z -> roundHalfUp P (IZR z) = IZR z.
Proof.
  intros [Hz HzP]. assert (HP : (0 <= P)%Z).
  { destruct (Z.le_gt_cases 0 P) as [H | H]; [exact H |].
    rewrite Z.pow_neg_r in HzP by assumption. lia. }
  assert (Hx : 0 < IZR z) by now apply IZR_lt.
  rewrite roundHalfUp_pos_eq by assumption.
  pose proof (magnitude_bounds (IZR z) ltac:(lra)) as [Hlo Hhi].
  rewrite Rabs_pos_eq in Hlo, Hhi by lra.
  set (e := magnitude (IZR z)) in *.
  assert (He : (e < P)%Z).
  { apply p10_lt_inv. apply IZR_lt in HzP. rewrite <- (p10_Z P) in HzP by lia. lra. }
  unfold ulp. fold e.
  set (m := (P - 1 - e)%Z). assert (Hm : (0 <= m)%Z) by lia.
  assert (Hq : powerRZ 10 (e - P + 1) = / IZR (10 ^ m)).
  { replace (e - P + 1)%Z with (- m)%Z by lia.
    rewrite powerRZ_neg', p10_Z by lia. reflexivity. }
  rewrite Hq.
  assert (Hpow : 0 < IZR (10 ^ m)).
  { apply IZR_lt. apply Z.pow_pos_nonneg; lia. }
  replace (IZR z / / IZR (10 ^ m)) with (IZR (z * 10 ^ m))
    by (rewrite mult_IZR; field; lra).
  rewrite Zfloor_half, mult_IZR. field. lra.
Qed.

Lemma roundHalfUp_Z (P : Z) (z : Z) :
  (Z.abs z < 10 ^ P)%Z -> roundHalfUp P (IZR z) = IZR z.
Proof.
  intros Hz. destruct (Z.lt_trichotomy z 0) as [Hneg | [-> | Hpos]].
  - pose proof (roundHalfUp_Z_pos P (- z) ltac:(lia)) as H.
    rewrite opp_IZR, roundHalfUp_opp in H. lra.
  - apply roundHalfUp_0.
  - apply roundHalfUp_Z_pos. lia.
Qed.

Lemma unitRoundoff_bounds (P : Z) : (1 <= P)%Z -> 0 < unitRoundoff P <= / 2.
Proof.
  intros HP. unfold unitRoundoff. pose proof (p10_pos (1 - P)).
  pose proof (p10_le (1 - P) 0 ltac:(lia)) as Hle.
  rewrite powerRZ_O in Hle. lra.
Qed.

Lemma roundHalfUp_context (P : Z) :
  (1 <= P)%Z -> DecimalContext (roundHalfUp P) P (unitRoundoff P).
Proof.
  intros HP. pose proof (unitRoundoff_bounds P HP). constructor.
  - exact HP.
  - lra.
  - intros x y. now apply roundHalfUp_mono.
  - apply roundHalfUp_Z.
  - apply roundHalfUp_error.
Qed.

(** *** Absorption *)

(** A positive term below half a unit in the last place of 1 is absorbed. *)
Lemma roundHalfUp_absorbs (P : Z) (eps : R) :
  (1 <= P)%Z -> 0 <= eps -> eps * powerRZ 10 (P - 1) < / 2 ->
  roundHalfUp P (1 + eps) = 1.
Proof.
  intros HP He Hsmall.
  pose proof (p10_le 0 (P - 1) ltac:(lia)) as H1. rewrite powerRZ_O in H1.
  set (N := powerRZ 10 (P - 1)) in *.
  assert (Heps : eps < / 2) by nra.
  assert (Hmag : magnitude (1 + eps) = 0%Z).
  { apply magnitude_unique. rewrite Rabs_pos_eq by lra.
    rewrite powerRZ_O. change (0 + 1)%Z with (Z.succ 0). rewrite powerRZ_1. lra. }
  rewrite roundHalfUp_pos_eq by lra. unfold ulp. rewrite Hmag.
  replace (0 - P + 1)%Z with (- (P - 1))%Z by lia.
  rewrite powerRZ_neg'. fold N.
  replace ((1 + eps) / / N + / 2) with (N + eps * N + / 2) by (field; lra).
  assert (HN : N = IZR (10 ^ (P - 1))) by (apply p10_Z; lia).
  clearbody N.
  rewrite (Zfloor_eq (10 ^ (P - 1))).
  - rewrite <- HN. clear HN. field. lra.
  - rewrite <- HN. clear HN.
    assert (0 <= eps * N) by (apply Rmult_le_pos; lra). lra.
Qed.

Lemma exp_nat_ge (n : nat) : 2 ^ n <= exp (INR n).
Proof.
  induction n as [| n IH].
  - cbn [pow INR]. rewrite exp_0. lra.
  - rewrite S_INR, exp_plus. cbn [pow].
    pose proof (exp_ineq1 1 ltac:(lra)) as He.
    pose proof (pow_lt 2 n ltac:(lra)).
    rewrite (Rmult_comm 2). apply Rmult_le_compat; lra.
Qed.

Lemma exp_minus_400_small : 2 * exp (- 400) * powerRZ 10 79 < / 2.
Proof.
  pose proof (exp_nat_ge 400) as H.
  rewrite INR_IZR_INZ in H. change (IZR (Z.of_nat 400)) with 400 in H.
  change 2 with (IZR 2) in H at 1. rewrite pow_IZR in H.
  replace (exp (- 400)) with (/ exp 400)
    by (rewrite <- exp_Ropp; f_equal; lra).
  rewrite p10_Z by lia.
  assert (Hbig : IZR (4 * 10 ^ 79) < IZR (2 ^ Z.of_nat 400))
    by (apply IZR_lt; reflexivity).
  rewrite mult_IZR in Hbig.
  assert (H10 : 0 < IZR (10 ^ 79)) by (apply IZR_lt; reflexivity).
  set (T := IZR (10 ^ 79)) in *.
  pose proof (exp_pos 400) as He.
  apply (Rmult_lt_reg_r (exp 400)); [assumption |].
  replace (2 * / exp 400 * T * exp 400) with (2 * T) by (field; lra).
  lra.
Qed.

Lemma unitRoundoff_80 : unitRoundoff 80 <= / 100.
Proof.
  unfold unitRoundoff.
  pose proof (p10_le (1 - 80) (-2) ltac:(lia)) as H.
  pose proof (p10_pos (1 - 80)) as H0.
  replace (powerRZ 10 (-2)) with (/ 100) in H.
  { set (q := powerRZ 10 (1 - 80)) in *. clearbody q. lra. }
  change (powerRZ 10 (-2)) with (/ (10 * (10 * 1))). f_equal. lra.
Qed.

Lemma unitRoundoff_80_millionth : unitRoundoff 80 <= / 1000000.
Proof.
  unfold unitRoundoff.
  pose proof (p10_le (1 - 80) (-6) ltac:(lia)) as H.
  pose proof (p10_pos (1 - 80)) as H0.
  replace (powerRZ 10 (-6)) with (/ 1000000) in H.
  { set (q := powerRZ 10 (1 - 80)) in *. clearbody q. lra. }
  change (powerRZ 10 (-6))
    with (/ (10 * (10 * (10 * (10 * (10 * (10 * 1))))))).
  f_equal. lra.
Qed.

(** At precision 80, on the funded market [0, -1000], the exponential of the
    second outcome is absorbed by the first: the argument of the logarithm
    is exactly zero. *)
Lemma absorbed_argument :
  logArgR (roundHalfUp 80) [0%Z; (-1000)%Z] 1 1 0 0 = 0.
Proof.
  pose proof (roundHalfUp_context 80 ltac:(lia)) as ctx.
  unfold logArgR.
  cbn [length sumR sumSkipR Z.of_nat Z.eqb Pos.of_succ_nat Pos.eqb].
  set (b := bR (roundHalfUp 80) 2 1).
  rewrite !(termPaid_free _ _ _ ctx) by reflexivity.
  rewrite !(termPlain_zero _ _ _ ctx).
  rewrite Rplus_0_l, (rnd_1 _ _ _ ctx).
  destruct (far_outcome_small _ _ _ ctx 1 unitRoundoff_80 ltac:(lia)) as [H0 H1].
  fold b in H0, H1.
  rewrite roundHalfUp_absorbs.
  - rewrite Rminus_diag. apply roundHalfUp_0.
  - lia.
  - lra.
  - change (80 - 1)%Z with 79%Z.
    pose proof exp_minus_400_small. pose proof (p10_pos 79).
    apply Rle_lt_trans with (2 * exp (- 400) * powerRZ 10 79); [| assumption].
    apply Rmult_le_compat_r; lra.
Qed.

Lemma absorbed_inverse :
  outcomeTokenCountLogArg (roundHalfUp 80) [0%Z; (-1000)%Z] 1 (ofZ 0)
    (liquidityParameter (roundHalfUp 80) [0%Z; (-1000)%Z] 1) 0 = Fin 0
  /\ calcLMSROutcomeTokenCount (roundHalfUp 80) [0%Z; (-1000)%Z] 1 1 0 (Some 0%Z)
     = Ok NInf.
Proof.
  pose proof (roundHalfUp_context 80 ltac:(lia)) as ctx.
  assert (Harg : outcomeTokenCountLogArg (roundHalfUp 80) [0%Z; (-1000)%Z] 1
                   (ofZ 0) (liquidityParameter (roundHalfUp 80) [0%Z; (-1000)%Z] 1) 0
                 = Fin 0).
  { rewrite (logArg_Fin _ _ _ ctx) by (cbn [length]; lia).
    now rewrite absorbed_argument. }
  split; [exact Harg |].
  unfold calcLMSROutcomeTokenCount.
  rewrite (normalizeWeb3Args_valid [0%Z; (-1000)%Z] 1 1 0 0 eq_refl ltac:(lia) eq_refl).
  cbn [bind]. change (Z.to_nat 1) with 1%nat. cbn [nth_error].
  rewrite Harg, (liquidityParameter_Fin _ _ _ ctx) by (cbn [length]; lia).
  pose proof (bR_pos _ _ _ ctx 2 1 ltac:(lia) ltac:(lia)) as Hb.
  cbn [length]. unfold Decimal.ln.
  rewrite isNegative_false, (isZero_true 0) by lra.
  unfold Decimal.times.
  rewrite isZero_false, isNegative_false by lra.
  reflexivity.
Qed.

End FinitePrecision.


(** ** The claims at concrete markets

    The decimal context is precision 80 with ties away from zero, except
    where a claim is about exact arithmetic. *)

Section Instances.

Open Scope R_scope.

Lemma ctx80 : DecimalContext (roundHalfUp 80) 80 (unitRoundoff 80).
Proof. apply roundHalfUp_context. lia. Qed.

Lemma exact_ctx80 : DecimalContext exact 80 0.
Proof. apply exact_context. lia. Qed.

Lemma unitRoundoff_80_tiny : unitRoundoff 80 * IZR 1000000001 < 1.
Proof.
  pose proof unitRoundoff_80 as H.
  pose proof (unitRoundoff_bounds 80 ltac:(lia)) as [H0 _].
  unfold unitRoundoff in *.
  pose proof (p10_le (1 - 80) (-10) ltac:(lia)) as Hle.
  change (powerRZ 10 (-10)) with (/ (10 * (10 * (10 * (10 * (10 * (10 * (10 * (10 * (10 * (10 * 1))))))))))) in Hle.
  set (q := powerRZ 10 (1 - 80)) in *. clearbody q. lra.
Qed.

(** Two scenarios of the specification, over exact arithmetic: the uniform
    prices of a fresh two-outcome market, and the unfunded purchase of 7
    tokens at a 5% fee, quoted 8. *)
Example uniform_prices :
  calcLMSRMarginalPrice exact [0%Z; 0%Z] 100 0 = Ok (Fin (/ 2))
  /\ calcLMSRMarginalPrice exact [0%Z; 0%Z] 100 1 = Ok (Fin (/ 2)).
Proof.
  assert (H : priceR exact [0%Z; 0%Z] 100 0 = / 2).
  { unfold priceR. rewrite sumR_exact. cbn [total length].
    unfold termShifted, exact.
    set (x := IZR 0 / bR (fun x => x) 2 100 - IZR (largest [0%Z; 0%Z])
                                               / bR (fun x => x) 2 100).
    pose proof (exp_pos x). field. lra. }
  pose proof (calcLMSRMarginalPrice_eval _ _ _ exact_ctx80 [0%Z; 0%Z] 100 0%nat 0%Z
                ltac:(cbn [length]; lia) ltac:(lia) eq_refl) as H0.
  pose proof (calcLMSRMarginalPrice_eval _ _ _ exact_ctx80 [0%Z; 0%Z] 100 1%nat 0%Z
                ltac:(cbn [length]; lia) ltac:(lia) eq_refl) as H1.
  rewrite H in H0, H1. split; assumption.
Qed.

Example unfunded_purchase_with_fee :
  calcLMSRCost exact [5%Z; (-3)%Z] 0 0 7 (Some 50000%Z) = Ok (ofZ 8).
Proof.
  rewrite (calcLMSRCost_eval _ _ _ exact_ctx80) by (reflexivity || lia).
  unfold Decimal.ofZ. do 3 f_equal. apply Zceil_eq.
  unfold costR, feeUp, eps1, exact. cbn [Z.eqb]. lra.
Qed.

Lemma calcLMSRCost_is_costFormula_witness :
  calcLMSRCost (roundHalfUp 80) [0%Z; 0%Z] 100 0 10 (Some 0%Z)
  = Ok (costFormula (roundHalfUp 80) [0%Z; 0%Z] 100 0 10 0).
Proof.
  apply (calcLMSRCost_is_costFormula (roundHalfUp 80) 80 (roundHalfUp_Z 80)
           [0%Z; 0%Z] 100 0 10 0).
  - reflexivity.
  - lia.
  - lia.
  - reflexivity.
  - repeat constructor.
Defined.





(** On an unfunded market the inversion returns NaN. *)
Lemma unfunded_inverse_returns_NaN :
  calcLMSROutcomeTokenCount (roundHalfUp 80) [(-1)%Z; (-1)%Z] 0 0 0 (Some 0%Z)
  = Ok NaN.
Proof. exact (proj2 (unfunded_inverse_example _ _ _ ctx80)). Qed.

(** On an unfunded market with tokens sold every marginal price is NaN. *)
Lemma unfunded_prices_are_NaN :
  calcLMSRMarginalPrice (roundHalfUp 80) [1%Z; 0%Z] 0 0 = Ok NaN
  /\ calcLMSRMarginalPrice (roundHalfUp 80) [1%Z; 0%Z] 0 1 = Ok NaN.
Proof. exact (unfunded_price_example _ _ _ ctx80). Qed.

Lemma marginal_prices_sum_to_one_witness :
  exists prices : list R,
    length prices = length [0%Z; 0%Z]
    /\ (forall i, (i < length [0%Z; 0%Z])%nat ->
          calcLMSRMarginalPrice (roundHalfUp 80) [0%Z; 0%Z] 100 (Z.of_nat i)
          = Ok (Fin (nth i prices 0)))
    /\ (1 - unitRoundoff 80) / (1 + unitRoundoff 80) ^ length [0%Z; 0%Z]
       <= Rsum prices
       <= (1 + unitRoundoff 80) / (1 - unitRoundoff 80) ^ length [0%Z; 0%Z].
Proof.
  apply (marginal_prices_sum_to_one _ _ _ ctx80 [0%Z; 0%Z] 100).
  - cbn [length]. lia.
  - lia.
Defined.



Lemma invalid_input_raises_witness :
  calcLMSRCost (roundHalfUp 80) [0%Z] 100 0 10 (Some 0%Z) = Err InvalidInput
  /\ calcLMSRProfit (roundHalfUp 80) [0%Z] 100 0 10 (Some 0%Z) = Err InvalidInput
  /\ calcLMSROutcomeTokenCount (roundHalfUp 80) [0%Z] 100 0 10 (Some 0%Z)
     = Err InvalidInput
  /\ (invalidState [0%Z] 100 0 ->
      calcLMSRMarginalPrice (roundHalfUp 80) [0%Z] 100 0 = Err InvalidInput).
Proof.
  apply (invalid_input_raises (roundHalfUp 80) [0%Z] 100 0 10 0).
  left. left. cbn [length]. lia.
Defined.





Lemma shifted_price_is_unshifted_witness :
  calcLMSRMarginalPrice exact [0%Z; 0%Z] 100 0
  = Ok (unshiftedRatio exact [0%Z; 0%Z] 100 (Z.to_nat 0))
  /\ forall m : R,
       shiftedRatio exact [0%Z; 0%Z] 100 (Z.to_nat 0) (Fin m)
       = unshiftedRatio exact [0%Z; 0%Z] 100 (Z.to_nat 0).
Proof.
  apply (shifted_price_is_unshifted [0%Z; 0%Z] 100 0).
  - reflexivity.
  - lia.
Defined.


(** *** Witnesses of the further properties *)






Lemma marginal_prices_ordered_witness :
  exists p p' : R,
    calcLMSRMarginalPrice (roundHalfUp 80) [5%Z; (-3)%Z] 100 (Z.of_nat 1)
    = Ok (Fin p)
    /\ calcLMSRMarginalPrice (roundHalfUp 80) [5%Z; (-3)%Z] 100 (Z.of_nat 0)
       = Ok (Fin p')
    /\ p <= p'.
Proof.
  apply (marginal_prices_ordered _ _ _ ctx80 [5%Z; (-3)%Z] 100 1 0 (-3) 5).
  - lia.
  - reflexivity.
  - reflexivity.
  - lia.
  - cbn [length]. lia.
Defined.

Lemma uniform_market_price_witness :
  calcLMSRMarginalPrice (roundHalfUp 80) (repeat 5%Z 3) 100 1
  = Ok (Fin (roundHalfUp 80 (1 / IZR (Z.of_nat 3))))
  /\ calcLMSRMarginalPrice (roundHalfUp 80) (repeat 0%Z 3) 0 1
     = Ok (Fin (roundHalfUp 80 (1 / IZR (Z.of_nat 3)))).
Proof.
  apply (uniform_market_price _ _ _ ctx80 5 100 1 3).
  - reflexivity.
  - lia.
  - reflexivity.
Defined.

Lemma unfunded_fresh_market_prices_witness :
  exists p : R,
    (forall idx : Z, (0 <= idx < Z.of_nat (length [0%Z; 0%Z; 0%Z]))%Z ->
       calcLMSRMarginalPrice (roundHalfUp 80) [0%Z; 0%Z; 0%Z] 0 idx
       = Ok (Fin p))
    /\ 1 - unitRoundoff 80 <= IZR (Z.of_nat (length [0%Z; 0%Z; 0%Z])) * p
       <= 1 + unitRoundoff 80.
Proof.
  apply (unfunded_fresh_market_prices _ _ _ ctx80 [0%Z; 0%Z; 0%Z]).
  - cbn [length]. lia.
  - reflexivity.
Defined.

Lemma unfunded_traded_market_prices_witness :
  calcLMSRMarginalPrice (roundHalfUp 80) [2%Z; (-1)%Z; 0%Z] 0 2 = Ok NaN.
Proof.
  apply (unfunded_traded_market_prices _ _ _ ctx80 [2%Z; (-1)%Z; 0%Z] 2).
  - reflexivity.
  - reflexivity.
Defined.

Lemma unfunded_count_is_NaN_witness :
  calcLMSROutcomeTokenCount (roundHalfUp 80) [3%Z; 4%Z] 0 0 5 (Some 0%Z)
  = Ok NaN.
Proof.
  apply (unfunded_count_is_NaN _ _ _ ctx80 [3%Z; 4%Z] 0 5 0).
  - reflexivity.
  - lia.
  - reflexivity.
Defined.










End Instances.

(** ** The Gnosis class at concrete contract sets *)

Section ContractSets.

Local Open Scope string_scope.

(** Two contract abstractions with the statistics of one function each. *)
Lemma gasDefault_set_iff_witness :
  let market :=
    {| Gnosis.gasStats :=
         Some [("buy",
                {| Gnosis.max := Some {| Gnosis.gasUsed := 150000 |} |})] |} in
  let standardMarket :=
    {| Gnosis.gasStats :=
         Some [("fund",
                {| Gnosis.max := Some {| Gnosis.gasUsed := 90000 |} |});
               ("close", {| Gnosis.max := None |})] |} in
  let cs := [("Market", market);
             ("StandardMarket", standardMarket)] in
  ((exists gas : Z,
      Gnosis.gasDefault cs "StandardMarket" standardMarket = Ok (Some gas))
   <-> exists g : Z,
         In (Gnosis.Num g)
            (Gnosis.maxima standardMarket ++ Gnosis.maxima market)%list
         /\ (0 < g)%Z)
  /\ forall gas : Z,
       Gnosis.gasDefault cs "StandardMarket" standardMarket = Ok (Some gas) ->
       (gas <= Gnosis.gasLimit)%Z.
Proof.
  intros market standardMarket cs.
  apply (gasDefault_set_iff cs "StandardMarket" standardMarket
           (Gnosis.maxima market)).
  reflexivity.
Defined.

Lemma gasDefault_covers_witness :
  let market :=
    {| Gnosis.gasStats :=
         Some [("buy",
                {| Gnosis.max := Some {| Gnosis.gasUsed := 150000 |} |})] |} in
  let standardMarket :=
    {| Gnosis.gasStats :=
         Some [("fund",
                {| Gnosis.max := Some {| Gnosis.gasUsed := 90000 |} |});
               ("close", {| Gnosis.max := None |})] |} in
  let cs := [("Market", market);
             ("StandardMarket", standardMarket)] in
  exists gas : Z,
    Gnosis.gasDefault cs "StandardMarket" standardMarket = Ok (Some gas)
    /\ (Z.min 150000 Gnosis.gasLimit <= gas <= Gnosis.gasLimit)%Z.
Proof.
  intros market standardMarket cs.
  apply (gasDefault_covers cs "StandardMarket" standardMarket
           (Gnosis.maxima market) 150000).
  - reflexivity.
  - cbn. auto.
  - lia.
  - intros z H. cbn in H.
    destruct H as [H | [H | [H | []]]]; try discriminate;
      injection H as <-; reflexivity.
Defined.



End ContractSets.
